(** * PromptVault: template variables, copy workflow, cache/sync layer

    A shallow embedding of the parts of PromptVault that carry logic:
    - [bubble/renderer/src/App.tsx]: [extractVariables], [replaceVariables],
      [handleCopy], [handleCopyWithVariables];
    - the storage service ([loadPromptsAsync], [savePromptAsync],
      [deletePromptAsync], [exportData], [createPromptVersion]);
    - the two connection-status subscription functions (web API service and
      bubble [ApiClient]);
    - the server route [POST /prompts];
    - the clipboard utility [copyToClipboard].

    JavaScript strings are sequences of UTF-16 code units; a code unit is a
    number in [N].  An object used as a dictionary ([Record<string, string>])
    is the finite map of its own properties, read through its prototype,
    [Object.prototype]; a [Set<string>] is a finite set of strings. *)

From Stdlib Require Import NArith ZArith Ascii String.
From stdpp Require Import gmap strings list pretty sorting.

Set Warnings "-clear-no-such-hyp,-register-all".

(** ** JavaScript strings *)

Abbreviation jsstring := (list N).

Module Js.
Local Open Scope N_scope.

(** A string literal of the source, as code units (ASCII only). *)
Definition str (s : string) : jsstring :=
  map N_of_ascii (list_ascii_of_string s).

Definition LBRACE : N := 123.  (* '{' *)
Definition RBRACE : N := 125.  (* '}' *)
Definition COLON  : N := 58.   (* ':' *)
Definition COMMA  : N := 44.   (* ',' *)

(** The code units removed by [String.prototype.trim]: ECMAScript
    WhiteSpace (TAB, VT, FF, SP, NBSP, ZWNBSP and category Zs) and
    LineTerminator (LF, CR, LS, PS). *)
Definition isWhiteSpace (c : N) : bool :=
  (c =? 9) || (c =? 10) || (c =? 11) || (c =? 12) || (c =? 13)
  || (c =? 32) || (c =? 160) || (c =? 5760)
  || ((8192 <=? c) && (c <=? 8202))
  || (c =? 8232) || (c =? 8233) || (c =? 8239) || (c =? 8287)
  || (c =? 12288) || (c =? 65279).

Fixpoint trimStart (s : jsstring) : jsstring :=
  match s with
  | c :: s' => if isWhiteSpace c then trimStart s' else s
  | [] => []
  end.

Definition trimEnd (s : jsstring) : jsstring :=
  reverse (trimStart (reverse s)).

(** [s.trim()] *)
Definition trim (s : jsstring) : jsstring := trimEnd (trimStart s).

(** [n.toString()] for an integer [n], as in [Date.now().toString()]. *)
Definition numberToString (n : Z) : jsstring := str (pretty n).

End Js.

(** * The embedding *)

(** ** The placeholder pattern

    Both functions of the template engine use one global regular expression:
    two opening braces, group 1 = one or more characters other than a closing
    brace and a colon, optionally a colon followed by group 2 = any number of
    characters other than a closing brace, then two closing braces (in
    [replaceVariables] the second group does not capture).  This module has
    the character classes, the shape of a match, and [matchHere], a direct
    reading of the pattern; the module [Regex] below has the pattern itself
    under the backtracking semantics, which is what the functions run. *)

Module Pattern.
Import Js.
Local Open Scope N_scope.

(** The greedy run of a character class at the head of [s], and the rest. *)
Fixpoint span (p : N → bool) (s : jsstring) : jsstring * jsstring :=
  match s with
  | c :: s' =>
      if p c then let '(run, rest) := span p s' in (c :: run, rest)
      else ([], s)
  | [] => ([], [])
  end.

(** [[^}:]] *)
Definition nameChar (c : N) : bool :=
  negb (c =? RBRACE) && negb (c =? COLON).

(** [[^}]] *)
Definition defaultChar (c : N) : bool := negb (c =? RBRACE).

(** One match: capture group 1, capture group 2 ([None] when the optional
    group did not take part, which JavaScript reports as [undefined]). *)
Record rmatch := RMatch { group1 : jsstring; group2 : option jsstring }.

(** A literal character of the pattern. *)
Definition lit (c : N) (s : jsstring) : option jsstring :=
  match s with
  | x :: s' => if x =? c then Some s' else None
  | [] => None
  end.

(** A match of the pattern at the head of [s], read off the pattern without
    backtracking: the greedy run of each class is the only candidate, since
    what follows a class in the pattern starts outside of it; and when the
    optional group fails after its colon, the closing braces cannot start at
    that colon.  [matchHere_backtrack] proves it equal to [Regex.matchRe]. *)
Definition matchHere (s : jsstring) : option (rmatch * jsstring) :=
  r ← lit LBRACE s ≫= lit LBRACE;
  let '(name, r1) := span nameChar r in
  match name with
  | [] => None
  | _ :: _ =>
      match lit COLON r1 with
      | Some r1' =>
          let '(dflt, r2) := span defaultChar r1' in
          r3 ← lit RBRACE r2 ≫= lit RBRACE;
          Some (RMatch name (Some dflt), r3)
      | None =>
          r2 ← lit RBRACE r1 ≫= lit RBRACE;
          Some (RMatch name None, r2)
      end
  end.

(** The text of the source that a match covers. *)
Definition matchText (m : rmatch) : jsstring :=
  [LBRACE; LBRACE] ++ group1 m
    ++ match group2 m with
       | Some d => COLON :: d
       | None => []
       end
    ++ [RBRACE; RBRACE].

Global Arguments matchText : simpl never.

End Pattern.

(** ** The pattern as a regular expression

    The fragment of JavaScript regular expressions that the pattern uses,
    with the backtracking semantics of the language: quantifiers are greedy
    and give back what they took when the rest of the pattern fails; a
    capture group records the text its body matched.  [matchHere] is shown
    to compute what this matcher returns on the pattern of the source
    ([matchHere_backtrack]). *)

Module Regex.
Import Js Pattern.

Inductive re :=
  | Chr (c : N)                  (* a literal character *)
  | Seq (r1 r2 : re)             (* r1 r2 *)
  | Star (p : N → bool)          (* [class]* *)
  | Plus (p : N → bool)          (* [class]+ *)
  | Opt (r : re)                 (* (?:r)? *)
  | Group (i : nat) (r : re).    (* the i-th capture group *)

(** Greedy repetition of a class: take one more character when possible,
    and fall back to stopping here when the continuation fails after it. *)
Fixpoint star {R} (p : N → bool) (s : jsstring) (caps : gmap nat jsstring)
    (k : jsstring → gmap nat jsstring → option R) : option R :=
  match s with
  | c :: s' =>
      if p c then
        match star p s' caps k with
        | Some res => Some res
        | None => k s caps
        end
      else k s caps
  | [] => k [] caps
  end.

(** [run r s caps k]: match [r] at the head of [s], then continue with [k]
    on the rest and the captures; [None] when every alternative fails. *)
Fixpoint run {R} (r : re) (s : jsstring) (caps : gmap nat jsstring)
    (k : jsstring → gmap nat jsstring → option R) : option R :=
  match r with
  | Chr c =>
      match s with
      | x :: s' => if (x =? c)%N then k s' caps else None
      | [] => None
      end
  | Seq r1 r2 => run r1 s caps (λ s1 caps1, run r2 s1 caps1 k)
  | Star p => star p s caps k
  | Plus p =>
      match s with
      | x :: s' => if p x then star p s' caps k else None
      | [] => None
      end
  | Opt r' =>
      match run r' s caps k with
      | Some res => Some res
      | None => k s caps
      end
  | Group i r' =>
      run r' s caps
        (λ rest caps', k rest (<[i := take (length s - length rest) s]> caps'))
  end.

(** The pattern of [extractVariables]:
    two [{], group 1 = [[^}:]+], optionally [:] and group 2 = [[^}]*],
    two [}]. *)
Definition placeholder : re :=
  Seq (Chr LBRACE) (Seq (Chr LBRACE)
    (Seq (Group 1 (Plus nameChar))
      (Seq (Opt (Seq (Chr COLON) (Group 2 (Star defaultChar))))
        (Seq (Chr RBRACE) (Chr RBRACE))))).

(** The match at the head of [s]: the groups and the text after it. *)
Definition matchRe (s : jsstring) : option (rmatch * jsstring) :=
  run placeholder s ∅
    (λ rest caps, Some (RMatch (default [] (caps !! 1)) (caps !! 2), rest)).

(** [regex.exec] on the text from [lastIndex] on: the text skipped before
    the leftmost match, the match, and the text after it (where the next
    search starts); [None] is JavaScript's [null]. *)
Fixpoint exec (s : jsstring) : option (jsstring * rmatch * jsstring) :=
  match s with
  | [] => None
  | c :: s' =>
      match matchRe s with
      | Some (m, rest) => Some ([], m, rest)
      | None =>
          match exec s' with
          | Some (skipped, m, rest) => Some (c :: skipped, m, rest)
          | None => None
          end
      end
  end.

End Regex.

(** ** Variable extraction and substitution (App.tsx) *)

Record variable := Variable_ {
  name : jsstring;
  defaultValue : option jsstring
}.

Global Instance variable_eq_dec : EqDecision variable.
Proof. solve_decision. Defined.

Module Template.
Import Js Pattern Regex.

(** The [while ((match = regex.exec(content)) !== null)] loop, with the
    array [variables] and the set [seen] as loop state.  [fuel] bounds the
    iterations; each one consumes part of the text, so the length of the
    text is enough ([extractLoop_fuel]). *)
Fixpoint extractLoop (fuel : nat) (s : jsstring)
    (variables : list variable) (seen : gset jsstring) : list variable :=
  match fuel with
  | O => variables
  | S fuel' =>
      match exec s with
      | None => variables
      | Some (_, m, rest) =>
          let name := trim (group1 m) in
          if decide (name ∈ seen) then extractLoop fuel' rest variables seen
          else
            extractLoop fuel' rest
              (variables ++ [Variable_ name (trim <$> group2 m)])
              ({[name]} ∪ seen)
      end
  end.

Definition extractVariables (content : jsstring) : list variable :=
  extractLoop (length content) content [] ∅.

(** The property names of [Object.prototype], which every plain object
    inherits.  [__proto__] is an accessor: its getter returns the prototype,
    whose text is [[object Object]], and its setter ignores a string.  The
    other names hold functions. *)
Definition PROTO : jsstring := str "__proto__".

Definition prototypeFunctions : list jsstring :=
  [str "constructor"; str "hasOwnProperty"; str "isPrototypeOf";
   str "propertyIsEnumerable"; str "toLocaleString"; str "toString";
   str "valueOf"; str "__defineGetter__"; str "__defineSetter__";
   str "__lookupGetter__"; str "__lookupSetter__"].

(** [object[key] = value] on a plain object whose values are strings: an
    assignment to [__proto__] that finds no own property of that name runs
    the setter of [Object.prototype] and leaves the object as it is; any
    other assignment sets an own property. *)
Definition assign (key value : jsstring) (object : gmap jsstring jsstring)
    : gmap jsstring jsstring :=
  match decide (key = PROTO), object !! key with
  | left _, None => object
  | _, _ => <[key := value]> object
  end.

Section Substitution.
(** The text that a built-in function converts to is left to the
    implementation by the language: it is a parameter, by property name. *)
Variable functionText : jsstring → jsstring.

(** [values[key]] as the text that [replace] writes for it; [None] is
    [undefined].  A property that the object does not have itself is looked
    up in [Object.prototype]. *)
Definition readProperty (values : gmap jsstring jsstring) (key : jsstring)
    : option jsstring :=
  match values !! key with
  | Some v => Some v
  | None =>
      if decide (key = PROTO) then Some (str "[object Object]")
      else if decide (key ∈ prototypeFunctions) then Some (functionText key)
      else None
  end.

(** The replacer callback of [replaceVariables]:
    [values[trimmedName] ?? `{{${trimmedName}}}`]. *)
Definition replacer (values : gmap jsstring jsstring) (m : rmatch) : jsstring :=
  let trimmedName := trim (group1 m) in
  match readProperty values trimmedName with
  | Some v => v
  | None => [LBRACE; LBRACE] ++ trimmedName ++ [RBRACE; RBRACE]
  end.

(** [content.replace(regex, callback)] with a global pattern: text between
    matches is copied, every match is replaced by the callback's result. *)
Fixpoint replaceLoop (fuel : nat) (s : jsstring)
    (values : gmap jsstring jsstring) : jsstring :=
  match exec s with
  | None => s
  | Some (skipped, m, rest) =>
      match fuel with
      | O => s
      | S fuel' => skipped ++ replacer values m ++ replaceLoop fuel' rest values
      end
  end.

Definition replaceVariables (content : jsstring)
    (values : gmap jsstring jsstring) : jsstring :=
  replaceLoop (length content) content values.

End Substitution.

Global Arguments replacer : simpl never.

End Template.

Import Js Pattern Regex Template.

(** ** The placeholders of a text

    [segments] lists the successive matches of the global pattern together
    with the text skipped before each, and the text left after the last
    match.  It is the iteration that both the [exec] loop and
    [String.prototype.replace] perform. *)

Fixpoint segments (fuel : nat) (s : jsstring)
    : list (jsstring * rmatch) * jsstring :=
  match exec s with
  | None => ([], s)
  | Some (skipped, m, rest) =>
      match fuel with
      | O => ([], s)
      | S fuel' =>
          let '(segs, tail) := segments fuel' rest in
          ((skipped, m) :: segs, tail)
      end
  end.

Definition placeholders (content : jsstring) : list (jsstring * rmatch) :=
  (segments (length content) content).1.

Definition trailing (content : jsstring) : jsstring :=
  (segments (length content) content).2.

(** What one match contributes to [extractVariables]. *)
Definition occurrence (m : rmatch) : variable :=
  Variable_ (trim (group1 m)) (trim <$> group2 m).

(** Every placeholder occurrence of the text, in order of appearance. *)
Definition occurrences (content : jsstring) : list variable :=
  (λ sm, occurrence sm.2) <$> placeholders content.

(** Keep the first entry of every name not in [seen]. *)
Fixpoint firsts (seen : gset jsstring) (l : list variable) : list variable :=
  match l with
  | [] => []
  | v :: l' =>
      if decide (name v ∈ seen) then firsts seen l'
      else v :: firsts ({[name v]} ∪ seen) l'
  end.

(** Reassemble a text from its segments, writing each match with [f]. *)
Definition assemble (f : rmatch → jsstring)
    (segs : list (jsstring * rmatch)) (tail : jsstring) : jsstring :=
  concat ((λ sm, sm.1 ++ f sm.2) <$> segs) ++ tail.

(** [v] stands at index [k] of [l] and no earlier entry of [l] has its name. *)
Definition firstAt (l : list variable) (k : nat) (v : variable) : Prop :=
  l !! k = Some v ∧ ∀ j w, j < k → l !! j = Some w → name w ≠ name v.

(** The placeholder [{{name}}] for a name, as the replacer writes it. *)
Definition bare (n : jsstring) : jsstring :=
  [LBRACE; LBRACE] ++ n ++ [RBRACE; RBRACE].

(** ** Data model (bubble/renderer/src/api.ts)

    Numbers of the source that hold epoch milliseconds are integers in [Z]. *)

Module PromptVersion.
Record t := Make {
  id : jsstring;
  content : jsstring;
  title : jsstring;
  savedAt : Z
}.
End PromptVersion.

Module Prompt.
Record t := Make {
  id : jsstring;
  title : jsstring;
  content : jsstring;
  tags : list jsstring;
  isFavorite : bool;
  isPinned : bool;
  folderId : option jsstring;
  createdAt : Z;
  updatedAt : Z;
  versions : list PromptVersion.t
}.
End Prompt.

Module Folder.
Record t := Make {
  id : jsstring;
  name : jsstring;
  icon : jsstring;
  color : jsstring;
  createdAt : Z
}.
End Folder.

Global Instance PromptVersion_eq_dec : EqDecision PromptVersion.t.
Proof. solve_decision. Defined.
Global Instance Prompt_eq_dec : EqDecision Prompt.t.
Proof. solve_decision. Defined.
Global Instance Folder_eq_dec : EqDecision Folder.t.
Proof. solve_decision. Defined.

(** ** Version snapshots (storage service) *)

(** [createPromptVersion]; [Date.now()] is read twice, [now1] for the id of
    the snapshot and [now2] for [savedAt]. *)
Definition createPromptVersion (now1 now2 : Z) (prompt : Prompt.t) : Prompt.t :=
  let version :=
    PromptVersion.Make (numberToString now1) (Prompt.content prompt)
      (Prompt.title prompt) now2 in
  (* Keep only last 5 versions *)
  let versions := take 5 (version :: Prompt.versions prompt) in
  Prompt.Make (Prompt.id prompt) (Prompt.title prompt) (Prompt.content prompt)
    (Prompt.tags prompt) (Prompt.isFavorite prompt) (Prompt.isPinned prompt)
    (Prompt.folderId prompt) (Prompt.createdAt prompt) (Prompt.updatedAt prompt)
    versions.

(** ** The copy workflow of the bubble (App.tsx)

    The component state that the workflow touches, the platform clipboard as
    the log of the texts handed to it, and the handlers as state
    transitions.  A clipboard write is a promise: it resolves or rejects. *)

Inductive outcome := Resolved | Rejected.

Module App.

(** [window.electronAPI] may be absent; then [navigator.clipboard] is
    used.  Each writer tells whether its promise resolves. *)
Record Platform := {
  electronAPI : option (jsstring → outcome);
  navigatorClipboard : jsstring → outcome
}.

Inductive ClipboardWrite :=
  | ElectronCopy (text : jsstring)     (* window.electronAPI.copyToClipboard *)
  | NavigatorWrite (text : jsstring).  (* navigator.clipboard.writeText *)

Definition written (w : ClipboardWrite) : jsstring :=
  match w with ElectronCopy t | NavigatorWrite t => t end.

Record State := {
  variableModal_open : bool;
  variableModal_prompt : option Prompt.t;
  variableValues : gmap jsstring jsstring;
  copiedId : option jsstring;
  clipboard : list ClipboardWrite  (* writes issued so far, oldest first *)
}.

Definition setVariableModal (open : bool) (prompt : option Prompt.t)
    (st : State) : State :=
  {| variableModal_open := open; variableModal_prompt := prompt;
     variableValues := variableValues st; copiedId := copiedId st;
     clipboard := clipboard st |}.

Definition setVariableValues (values : gmap jsstring jsstring)
    (st : State) : State :=
  {| variableModal_open := variableModal_open st;
     variableModal_prompt := variableModal_prompt st;
     variableValues := values; copiedId := copiedId st;
     clipboard := clipboard st |}.

Definition setCopiedId (i : option jsstring) (st : State) : State :=
  {| variableModal_open := variableModal_open st;
     variableModal_prompt := variableModal_prompt st;
     variableValues := variableValues st; copiedId := i;
     clipboard := clipboard st |}.

Definition issue (w : ClipboardWrite) (st : State) : State :=
  {| variableModal_open := variableModal_open st;
     variableModal_prompt := variableModal_prompt st;
     variableValues := variableValues st; copiedId := copiedId st;
     clipboard := clipboard st ++ [w] |}.

(** The component's [copyToClipboard(text, promptId)].  When the write
    rejects, the rest of the function does not run.  (The timer that clears
    [copiedId] after 1500 ms is the transition [copiedTimeout].) *)
Definition copyToClipboard (pf : Platform) (text promptId : jsstring)
    (st : State) : outcome * State :=
  let '(w, res) :=
    match electronAPI pf with
    | Some copy => (ElectronCopy text, copy text)
    | None => (NavigatorWrite text, navigatorClipboard pf text)
    end in
  match res with
  | Rejected => (Rejected, issue w st)
  | Resolved => (Resolved, setCopiedId (Some promptId) (issue w st))
  end.

Definition copiedTimeout (st : State) : State := setCopiedId None st.

(** [initialValues[v.name] = v.defaultValue || ''] for each variable,
    starting from the empty object. *)
Definition initialValues (variables : list variable) : gmap jsstring jsstring :=
  foldl (λ acc v, assign (name v) (default [] (defaultValue v)) acc) ∅ variables.

Definition handleCopy (pf : Platform) (prompt : Prompt.t) (st : State)
    : outcome * State :=
  let variables := extractVariables (Prompt.content prompt) in
  if bool_decide (0 < length variables) then
    (* Show variable modal *)
    (Resolved,
     setVariableModal true (Some prompt)
       (setVariableValues (initialValues variables) st))
  else
    (* Direct copy *)
    copyToClipboard pf (Prompt.content prompt) (Prompt.id prompt) st.

Definition handleCopyWithVariables (functionText : jsstring → jsstring)
    (pf : Platform) (st : State) : outcome * State :=
  match variableModal_prompt st with
  | None => (Resolved, st)
  | Some prompt =>
      let content :=
        replaceVariables functionText (Prompt.content prompt) (variableValues st) in
      match copyToClipboard pf content (Prompt.id prompt) st with
      | (Rejected, st') => (Rejected, st')
      | (Resolved, st') => (Resolved, setVariableModal false None st')
      end
  end.

(** The close button of the modal. *)
Definition closeVariableModal (st : State) : State :=
  setVariableModal false None st.

(** [onChange] of the input of variable [n]:
    [setVariableValues(prev => ({ ...prev, [n]: value }))]. *)
Definition changeVariable (n value : jsstring) (st : State) : State :=
  setVariableValues (<[n := value]> (variableValues st)) st.

(** The modal is rendered when it is open and has a prompt. *)
Definition modalShown (st : State) : bool :=
  variableModal_open st && bool_decide (is_Some (variableModal_prompt st)).

(** The user fills in the dialog: a sequence of changes. *)
Definition fill (edits : list (jsstring * jsstring)) (st : State) : State :=
  foldl (λ st e, changeVariable e.1 e.2 st) st edits.

(** The write the platform is asked for. *)
Definition platformWrite (pf : Platform) (text : jsstring) : ClipboardWrite :=
  match electronAPI pf with
  | Some _ => ElectronCopy text
  | None => NavigatorWrite text
  end.

End App.

(** ** The storage service: remote API with [localStorage] as cache

    The functions of the service run in a small monad: they read and write
    the browser's [localStorage], write to the console, and either return a
    value or throw.  An [async] function returning [inr v] is a promise that
    resolves with [v]; [inl e] is a promise that rejects with [e]. *)

Module Store.

(** What is thrown. *)
Inductive Exn :=
  | ApiError (status : Z)   (* handleResponse: response not ok *)
  | NetworkError            (* fetch itself failed *)
  | QuotaExceededError      (* localStorage.setItem *)
  | SyntaxError             (* JSON.parse *)
  | SecurityError           (* localStorage.getItem: access is denied *)
  | TypeError.              (* a method called on a value that has none *)

(** What [localStorage.getItem(PROMPTS_CACHE_KEY)] finds under the key.  A
    text that [JSON.parse] accepts is kept as what it parses to: an array,
    which for the text written by [JSON.stringify(prompts)] is [prompts], or
    a value that is not an array ([null], an object, a number, a string, a
    boolean). *)
Inductive Text :=
  | Json (prompts : list Prompt.t)
  | JsonOther                        (* the text of a value that is no array *)
  | EmptyText                        (* the empty string: falsy *)
  | Unparsable                       (* JSON.parse throws *)
  | Unreadable.                      (* getItem itself throws *)

(** What [JSON.parse] returned, as far as the service uses it: the service
    takes it for an array and only calls array methods on it. *)
Inductive Parsed :=
  | Array (prompts : list Prompt.t)
  | NotArray.

Inductive LogEntry :=
  | FailedToReadPromptsCache
  | FailedToWritePromptsCache
  | FailedToFetchPrompts
  | FailedToSavePrompt
  | FailedToDeletePrompt.

Record World := {
  (** What [localStorage.getItem(PROMPTS_CACHE_KEY)] finds; [None] is
      [null], and with [Some Unreadable] the call throws. *)
  promptsCache : option Text;
  (** Whether [localStorage.setItem] takes the text of this array; when
      it does not (quota exceeded, storage disabled) it throws. *)
  quota : list Prompt.t → bool;
  (** [console.error] calls, oldest first. *)
  console : list LogEntry
}.

Definition M (A : Type) : Type := World → (Exn + A) * World.

Definition ret {A} (a : A) : M A := λ w, (inr a, w).
Definition throw {A} (e : Exn) : M A := λ w, (inl e, w).
Definition bind {A B} (m : M A) (k : A → M B) : M B :=
  λ w, match m w with
       | (inl e, w') => (inl e, w')
       | (inr a, w') => k a w'
       end.
(** [try { m } catch (e) { h e }]: what [m] did before throwing stays. *)
Definition tryCatch {A} (m : M A) (h : Exn → M A) : M A :=
  λ w, match m w with
       | (inl e, w') => h e w'
       | (inr a, w') => (inr a, w')
       end.

Global Instance M_ret : MRet M := @ret.
Global Instance M_bind : MBind M := λ A B k m, bind m k.

Definition consoleError (entry : LogEntry) : M unit :=
  λ w, (inr (), {| promptsCache := promptsCache w; quota := quota w;
                   console := console w ++ [entry] |}).

Definition getItem : M (option Text) :=
  λ w, match promptsCache w with
       | Some Unreadable => (inl SecurityError, w)
       | raw => (inr raw, w)
       end.

Definition setItem (prompts : list Prompt.t) : M unit :=
  λ w, if quota w prompts then
         (inr (), {| promptsCache := Some (Json prompts); quota := quota w;
                     console := console w |})
       else (inl QuotaExceededError, w).

Definition getCachedPrompts : M Parsed :=
  tryCatch
    (raw ← getItem;
     match raw with
     | None | Some EmptyText => ret (Array [])      (* if (!raw) return [] *)
     | Some (Json prompts) => ret (Array prompts)   (* JSON.parse(raw) *)
     | Some JsonOther => ret NotArray               (* JSON.parse(raw) *)
     | Some Unparsable => throw SyntaxError
     | Some Unreadable => throw SecurityError
     end)
    (λ e, consoleError FailedToReadPromptsCache;; ret (Array [])).

(** The call of an array method ([map], [find], [findIndex], [filter]) on
    what [getCachedPrompts] returned: a value that is not an array has no
    such method, and the call throws. *)
Definition array (value : Parsed) : M (list Prompt.t) :=
  match value with
  | Array prompts => ret prompts
  | NotArray => throw TypeError
  end.

Definition setCachedPrompts (prompts : list Prompt.t) : M unit :=
  tryCatch (setItem prompts)
    (λ e, consoleError FailedToWritePromptsCache).

(** The answers of the remote API to the calls of the service
    ([apiService]: [fetch] followed by [handleResponse]). *)
Record Api := {
  fetchPrompts : Exn + list Prompt.t;
  createPromptApi : Prompt.t → Exn + Prompt.t;
  updatePromptApi : jsstring → Prompt.t → Exn + Prompt.t;
  deletePromptApi : jsstring → Exn + unit
}.

Definition await {A} (r : Exn + A) : M A := λ w, (r, w).

(** [{ ...createDefaultPrompt(), ...p }]: [p] has every property of a
    prompt, so each one of the default is overridden. *)
Definition spread (dflt p : Prompt.t) : Prompt.t :=
  Prompt.Make (Prompt.id p) (Prompt.title p) (Prompt.content p)
    (Prompt.tags p) (Prompt.isFavorite p) (Prompt.isPinned p)
    (Prompt.folderId p) (Prompt.createdAt p) (Prompt.updatedAt p)
    (Prompt.versions p).

Section Service.
(** [createDefaultPrompt] is imported from the types module; the service
    only spreads a prompt over its result, so it is a parameter here. *)
Variable createDefaultPrompt : Prompt.t.
Variable api : Api.

Definition loadPromptsAsync : M (list Prompt.t) :=
  tryCatch
    (prompts ← await (fetchPrompts api);
     (* Update cache *)
     setCachedPrompts prompts;;
     (* Ensure all prompts have required fields *)
     ret (spread createDefaultPrompt <$> prompts))
    (λ error,
       consoleError FailedToFetchPrompts;;
       (* Fall back to cache *)
       cached ← getCachedPrompts;
       prompts ← array cached;
       ret (spread createDefaultPrompt <$> prompts)).

(** [cached.findIndex(p => p.id === saved.id)], then replace or push. *)
Definition upsert (saved : Prompt.t) (cached : list Prompt.t) : list Prompt.t :=
  match list_find (λ p, Prompt.id p = Prompt.id saved) cached with
  | Some (index, _) => <[index := saved]> cached
  | None => cached ++ [saved]
  end.

Definition savePromptAsync (prompt : Prompt.t) : M Prompt.t :=
  tryCatch
    ((* Check if prompt exists *)
     cached0 ← getCachedPrompts;
     prompts0 ← array cached0;
     let existing := list_find (λ p, Prompt.id p = Prompt.id prompt) prompts0 in
     saved ← await (match existing with
                    | Some _ => updatePromptApi api (Prompt.id prompt) prompt
                    | None => createPromptApi api prompt
                    end);
     (* Update cache *)
     cached ← getCachedPrompts;
     prompts ← array cached;
     setCachedPrompts (upsert saved prompts);;
     ret saved)
    (λ error, consoleError FailedToSavePrompt;; throw error).

Definition deletePromptAsync (id : jsstring) : M unit :=
  tryCatch
    (await (deletePromptApi api id);;
     (* Update cache *)
     cached ← getCachedPrompts;
     prompts ← array cached;
     setCachedPrompts (filter (λ p, Prompt.id p ≠ id) prompts))
    (λ error, consoleError FailedToDeletePrompt;; throw error).

End Service.

(** The array that the cache holds: the array stored under the key, and
    no prompt when the key holds none. *)
Definition cached (w : World) : list Prompt.t :=
  match promptsCache w with
  | Some (Json prompts) => prompts
  | _ => []
  end.

(** ** Export *)

Definition CURRENT_VERSION : Z := 2.

Record ExportData := {
  version : Z;
  exportedAt : Z;
  prompts : list Prompt.t;
  folders : list Folder.t
}.

(** [exportData(prompts, folders)]; [now] is [Date.now()].  The function
    returns [JSON.stringify(data, null, 2)]: the model keeps [data], the
    value that text parses to. *)
Definition exportData (now : Z) (prompts : list Prompt.t)
    (folders : list Folder.t) : ExportData :=
  {| version := CURRENT_VERSION; exportedAt := now;
     prompts := prompts; folders := folders |}.

End Store.

(** The text of a built-in function in V8, the engine of Electron and
    Chromium, used in the examples. *)
Definition v8FunctionText (key : jsstring) : jsstring :=
  if decide (key = str "constructor") then str "function Object() { [native code] }"
  else str "function " ++ key ++ str "() { [native code] }".

(** A prompt used in the examples. *)
Definition samplePrompt (i : string) : Prompt.t :=
  Prompt.Make (str i) (str "Title") (str "Hi {{name:Bob}}") [] false false None 1 1 [].

(** The remote call that [savePromptAsync] issues: an update when the cache
    has an entry with the id of the prompt, a create otherwise. *)
Definition saveCall (api : Store.Api) (prompt : Prompt.t) (w : Store.World)
    : Store.Exn + Prompt.t :=
  match list_find (λ p, Prompt.id p = Prompt.id prompt) (Store.cached w) with
  | Some _ => Store.updatePromptApi api (Prompt.id prompt) prompt
  | None => Store.createPromptApi api prompt
  end.

(** ** Connection status: the two subscription functions

    A listener is a callback; what matters of it is which one it is and
    with what it gets called.  [calls] logs the invocations of listeners,
    oldest first. *)

Inductive ConnectionStatus := connected | disconnected | checking.

Global Instance ConnectionStatus_eq_dec : EqDecision ConnectionStatus.
Proof. solve_decision. Defined.

Module Monitor.

Record State := {
  connectionStatus : ConnectionStatus;
  listeners : list nat;
  calls : list (nat * ConnectionStatus)
}.

(** Both modules start with [connectionStatus = 'checking'] and no
    listener. *)
Definition initial : State :=
  {| connectionStatus := checking; listeners := []; calls := [] |}.

(** [setConnectionStatus], the same in both modules: on a change, store
    the status and call every listener with it. *)
Definition setConnectionStatus (status : ConnectionStatus) (st : State) : State :=
  if decide (connectionStatus st ≠ status) then
    {| connectionStatus := status; listeners := listeners st;
       calls := calls st ++ ((λ l, (l, status)) <$> listeners st) |}
  else st.

(** The function that subscription returns: it drops the listener. *)
Definition unsubscribe (listener : nat) (st : State) : State :=
  {| connectionStatus := connectionStatus st;
     listeners := filter (λ l, l ≠ listener) (listeners st);
     calls := calls st |}.

(** [checkConnection]: 'checking', then the result of the health request
    ([healthy] tells whether it succeeded with an ok response). *)
Definition checkConnection (healthy : bool) (st : State) : bool * State :=
  let st1 := setConnectionStatus checking st in
  if healthy then (true, setConnectionStatus connected st1)
  else (false, setConnectionStatus disconnected st1).

End Monitor.

(** The web API service. *)
Module ApiService.
Import Monitor.

Definition getConnectionStatus (st : State) : ConnectionStatus :=
  connectionStatus st.

Definition onConnectionStatusChange (listener : nat) (st : State) : State :=
  {| connectionStatus := connectionStatus st;
     listeners := listeners st ++ [listener];
     calls := calls st |}.

End ApiService.

(** The bubble's [ApiClient]. *)
Module ApiClient.
Import Monitor.

Definition onConnectionStatusChange (callback : nat) (st : State) : State :=
  {| connectionStatus := connectionStatus st;
     listeners := listeners st ++ [callback];
     calls := calls st ++ [(callback, connectionStatus st)] |}.

End ApiClient.

(** ** The server route [POST /prompts] (server/src/api.ts)

    The request body is what [express.json()] leaves in [req.body]: an
    object, read here as a map from property names to JSON values.  The
    route copies values without checking their type, so the prompt it builds
    holds JSON values.  Numbers are integers here; the route only asks of a
    number whether it is zero. *)

Module Server.

Inductive json :=
  | JNull
  | JBool (b : bool)
  | JNumber (n : Z)
  | JString (s : jsstring)
  | JArray (items : list json)
  | JObject (fields : list (jsstring * json)).

(** JavaScript truthiness of a JSON value. *)
Definition truthy (v : json) : bool :=
  match v with
  | JNull => false
  | JBool b => b
  | JNumber n => negb (n =? 0)%Z
  | JString s => match s with [] => false | _ => true end
  | JArray _ | JObject _ => true
  end.

(** [value || fallback], where [None] is [undefined]. *)
Definition orElse (value : option json) (fallback : json) : json :=
  match value with
  | Some v => if truthy v then v else fallback
  | None => fallback
  end.

Record Prompt := {
  id : json;
  title : json;
  content : json;
  tags : json;
  isFavorite : json;
  isPinned : json;
  folderId : json;
  createdAt : json;
  updatedAt : json;
  versions : json
}.

(** The object literal of the route; [now] is [Date.now()]. *)
Definition newPrompt (now : Z) (body : gmap jsstring json) : Prompt :=
  {| id := orElse (body !! str "id") (JString (numberToString now));
     title := orElse (body !! str "title") (JString (str "New Prompt"));
     content := orElse (body !! str "content") (JString []);
     tags := orElse (body !! str "tags") (JArray []);
     isFavorite := orElse (body !! str "isFavorite") (JBool false);
     isPinned := orElse (body !! str "isPinned") (JBool false);
     folderId := orElse (body !! str "folderId") JNull;
     createdAt := orElse (body !! str "createdAt") (JNumber now);
     updatedAt := orElse (body !! str "updatedAt") (JNumber now);
     versions := orElse (body !! str "versions") (JArray []) |}.

Inductive Payload :=
  | PromptJson (prompt : Prompt)
  | ErrorJson (error : jsstring).

Record Response := { status : Z; payload : Payload }.

(** A database call returns a row or throws. *)
Inductive DbResult := Returned (row : Prompt) | Thrown.

Section Routes.
(** The route calls into the imported database module: the state of the
    database and its [createPrompt] are parameters here. *)
Variable Db : Type.
Variable createPrompt : Prompt → Db → DbResult * Db.

Definition postPrompts (now : Z) (body : gmap jsstring json) (db : Db)
    : Response * Db :=
  let prompt := newPrompt now body in
  match createPrompt prompt db with
  | (Returned created, db') =>
      ({| status := 201; payload := PromptJson created |}, db')
  | (Thrown, db') =>
      ({| status := 500;
          payload := ErrorJson (str "Failed to create prompt") |}, db')
  end.

End Routes.

End Server.

(** Modelled from the spec: the database module [database.js] that the
    routes import, which is not among the sources.  The spec has the
    database as "an opaque key-value/row store accessed via simple CRUD
    calls" and a prompt as "created with a client- or server-assigned id and
    initial timestamps": [createPrompt] stores the row it is given and
    returns it. *)
Module Database.

Definition t := list Server.Prompt.

Definition createPrompt (row : Server.Prompt) (db : t) : Server.DbResult * t :=
  (Server.Returned row, db ++ [row]).

End Database.



(** ** The clipboard utility ([copyToClipboard] of the web application)

    Two tiers: [navigator.clipboard.writeText] when it exists, then a hidden
    text area with [document.execCommand('copy')]. *)

Module Clipboard.

Record Env := {
  (** [navigator.clipboard && navigator.clipboard.writeText]: absent, or a
      write whose promise resolves or rejects. *)
  writeText : option (jsstring → outcome);
  (** The fallback block on a text: [Some b] when it runs through and
      [execCommand] returns [b], [None] when something in it throws. *)
  execCommandCopy : jsstring → option bool
}.

(** An attempt to write, and whether it succeeded. *)
Inductive Attempt :=
  | AsyncWrite (text : jsstring) (ok : bool)
  | SelectionCopy (text : jsstring) (ok : bool).

Definition succeeded (a : Attempt) : bool :=
  match a with AsyncWrite _ ok | SelectionCopy _ ok => ok end.

(** Fallback for HTTP / older browsers. *)
Definition fallback (env : Env) (text : jsstring) (log : list Attempt)
    : bool * list Attempt :=
  match execCommandCopy env text with
  | Some successful => (successful, log ++ [SelectionCopy text successful])
  | None => (false, log ++ [SelectionCopy text false])
  end.

(** The result and the attempts made, in order. *)
Definition copyToClipboard (env : Env) (text : jsstring) : bool * list Attempt :=
  match text with
  | [] => (false, [])                       (* if (!text) return false *)
  | _ :: _ =>
      (* Try the modern API first (works in secure contexts) *)
      match writeText env with
      | Some write =>
          match write text with
          | Resolved => (true, [AsyncWrite text true])
          | Rejected => fallback env text [AsyncWrite text false]
          end
      | None => fallback env text []
      end
  end.

End Clipboard.

(** ** Further notions for the template engine *)

(** A text with no white space at either end, as [trim] leaves it. *)
Definition trimmed (s : jsstring) : Prop :=
  (∀ c, head s = Some c → isWhiteSpace c = false)
  ∧ (∀ c, last s = Some c → isWhiteSpace c = false).

(** [t] is [raw] without the white space at its two ends. *)
Definition trimOf (raw t : jsstring) : Prop :=
  trimmed t
  ∧ ∃ before after,
      raw = before ++ t ++ after
      ∧ Forall (λ c, isWhiteSpace c = true) before
      ∧ Forall (λ c, isWhiteSpace c = true) after.

(** A placeholder as it is written: its name is not empty and has neither a
    closing brace nor a colon; its default, when it has one, has no closing
    brace.  Its text is [matchText]: two opening braces, the name, a colon
    and the default if there is one, two closing braces. *)
Definition wellFormed (m : rmatch) : Prop :=
  group1 m ≠ []
  ∧ Forall (λ c, c ≠ RBRACE ∧ c ≠ COLON) (group1 m)
  ∧ ∀ d, group2 m = Some d → Forall (λ c, c ≠ RBRACE) d.

(** A placeholder is written at the head of [s]. *)
Definition placeholderAt (s : jsstring) : Prop :=
  ∃ m rest, wellFormed m ∧ s = matchText m ++ rest.

(** The placeholders of a text, read from left to right: [scanned s segs
    tail] when [segs] lists the placeholders of [s], each with the text that
    stands before it, and [tail] is the text after the last one.  Each
    placeholder is the first that is written at or after the end of the one
    before it: no placeholder is written at a position of the text before
    it, nor anywhere in [tail]. *)
Inductive scanned : jsstring → list (jsstring * rmatch) → jsstring → Prop :=
  | scanned_tail s :
      (∀ pre post, s = pre ++ post → ¬ placeholderAt post) →
      scanned s [] s
  | scanned_placeholder skipped m rest segs tail :
      wellFormed m →
      (∀ pre post, skipped = pre ++ post → post ≠ [] →
         ¬ placeholderAt (post ++ matchText m ++ rest)) →
      scanned rest segs tail →
      scanned (skipped ++ matchText m ++ rest) ((skipped, m) :: segs) tail.

(** The text made of the texts before the placeholders, each followed by
    the text written for its placeholder, and of the tail. *)
Definition interleave (segs : list (jsstring * rmatch))
    (texts : list jsstring) (tail : jsstring) : jsstring :=
  concat (zip_with (λ sm text, sm.1 ++ text) segs texts) ++ tail.

(** ** The prompt list of the bubble (App.tsx)

    [filteredPrompts], [pinnedPrompts] and [recentPrompts].
    [String.prototype.toLowerCase] is a parameter.
    [Array.prototype.sort] is stable, and the comparator of the source is a
    consistent order, so the sorted array is the one a stable insertion sort
    computes. *)

Module Listing.
Local Open Scope Z_scope.

(** [s.startsWith(q)] and [s.includes(q)] *)
Fixpoint startsWith (s q : jsstring) : bool :=
  match q, s with
  | [], _ => true
  | c :: q', x :: s' => (x =? c)%N && startsWith s' q'
  | _ :: _, [] => false
  end.

Fixpoint includes (s q : jsstring) : bool :=
  startsWith s q || match s with [] => false | _ :: s' => includes s' q end.

(** The comparator: pinned first, then by most recently updated. *)
Definition compare (a b : Prompt.t) : Z :=
  if negb (eqb (Prompt.isPinned a) (Prompt.isPinned b)) then
    (if Prompt.isPinned a then -1 else 1)
  else Prompt.updatedAt b - Prompt.updatedAt a.

Fixpoint insert (x : Prompt.t) (l : list Prompt.t) : list Prompt.t :=
  match l with
  | [] => [x]
  | y :: l' => if compare x y <=? 0 then x :: l else y :: insert x l'
  end.

(** [[...result].sort(compare)] *)
Fixpoint sort (l : list Prompt.t) : list Prompt.t :=
  match l with
  | [] => []
  | x :: l' => insert x (sort l')
  end.

Section Search.
Variable toLowerCase : jsstring → jsstring.

Definition matches (q : jsstring) (p : Prompt.t) : bool :=
  includes (toLowerCase (Prompt.title p)) q
  || includes (toLowerCase (Prompt.content p)) q
  || existsb (λ t, includes (toLowerCase t) q) (Prompt.tags p).

Definition filteredPrompts (prompts : list Prompt.t) (searchQuery : jsstring)
    : list Prompt.t :=
  let result :=
    match searchQuery with
    | [] => prompts                       (* if (searchQuery) *)
    | _ :: _ =>
        let q := toLowerCase searchQuery in
        filter (λ p, matches q p = true) prompts
    end in
  sort result.

Definition pinnedPrompts (prompts : list Prompt.t) (searchQuery : jsstring) :=
  filter (λ p, Prompt.isPinned p = true) (filteredPrompts prompts searchQuery).

Definition recentPrompts (prompts : list Prompt.t) (searchQuery : jsstring) :=
  take 10 (filter (λ p, Prompt.isPinned p ≠ true) (filteredPrompts prompts searchQuery)).

End Search.

End Listing.

(** [a] is listed no later than [b]: it is pinned and [b] is not, or both
    have the same pin state and [a] was updated no earlier than [b]. *)
Definition listedBefore (a b : Prompt.t) : Prop :=
  (Prompt.isPinned a = true ∧ Prompt.isPinned b = false)
  ∨ (Prompt.isPinned a = Prompt.isPinned b
     ∧ (Prompt.updatedAt b ≤ Prompt.updatedAt a)%Z).

(** ** The storage service: synchronous access and utilities *)

Module Sync.
Import Store.

(** [loadPrompts]: the cache, with the defaults spread under each prompt. *)
Definition loadPrompts (createDefaultPrompt : Prompt.t) : M (list Prompt.t) :=
  cached ← getCachedPrompts;
  prompts ← array cached;
  mret (spread createDefaultPrompt <$> prompts).

(** [savePrompts] *)
Definition savePrompts (prompts : list Prompt.t) : M unit :=
  setCachedPrompts prompts.

(** Whether the pattern [\.md$] with flag [i] matches: the text ends with a
    dot, an [m] or [M], and a [d] or [D]. *)
Definition endsWithMd (s : jsstring) : bool :=
  match reverse s with
  | d :: m :: dot :: _ =>
      (dot =? 46)%N && ((m =? 109)%N || (m =? 77)%N)
      && ((d =? 100)%N || (d =? 68)%N)
  | _ => false
  end.

(** [importFromMarkdown]; [now] is [Date.now()]. *)
Definition importFromMarkdown (now : Z) (filename content : jsstring) : Prompt.t :=
  let title :=
    if endsWithMd filename then take (length filename - 3) filename else filename in
  Prompt.Make (numberToString now) title content [] false false None now now [].

End Sync.

(** ** Import (storage service)

    [importData] works on whatever [JSON.parse] returns, so its data are
    JSON values, with the own properties of an object in their order. *)

Module Importing.
Import Server.

(** [object.key] on an object with these own properties; [None] is
    [undefined]. *)
Fixpoint getProp (key : jsstring) (fields : list (jsstring * json)) : option json :=
  match fields with
  | [] => None
  | (k, v) :: rest => if decide (k = key) then Some v else getProp key rest
  end.

(** Defining [key: value] in an object literal after a spread: the value of
    an existing property is replaced in place, a new property comes last. *)
Fixpoint setProp (key : jsstring) (value : json) (fields : list (jsstring * json))
    : list (jsstring * json) :=
  match fields with
  | [] => [(key, value)]
  | (k, v) :: rest =>
      if decide (k = key) then (k, value) :: rest
      else (k, v) :: setProp key value rest
  end.

(** What [{...p}] copies: the own enumerable properties of [p].  An array
    and a string have their indices; [null], a boolean and a number have
    none. *)
Definition ownProperties (p : json) : list (jsstring * json) :=
  match p with
  | JObject fields => fields
  | JArray items => imap (λ i item, (numberToString (Z.of_nat i), item)) items
  | JString s => imap (λ i c, (numberToString (Z.of_nat i), JString [c])) s
  | JNull | JBool _ | JNumber _ => []
  end.

(** [migrateToV2] *)
Definition migrateToV2 (legacyPrompts : list json) : list json :=
  (λ p, JObject (setProp (str "versions") (JArray [])
                   (setProp (str "folderId") JNull
                      (setProp (str "isPinned") (JBool false)
                         (ownProperties p))))) <$> legacyPrompts.

(** The object that [importData] returns. *)
Record Imported := { prompts : list json; folders : json }.

Inductive LogEntry := ImportFailed.

(** [Array.prototype.join] with the separator [","], on the texts of the
    elements. *)
Definition join (texts : list jsstring) : jsstring :=
  match texts with
  | [] => []
  | text :: rest => foldl (λ joined t, joined ++ COMMA :: t) text rest
  end.

(** The conversion of a JSON value to a string, as a template literal and
    the conversion to a primitive do it; [None] is a [TypeError].  An object
    made by [JSON.parse] has [Object.prototype] as its prototype and only
    values that cannot be called as properties: with an own property
    [toString] it has no method that gives a primitive ([valueOf], own or
    inherited, gives none), and the conversion throws; without one its text
    is ["[object Object]"].  An array is converted by [join]: [null]
    elements give the empty text, the other elements are converted in
    turn. *)
Fixpoint toText (v : json) : option jsstring :=
  match v with
  | JNull => Some (str "null")
  | JBool b => Some (if b then str "true" else str "false")
  | JNumber n => Some (numberToString n)
  | JString s => Some s
  | JArray items =>
      texts ← mapM (λ item, match item with
                             | JNull => Some []
                             | _ => toText item
                             end) items;
      Some (join texts)
  | JObject fields =>
      match getProp (str "toString") fields with
      | Some _ => None
      | None => Some (str "[object Object]")
      end
  end.

Section Parse.
(** [ToNumber] on a string is a parameter; [None] is [NaN]. *)
Variable stringToNumber : jsstring → option Z.

(** [ToNumber]; the outer [None] is a [TypeError].  An array and an object
    go through their conversion to a primitive, which is their text; the
    text of an object is no numeric literal. *)
Definition toNumber (v : json) : option (option Z) :=
  match v with
  | JNull => Some (Some 0%Z)
  | JBool b => Some (Some (if b then 1 else 0)%Z)
  | JNumber n => Some (Some n)
  | JString s => Some (stringToNumber s)
  | JArray _ => text ← toText v; Some (stringToNumber text)
  | JObject _ => _ ← toText v; Some None
  end.

(** [value < n] for a number [n]; a comparison with [NaN] is false, and
    [undefined] converts to [NaN].  [None] is a [TypeError]. *)
Definition lessThan (value : option json) (n : Z) : option bool :=
  match value with
  | None => Some false
  | Some v =>
      m ← toNumber v;
      Some (match m with Some m => (m <? n)%Z | None => false end)
  end.

(** [importData]; [data] is [JSON.parse(jsonString)], [None] when it throws.
    The result comes with what was written to [console.error]. *)
Definition importData (data : option json) : option Imported * list LogEntry :=
  match data with
  | None => (None, [ImportFailed])
  | Some (JArray items) =>
      (* Handle legacy format (just array of prompts) *)
      (Some {| prompts := migrateToV2 items; folders := JArray [] |}, [])
  | Some (JObject fields) =>
      (* Handle new format *)
      match getProp (str "prompts") fields with
      | Some (JArray items) =>
          match lessThan (getProp (str "version") fields) 2 with
          | Some legacy =>
              (Some {| prompts := if legacy then migrateToV2 items else items;
                       folders := orElse (getProp (str "folders") fields)
                                    (JArray []) |},
               [])
          | None => (None, [ImportFailed])   (* the comparison throws *)
          end
      | _ => (None, [])
      end
  | Some JNull => (None, [ImportFailed])   (* [null.prompts] throws *)
  | Some (JBool _) | Some (JNumber _) | Some (JString _) => (None, [])
  end.

End Parse.

End Importing.

(** The JSON values whose conversion to a primitive throws: an object with
    an own property [toString], and an array that holds such a value. *)
Inductive unconvertible : Server.json → Prop :=
  | unconvertible_object fields :
      str "toString" ∈ fields.*1 → unconvertible (Server.JObject fields)
  | unconvertible_array items item :
      item ∈ items → unconvertible item → unconvertible (Server.JArray items).

(** The JSON value that [JSON.parse(JSON.stringify(x))] gives for a typed
    value [x], with the properties in the order of the interfaces. *)
Module Encode.
Import Server.

Definition version (v : PromptVersion.t) : json :=
  JObject [(str "id", JString (PromptVersion.id v));
           (str "content", JString (PromptVersion.content v));
           (str "title", JString (PromptVersion.title v));
           (str "savedAt", JNumber (PromptVersion.savedAt v))].

Definition prompt (p : Prompt.t) : json :=
  JObject [(str "id", JString (Prompt.id p));
           (str "title", JString (Prompt.title p));
           (str "content", JString (Prompt.content p));
           (str "tags", JArray (JString <$> Prompt.tags p));
           (str "isFavorite", JBool (Prompt.isFavorite p));
           (str "isPinned", JBool (Prompt.isPinned p));
           (str "folderId", from_option JString JNull (Prompt.folderId p));
           (str "createdAt", JNumber (Prompt.createdAt p));
           (str "updatedAt", JNumber (Prompt.updatedAt p));
           (str "versions", JArray (version <$> Prompt.versions p))].

Definition folder (f : Folder.t) : json :=
  JObject [(str "id", JString (Folder.id f));
           (str "name", JString (Folder.name f));
           (str "icon", JString (Folder.icon f));
           (str "color", JString (Folder.color f));
           (str "createdAt", JNumber (Folder.createdAt f))].

Definition exportData (data : Store.ExportData) : json :=
  JObject [(str "version", JNumber (Store.version data));
           (str "exportedAt", JNumber (Store.exportedAt data));
           (str "prompts", JArray (prompt <$> Store.prompts data));
           (str "folders", JArray (folder <$> Store.folders data))].

End Encode.

(** ** The server routes [POST /folders] and [POST /import], and the
    requests of the clients (server/src/api.ts) *)

Module ServerRoutes.
Import Server.

Record Folder := {
  id : json;
  name : json;
  icon : json;
  color : json;
  createdAt : json
}.

(** The folder icon of the route, U+1F4C1, in UTF-16. *)
Definition FOLDER_ICON : jsstring := [55357; 56513]%N.

(** The object literal of [POST /folders]; [now] is [Date.now()]. *)
Definition newFolder (now : Z) (body : gmap jsstring json) : Folder :=
  {| id := orElse (body !! str "id") (JString (numberToString now));
     name := orElse (body !! str "name") (JString (str "New Folder"));
     icon := orElse (body !! str "icon") (JString FOLDER_ICON);
     color := orElse (body !! str "color") (JString (str "#3B82F6"));
     createdAt := orElse (body !! str "createdAt") (JNumber now) |}.

(** [value.length]; [None] is [undefined]. *)
Definition lengthOf (value : json) : option json :=
  match value with
  | JArray items => Some (JNumber (Z.of_nat (length items)))
  | JString s => Some (JNumber (Z.of_nat (length s)))
  | JObject fields => Importing.getProp (str "length") fields
  | JNull | JBool _ | JNumber _ => None
  end.

(** The answers of [POST /import]: the counts of what was imported (a count
    that is [undefined] is left out of the JSON text), or an error. *)
Inductive ImportPayload :=
  | ImportedJson (prompts : Z) (folders : option json)
  | ImportErrorJson (error : jsstring).

Record ImportResponse := { status : Z; payload : ImportPayload }.

Section Routes.
(** [db.importData] is a parameter: it returns, or throws ([false]). *)
Variable Db : Type.
Variable importData : list json → json → Db → bool * Db.

Definition postImport (body : gmap jsstring json) (db : Db)
    : ImportResponse * Db :=
  match body !! str "prompts" with
  | Some (JArray prompts) =>
      let folders := orElse (body !! str "folders") (JArray []) in
      match importData prompts folders db with
      | (true, db') =>
          ({| status := 200;
              payload := ImportedJson (Z.of_nat (length prompts)) (lengthOf folders) |},
           db')
      | (false, db') =>
          ({| status := 500;
              payload := ImportErrorJson (str "Failed to import data") |}, db')
      end
  | _ =>
      ({| status := 400;
          payload := ImportErrorJson (str "Invalid data: prompts must be an array") |},
       db)
  end.

End Routes.

End ServerRoutes.

(** The request bodies that the clients send, as [express.json()] hands
    them to the routes. *)
Module Request.
Import Server.

(** [createPromptApi(prompt)]: the body is the prompt. *)
Definition createPrompt (p : Prompt.t) : gmap jsstring json :=
  list_to_map (Importing.ownProperties (Encode.prompt p)).

(** [createFolderApi(folder)] *)
Definition createFolder (f : Folder.t) : gmap jsstring json :=
  list_to_map (Importing.ownProperties (Encode.folder f)).

(** [importDataApi(prompts, folders)]: the body is [{ prompts, folders }]. *)
Definition importData (prompts : list json) (folders : json) : gmap jsstring json :=
  list_to_map [(str "prompts", JArray prompts); (str "folders", folders)].

End Request.

(** The rows that the routes build, for typed values. *)
Module Row.
Import Server.

Definition prompt (p : Prompt.t) : Server.Prompt :=
  {| Server.id := JString (Prompt.id p);
     Server.title := JString (Prompt.title p);
     Server.content := JString (Prompt.content p);
     Server.tags := JArray (JString <$> Prompt.tags p);
     Server.isFavorite := JBool (Prompt.isFavorite p);
     Server.isPinned := JBool (Prompt.isPinned p);
     Server.folderId := from_option JString JNull (Prompt.folderId p);
     Server.createdAt := JNumber (Prompt.createdAt p);
     Server.updatedAt := JNumber (Prompt.updatedAt p);
     Server.versions := JArray (Encode.version <$> Prompt.versions p) |}.

Definition folder (f : Folder.t) : ServerRoutes.Folder :=
  {| ServerRoutes.id := JString (Folder.id f);
     ServerRoutes.name := JString (Folder.name f);
     ServerRoutes.icon := JString (Folder.icon f);
     ServerRoutes.color := JString (Folder.color f);
     ServerRoutes.createdAt := JNumber (Folder.createdAt f) |}.

End Row.

(** ** Migration of old local data and import to the API (storage service)

    [localStorage] is a map from keys to texts.  [JSON.parse],
    [JSON.stringify], the answer of the API to [importDataApi] and whether
    [localStorage.setItem] takes a text are parameters.  [requests] records
    the calls of [importDataApi]. *)

Module Migration.
Import Server.

Definition OLD_PROMPTS_KEY : jsstring := str "promptvault-prompts".
Definition OLD_FOLDERS_KEY : jsstring := str "promptvault-folders".
Definition PROMPTS_BACKUP_KEY : jsstring := str "promptvault-migrated-prompts-backup".
Definition FOLDERS_BACKUP_KEY : jsstring := str "promptvault-migrated-folders-backup".
Definition PROMPTS_CACHE_KEY : jsstring := str "promptvault-prompts-cache".
Definition FOLDERS_CACHE_KEY : jsstring := str "promptvault-folders-cache".

Inductive LogEntry :=
  | MigrationFailed
  | Migrated                          (* console.log *)
  | ImportLog (entry : Importing.LogEntry)
  | FailedToImportToApi
  | FailedToWritePromptsCache
  | FailedToWriteFoldersCache.

Record World := {
  localStorage : gmap jsstring jsstring;
  requests : list (json * json);
  console : list LogEntry
}.

Definition log (entry : LogEntry) (w : World) : World :=
  {| localStorage := localStorage w; requests := requests w;
     console := console w ++ [entry] |}.

Definition request (prompts folders : json) (w : World) : World :=
  {| localStorage := localStorage w;
     requests := requests w ++ [(prompts, folders)];
     console := console w |}.

Definition removeItem (key : jsstring) (w : World) : World :=
  {| localStorage := delete key (localStorage w); requests := requests w;
     console := console w |}.

(** A raw text is truthy when it is there and is not empty. *)
Definition present (raw : option jsstring) : bool :=
  match raw with Some (_ :: _) => true | _ => false end.

(** [raw || '[]'] *)
Definition rawOr (raw : option jsstring) : jsstring :=
  match raw with Some (c :: s) => c :: s | _ => str "[]" end.

(** [value.length]; the outer [None] is a [TypeError] (on [null]). *)
Definition lengthOf (value : json) : option (option json) :=
  match value with
  | JNull => None
  | _ => Some (ServerRoutes.lengthOf value)
  end.

(** [value[0]]; [None] is [undefined]. *)
Definition first (value : json) : option json :=
  match value with
  | JArray items => head items
  | JString s => (λ c, JString [c]) <$> head s
  | JObject fields => Importing.getProp (str "0") fields
  | JNull | JBool _ | JNumber _ => None
  end.

(** [value.isPinned === undefined]; [None] is a [TypeError] (on [undefined]
    and [null]). *)
Definition isPinnedUndefined (value : option json) : option bool :=
  match value with
  | None | Some JNull => None
  | Some (JObject fields) =>
      Some (match Importing.getProp (str "isPinned") fields with
            | None => true | Some _ => false end)
  | Some _ => Some true
  end.

Section Service.
Variable parse : jsstring → option json.     (* [None]: [JSON.parse] throws *)
Variable stringify : json → jsstring.
Variable stringToNumber : jsstring → option Z.
Variable importDataApi : json → json → bool. (* whether the promise resolves *)
Variable accepts : gmap jsstring jsstring → jsstring → jsstring → bool.

(** [value > 0]; [None] is a [TypeError]. *)
Definition greaterThan0 (value : option json) : option bool :=
  match value with
  | None => Some false
  | Some v =>
      m ← Importing.toNumber stringToNumber v;
      Some (match m with Some m => (0 <? m)%Z | None => false end)
  end.

(** [`${value.length}`]; [None] is a [TypeError]. *)
Definition lengthText (value : json) : option jsstring :=
  len ← lengthOf value;
  match len with
  | None => Some (str "undefined")
  | Some v => Importing.toText v
  end.

(** [localStorage.setItem]; [None] when it throws. *)
Definition setItem (key value : jsstring) (w : World) : option World :=
  if accepts (localStorage w) key value then
    Some {| localStorage := <[key := value]> (localStorage w);
            requests := requests w; console := console w |}
  else None.

(** The prompts to migrate; [None] when a step throws.  [migrateToV2] calls
    [map], which only an array has. *)
Definition readPrompts (rawPrompts : option jsstring) : option json :=
  if present rawPrompts then
    parsed ← parse (default [] rawPrompts);
    len ← lengthOf parsed;
    (* Check if it's legacy format (no isPinned field) *)
    positive ← greaterThan0 len;
    legacy ← (if (positive : bool) then isPinnedUndefined (first parsed)
              else Some false);
    if (legacy : bool) then
      match parsed with
      | JArray items => Some (JArray (Importing.migrateToV2 items))
      | _ => None
      end
    else Some parsed
  else Some (JArray []).

Definition readFolders (rawFolders : option jsstring) : option json :=
  if present rawFolders then parse (default [] rawFolders) else Some (JArray []).

(** [prompts.length > 0 || folders.length > 0] *)
Definition nonEmpty (prompts folders : json) : option bool :=
  lp ← lengthOf prompts;
  positive ← greaterThan0 lp;
  if (positive : bool) then Some true
  else lf ← lengthOf folders; greaterThan0 lf.

Definition migrateLocalStorageToApi (w : World) : bool * World :=
  let rawPrompts := localStorage w !! OLD_PROMPTS_KEY in
  let rawFolders := localStorage w !! OLD_FOLDERS_KEY in
  if negb (present rawPrompts) && negb (present rawFolders) then
    (false, w)                       (* Nothing to migrate *)
  else
    let failed (w' : World) := (false, log MigrationFailed w') in
    match readPrompts rawPrompts with
    | None => failed w
    | Some prompts =>
        match readFolders rawFolders with
        | None => failed w
        | Some folders =>
            match nonEmpty prompts folders with
            | None => failed w
            | Some false => (false, w)
            | Some true =>
                (* Import to API *)
                let w1 := request prompts folders w in
                if importDataApi prompts folders then
                  match setItem PROMPTS_BACKUP_KEY (rawOr rawPrompts) w1 with
                  | None => failed w1
                  | Some w2 =>
                      match setItem FOLDERS_BACKUP_KEY (rawOr rawFolders) w2 with
                      | None => failed w2
                      | Some w3 =>
                          let w4 := removeItem OLD_FOLDERS_KEY
                                      (removeItem OLD_PROMPTS_KEY w3) in
                          (* the texts of the message *)
                          match lengthText prompts, lengthText folders with
                          | Some _, Some _ => (true, log Migrated w4)
                          | _, _ => failed w4
                          end
                      end
                  end
                else failed w1
            end
        end
    end.

(** [setCachedPrompts] and [setCachedFolders] on a JSON value. *)
Definition setCached (key : jsstring) (failure : LogEntry) (value : json)
    (w : World) : World :=
  match setItem key (stringify value) w with
  | Some w' => w'
  | None => log failure w
  end.

(** [importDataToApi]; [data] is [JSON.parse(jsonString)], as for
    [importData]. *)
Definition importDataToApi (data : option json) (w : World) : bool * World :=
  match Importing.importData stringToNumber data with
  | (None, entries) =>
      (false,
       {| localStorage := localStorage w; requests := requests w;
          console := console w ++ (ImportLog <$> entries) |})
  | (Some parsed, _) =>
      let prompts := JArray (Importing.prompts parsed) in
      let folders := Importing.folders parsed in
      let w1 := request prompts folders w in
      if importDataApi prompts folders then
        (true,
         setCached FOLDERS_CACHE_KEY FailedToWriteFoldersCache folders
           (setCached PROMPTS_CACHE_KEY FailedToWritePromptsCache prompts w1))
      else (false, log FailedToImportToApi w1)
  end.

End Service.

End Migration.

(** ** The base URL of the API and connection monitoring (web API service) *)

Module ApiConfig.

(** [s.replace(pattern, replacement)] with a string pattern: the first
    occurrence is replaced (the replacement text has no [$]). *)
Fixpoint replace (s pattern replacement : jsstring) : jsstring :=
  if Listing.startsWith s pattern then replacement ++ drop (length pattern) s
  else match s with
       | [] => []
       | c :: s' => c :: replace s' pattern replacement
       end.

(** What the function reads of [window]: the configured URL ([None] when
    the property is not set) and the origin of the page. *)
Record Window := {
  PROMPTVAULT_API_URL : option jsstring;
  origin : jsstring
}.

(** [getApiBaseUrl]; [window] is [None] where there is no [window]. *)
Definition getApiBaseUrl (window : option Window) : jsstring :=
  match window with
  | Some w =>
      match PROMPTVAULT_API_URL w with
      | Some (c :: url) => c :: url          (* Check for runtime configuration *)
      | _ =>
          (* Replace web UI port with API port *)
          replace (origin w) (str ":2528") (str ":2529")
      end
  | None => str "http://localhost:2529"
  end.

(** The interval timers of the page: [setInterval] returns a fresh handle,
    a positive number, and [clearInterval] stops the timer of a handle. *)
Record Timers := {
  live : list (positive * Z);        (* handle and period of each running timer *)
  next : positive
}.

Record Monitoring := {
  connectionCheckInterval : option positive;
  timers : Timers;
  checksStarted : nat               (* calls of [checkConnection] *)
}.

Definition setInterval (intervalMs : Z) (t : Timers) : positive * Timers :=
  (next t, {| live := live t ++ [(next t, intervalMs)]; next := Pos.succ (next t) |}).

Definition clearInterval (handle : positive) (t : Timers) : Timers :=
  {| live := filter (λ timer, timer.1 ≠ handle) (live t); next := next t |}.

(** [startConnectionMonitoring(intervalMs)] *)
Definition startConnectionMonitoring (intervalMs : Z) (m : Monitoring) : Monitoring :=
  match connectionCheckInterval m with
  | Some _ => m
  | None =>
      let (handle, t) := setInterval intervalMs (timers m) in
      {| connectionCheckInterval := Some handle; timers := t;
         checksStarted := S (checksStarted m) (* Initial check *) |}
  end.

(** [stopConnectionMonitoring] *)
Definition stopConnectionMonitoring (m : Monitoring) : Monitoring :=
  match connectionCheckInterval m with
  | Some handle =>
      {| connectionCheckInterval := None;
         timers := clearInterval handle (timers m);
         checksStarted := checksStarted m |}
  | None => m
  end.

(** The calls a page can make. *)
Inductive Call := Start (intervalMs : Z) | Stop.

Definition call (m : Monitoring) (c : Call) : Monitoring :=
  match c with
  | Start intervalMs => startConnectionMonitoring intervalMs m
  | Stop => stopConnectionMonitoring m
  end.

(** The module when loaded: no monitoring, and the timers the page has. *)
Definition loaded (t : Timers) : Monitoring :=
  {| connectionCheckInterval := None; timers := t; checksStarted := 0 |}.

End ApiConfig.

(** What the sequence of calls keeps: the timers of the page are those at
    load, followed by the one of the monitoring when it is on. *)
Definition monitoring_inv (t : ApiConfig.Timers) (m : ApiConfig.Monitoring) : Prop :=
  Forall (λ timer, (timer.1 < ApiConfig.next (ApiConfig.timers m))%positive) (ApiConfig.live (ApiConfig.timers m))
  ∧ match ApiConfig.connectionCheckInterval m with
    | Some handle =>
        ∃ intervalMs,
          ApiConfig.live (ApiConfig.timers m) = ApiConfig.live t ++ [(handle, intervalMs)]
          ∧ Forall (λ timer, timer.1 ≠ handle) (ApiConfig.live t)
    | None => ApiConfig.live (ApiConfig.timers m) = ApiConfig.live t
    end.

(** * Properties *)

(** ** Examples from the specification *)

Example extract_ex1 :
  extractVariables (str "{{a}} and {{a:default}}") = [Variable_ (str "a") None].
Proof. vm_compute. reflexivity. Qed.

Example extract_ex2 :
  extractVariables (str "Hi {{ name : Bob }}, {{x:}} {{name:Al}}{{y") =
  [Variable_ (str "name") (Some (str "Bob")); Variable_ (str "x") (Some [])].
Proof. vm_compute. reflexivity. Qed.

Example replace_ex1 :
  replaceVariables v8FunctionText (str "Hi {{name:Bob}}") {[ str "name" := str "Alice" ]}
    = str "Hi Alice".
Proof. vm_compute. reflexivity. Qed.

Example replace_ex2 :
  replaceVariables v8FunctionText (str "Hi {{name:Bob}}") ∅ = str "Hi {{name}}".
Proof. vm_compute. reflexivity. Qed.

Example extract_ex3 : extractVariables (str "No placeholders here") = [].
Proof. vm_compute. reflexivity. Qed.

(** ** Facts about the pattern *)

Section PatternFacts.

Lemma span_app p s run rest :
  span p s = (run, rest) → s = run ++ rest.
Proof.
  revert run rest. induction s as [|c s IH]; intros run rest; simpl.
  - intros [= <- <-]. reflexivity.
  - destruct (p c).
    + destruct (span p s) as [run' rest'] eqn:E.
      intros [= <- <-]. simpl. f_equal. apply IH. reflexivity.
    + intros [= <- <-]. reflexivity.
Qed.

Lemma lit_Some c s s' : lit c s = Some s' ↔ s = c :: s'.
Proof.
  destruct s as [|x s]; simpl; [split; discriminate|].
  destruct (N.eqb_spec x c) as [->|Hne]; split; intros [=]; subst; auto.
  congruence.
Qed.

Lemma lit2_Some c s s' : lit c s ≫= lit c = Some s' ↔ s = c :: c :: s'.
Proof.
  split.
  - intros H. apply bind_Some in H as (s1 & H1 & H2).
    apply lit_Some in H1 as ->. apply lit_Some in H2 as ->. reflexivity.
  - intros ->. simpl. rewrite !N.eqb_refl. simpl. rewrite N.eqb_refl. reflexivity.
Qed.

Lemma matchHere_text s m rest :
  matchHere s = Some (m, rest) → s = matchText m ++ rest.
Proof.
  unfold matchHere, matchText. intros H.
  apply bind_Some in H as (r & Hr & H). apply lit2_Some in Hr as ->.
  destruct (span nameChar r) as [nm r1] eqn:E1.
  apply span_app in E1 as ->. destruct nm as [|n0 nm]; [discriminate|].
  destruct (lit COLON r1) as [r1'|] eqn:Ec.
  - apply lit_Some in Ec as ->.
    destruct (span defaultChar r1') as [dflt r2] eqn:E2.
    apply span_app in E2 as ->.
    apply bind_Some in H as (r3 & Hr3 & [= <- <-]).
    apply lit2_Some in Hr3 as ->. simpl.
    rewrite <- !app_assoc. simpl. rewrite <- !app_assoc. reflexivity.
  - apply bind_Some in H as (r3 & Hr3 & [= <- <-]).
    apply lit2_Some in Hr3 as ->. simpl.
    rewrite <- !app_assoc. reflexivity.
Qed.

Lemma matchText_length m : 4 ≤ length (matchText m).
Proof. unfold matchText. rewrite !length_app. simpl. lia. Qed.

(** When the continuation fails on every text that starts inside the class,
    only the greedy run can succeed. *)
Lemma star_span {R} p s caps (k : jsstring → gmap nat jsstring → option R) :
  (∀ c s' caps', p c = true → k (c :: s') caps' = None) →
  star p s caps k = k (span p s).2 caps.
Proof.
  intros Hk. induction s as [|c s IH]; [reflexivity|].
  cbn [star span]. destruct (p c) eqn:Hc; [|reflexivity].
  rewrite IH, (Hk c s caps Hc).
  destruct (span p s) as [taken rest]. cbn [snd].
  destruct (k rest caps); reflexivity.
Qed.

Lemma span_taken p s :
  take (length s - length (span p s).2) s = (span p s).1.
Proof.
  pose proof (span_app p s (span p s).1 (span p s).2) as H.
  destruct (span p s) as [taken rest]. cbn [fst snd] in *.
  specialize (H eq_refl). rewrite H at 2. rewrite H at 1.
  rewrite length_app.
  replace (length taken + length rest - length rest) with (length taken) by lia.
  apply take_app_length.
Qed.

Lemma matchHere_backtrack s : matchRe s = matchHere s.
Proof.
  unfold matchRe, matchHere, placeholder, mbind, option_bind.
  destruct s as [|c0 s]; [reflexivity|]. cbn [run lit].
  destruct (c0 =? LBRACE)%N; [|reflexivity].
  destruct s as [|c1 r]; [reflexivity|]. cbn [run lit].
  destruct (c1 =? LBRACE)%N; [|reflexivity].
  cbn [run]. destruct r as [|x r]; [reflexivity|].
  cbn [span]. destruct (nameChar x) eqn:Hx; [|reflexivity].
  rewrite star_span.
  2:{ intros c s' caps' Hc. unfold nameChar in Hc.
      apply andb_true_iff in Hc as [H1 H2].
      apply negb_true_iff in H1, H2.
      cbn [run]. rewrite H2, H1. reflexivity. }
  pose proof (span_taken nameChar r) as Htaken.
  destruct (span nameChar r) as [taken r1] eqn:Hspan. cbn [fst snd] in *.
  assert (take (length (x :: r) - length r1) (x :: r) = x :: taken) as ->.
  { pose proof (span_app _ _ _ _ Hspan) as Hr.
    assert (length r1 ≤ length r) by (rewrite Hr, length_app; lia).
    cbn [length]. replace (S (length r) - length r1)
      with (S (length r - length r1)) by lia.
    cbn [take]. rewrite Htaken. reflexivity. }
  cbn [run]. destruct r1 as [|y r1'].
  { reflexivity. }
  cbn [lit]. destruct (y =? COLON)%N eqn:Hy.
  - rewrite star_span.
    2:{ intros c s' caps' Hc. unfold defaultChar in Hc.
        apply negb_true_iff in Hc. rewrite Hc. reflexivity. }
    rewrite span_taken.
    destruct (span defaultChar r1') as [dflt r2]. cbn [fst snd].
    apply N.eqb_eq in Hy as ->.
    destruct r2 as [|z r2]; [reflexivity|]. cbn [lit].
    destruct (z =? RBRACE)%N; [|reflexivity].
    destruct r2 as [|z' r2]; [reflexivity|]. cbn [lit].
    destruct (z' =? RBRACE)%N; [|reflexivity].
    rewrite lookup_insert_eq.
    rewrite lookup_insert_ne by lia. rewrite lookup_insert_eq. reflexivity.
  - destruct (y =? RBRACE)%N; [|reflexivity].
    destruct r1' as [|z r2]; [reflexivity|]. cbn [lit].
    destruct (z =? RBRACE)%N; [|reflexivity].
    rewrite lookup_insert_eq.
    rewrite lookup_insert_ne by lia. rewrite lookup_empty. reflexivity.
Qed.

Lemma exec_text s skipped m rest :
  exec s = Some (skipped, m, rest) → s = skipped ++ matchText m ++ rest.
Proof.
  revert skipped. induction s as [|c s IH]; intros skipped; [discriminate|].
  cbn [exec]. rewrite matchHere_backtrack.
  destruct (matchHere (c :: s)) as [[m' rest']|] eqn:E.
  - intros [= <- <- <-]. apply matchHere_text in E. exact E.
  - destruct (exec s) as [[[sk m'] rest']|]; [|discriminate].
    intros [= <- <- <-]. simpl. f_equal. apply IH. reflexivity.
Qed.

Lemma exec_shorter s skipped m rest :
  exec s = Some (skipped, m, rest) → length rest < length s.
Proof.
  intros H. apply exec_text in H as ->.
  rewrite !length_app. pose proof (matchText_length m). lia.
Qed.

End PatternFacts.

(** ** Character classes and trimming *)

Section ClassFacts.

Lemma span_Forall p s : Forall (λ c, p c = true) (span p s).1.
Proof.
  induction s as [|c s IH]; [constructor|].
  cbn [span]. destruct (p c) eqn:Hc; [|constructor].
  destruct (span p s) as [taken rest]. constructor; assumption.
Qed.

Lemma matchHere_classes s m rest :
  matchHere s = Some (m, rest) →
  group1 m ≠ []
  ∧ Forall (λ c, nameChar c = true) (group1 m)
  ∧ ∀ d, group2 m = Some d → Forall (λ c, defaultChar c = true) d.
Proof.
  unfold matchHere. intros H.
  apply bind_Some in H as (r & _ & H).
  pose proof (span_Forall nameChar r) as Hname.
  destruct (span nameChar r) as [nm r1]. destruct nm as [|n0 nm]; [discriminate|].
  destruct (lit COLON r1) as [r1'|].
  - pose proof (span_Forall defaultChar r1') as Hdflt.
    destruct (span defaultChar r1') as [dflt r2].
    apply bind_Some in H as (r3 & _ & [= <- <-]). cbn.
    split; [discriminate|]. split; [exact Hname|]. intros d [= <-]. exact Hdflt.
  - apply bind_Some in H as (r3 & _ & [= <- <-]). cbn.
    split; [discriminate|]. split; [exact Hname|]. discriminate.
Qed.

Lemma exec_classes s skipped m rest :
  exec s = Some (skipped, m, rest) →
  group1 m ≠ []
  ∧ Forall (λ c, nameChar c = true) (group1 m)
  ∧ ∀ d, group2 m = Some d → Forall (λ c, defaultChar c = true) d.
Proof.
  revert skipped. induction s as [|c s IH]; intros skipped; [discriminate|].
  cbn [exec]. rewrite matchHere_backtrack.
  destruct (matchHere (c :: s)) as [[m' rest']|] eqn:E.
  - intros [= <- <- <-]. eapply matchHere_classes. exact E.
  - destruct (exec s) as [[[sk m'] rest']|]; [|discriminate].
    intros [= <- <- <-]. eapply IH. reflexivity.
Qed.

(** What holds of every match of [exec] holds of every placeholder. *)
Lemma segments_Forall (P : rmatch → Prop) fuel s :
  (∀ s skipped m rest, exec s = Some (skipped, m, rest) → P m) →
  Forall (λ sm, P sm.2) (segments fuel s).1.
Proof.
  intros HP. revert s. induction fuel as [|fuel IH]; intros s.
  - cbn [segments]. destruct (exec s) as [[[sk m] rest]|]; constructor.
  - cbn [segments]. destruct (exec s) as [[[sk m] rest]|] eqn:E; [|constructor].
    specialize (IH rest). destruct (segments fuel rest) as [segs tail].
    constructor; [eapply HP; exact E|exact IH].
Qed.

Lemma trimStart_suffix s : ∃ ws, s = ws ++ trimStart s.
Proof.
  induction s as [|c s [ws IH]]; [exists []; reflexivity|].
  cbn [trimStart]. destruct (isWhiteSpace c).
  - exists (c :: ws). cbn. f_equal. exact IH.
  - exists []. reflexivity.
Qed.

Lemma trimStart_split s :
  ∃ ws, s = ws ++ trimStart s ∧ Forall (λ c, isWhiteSpace c = true) ws.
Proof.
  induction s as [|c s (ws & IH & Hws)]; [exists []; split; [reflexivity|constructor]|].
  cbn [trimStart]. destruct (isWhiteSpace c) eqn:Hc.
  - exists (c :: ws). split; [cbn; f_equal; exact IH|constructor; assumption].
  - exists []. split; [reflexivity|constructor].
Qed.

Lemma trimEnd_split s :
  ∃ ws, s = trimEnd s ++ ws ∧ Forall (λ c, isWhiteSpace c = true) ws.
Proof.
  unfold trimEnd. destruct (trimStart_split (reverse s)) as (ws & Hs & Hws).
  exists (reverse ws). split.
  - rewrite <- reverse_app, <- Hs, reverse_involutive. reflexivity.
  - rewrite Forall_reverse. exact Hws.
Qed.

Lemma trimStart_head s c : head (trimStart s) = Some c → isWhiteSpace c = false.
Proof.
  induction s as [|x s IH]; [discriminate|].
  cbn [trimStart]. destruct (isWhiteSpace x) eqn:Hx; [exact IH|].
  intros [= <-]. exact Hx.
Qed.

Lemma trimEnd_prefix s : ∃ ws, s = trimEnd s ++ ws.
Proof.
  unfold trimEnd. destruct (trimStart_suffix (reverse s)) as [ws Hws].
  exists (reverse ws). rewrite <- reverse_app, <- Hws, reverse_involutive.
  reflexivity.
Qed.

Lemma trim_trimmed s : trimmed (trim s).
Proof.
  unfold trimmed, trim. split.
  - intros c Hc. destruct (trimEnd_prefix (trimStart s)) as [ws Hws].
    apply (trimStart_head s). rewrite Hws.
    destruct (trimEnd (trimStart s)); [discriminate|]. exact Hc.
  - intros c. unfold trimEnd. rewrite last_reverse. apply trimStart_head.
Qed.

Lemma trim_trimOf s : trimOf s (trim s).
Proof.
  split; [apply trim_trimmed|]. unfold trim.
  destruct (trimStart_split s) as (ws1 & H1 & Hws1).
  destruct (trimEnd_split (trimStart s)) as (ws2 & H2 & Hws2).
  exists ws1, ws2. split; [|split; assumption].
  rewrite <- H2. exact H1.
Qed.

Lemma trim_Forall (P : N → Prop) s : Forall P s → Forall P (trim s).
Proof.
  intros H. unfold trim.
  destruct (trimStart_suffix s) as [ws1 H1].
  destruct (trimEnd_prefix (trimStart s)) as [ws2 H2].
  rewrite H1, H2 in H. rewrite !Forall_app in H. tauto.
Qed.

End ClassFacts.

(** ** Scanning a text for placeholders *)

Section Scanning.

Lemma assemble_cons f skipped m segs tail :
  assemble f ((skipped, m) :: segs) tail = skipped ++ f m ++ assemble f segs tail.
Proof.
  unfold assemble. rewrite fmap_cons. cbn [concat fst snd].
  rewrite <- !app_assoc. reflexivity.
Qed.

Lemma segments_fuel f1 f2 s :
  length s ≤ f1 → length s ≤ f2 → segments f1 s = segments f2 s.
Proof.
  revert f2 s. induction f1 as [|f1 IH]; intros f2 s H1 H2.
  - destruct s; [|simpl in H1; lia]. destruct f2; reflexivity.
  - destruct f2 as [|f2].
    + destruct s; [reflexivity|simpl in H2; lia].
    + simpl. destruct (exec s) as [[[sk m] rest]|] eqn:E; [|reflexivity].
      apply exec_shorter in E. rewrite (IH f2 rest) by lia. reflexivity.
Qed.

(** The segments are a decomposition of the text, and nothing matches in
    what is left after the last one. *)
Lemma segments_text fuel s :
  length s ≤ fuel →
  s = assemble matchText (segments fuel s).1 (segments fuel s).2
  ∧ exec (segments fuel s).2 = None.
Proof.
  revert s. induction fuel as [|fuel IH]; intros s Hlen.
  - destruct s; [|simpl in Hlen; lia]. split; reflexivity.
  - simpl. destruct (exec s) as [[[sk m] rest]|] eqn:E; [|split; [reflexivity|exact E]].
    pose proof (exec_shorter _ _ _ _ E) as Hlt.
    destruct (IH rest ltac:(lia)) as [Hrest Htail].
    destruct (segments fuel rest) as [segs tail]. simpl in *.
    split; [|exact Htail].
    apply exec_text in E. rewrite E at 1. rewrite Hrest at 1.
    rewrite assemble_cons. reflexivity.
Qed.

Lemma extractLoop_segments fuel s variables seen :
  length s ≤ fuel →
  extractLoop fuel s variables seen =
    variables ++ firsts seen ((λ sm, occurrence sm.2) <$> (segments fuel s).1).
Proof.
  revert s variables seen. induction fuel as [|fuel IH]; intros s vs seen Hlen.
  - destruct s; [|simpl in Hlen; lia]. simpl. rewrite app_nil_r. reflexivity.
  - simpl. destruct (exec s) as [[[sk m] rest]|] eqn:E;
      [|simpl; rewrite app_nil_r; reflexivity].
    pose proof (exec_shorter _ _ _ _ E) as Hlt.
    specialize (IH rest). destruct (segments fuel rest) as [segs tail]. simpl in *.
    destruct (decide (trim (group1 m) ∈ seen)).
    + apply IH. lia.
    + rewrite IH by lia. rewrite <- app_assoc. reflexivity.
Qed.

(** The loop of [extractVariables] ends because the text is used up, not
    because the fuel is: more fuel changes nothing. *)
Lemma extractLoop_fuel fuel s variables seen :
  length s ≤ fuel →
  extractLoop fuel s variables seen = extractLoop (length s) s variables seen.
Proof.
  intros H. rewrite !extractLoop_segments by lia.
  rewrite (segments_fuel fuel (length s)) by lia. reflexivity.
Qed.

Lemma replaceLoop_segments (functionText : jsstring → jsstring) fuel s values :
  length s ≤ fuel →
  replaceLoop functionText fuel s values =
    assemble (replacer functionText values) (segments fuel s).1 (segments fuel s).2.
Proof.
  revert s. induction fuel as [|fuel IH]; intros s Hlen.
  - destruct s; [|simpl in Hlen; lia]. reflexivity.
  - simpl. destruct (exec s) as [[[sk m] rest]|] eqn:E; [|reflexivity].
    pose proof (exec_shorter _ _ _ _ E) as Hlt.
    rewrite IH by lia. destruct (segments fuel rest) as [segs tail].
    cbn [fst snd]. rewrite assemble_cons. reflexivity.
Qed.

Lemma replaceLoop_fuel (functionText : jsstring → jsstring) fuel s values :
  length s ≤ fuel →
  replaceLoop functionText fuel s values =
    replaceLoop functionText (length s) s values.
Proof.
  intros H. rewrite !replaceLoop_segments by lia.
  rewrite (segments_fuel fuel (length s)) by lia. reflexivity.
Qed.

Lemma extractVariables_firsts content :
  extractVariables content = firsts ∅ (occurrences content).
Proof.
  unfold extractVariables. rewrite extractLoop_segments by lia. reflexivity.
Qed.

End Scanning.

(** ** Variable extraction *)

Section Firsts.

Lemma StronglySorted_lt_S ks :
  StronglySorted lt ks → StronglySorted lt (S <$> ks).
Proof.
  induction 1 as [|k ks Hs IH Hall]; simpl; constructor; [exact IH|].
  apply Forall_fmap. eapply Forall_impl; [exact Hall|]. simpl. lia.
Qed.

Lemma firstAt_S (seen : gset jsstring) v l k w :
  name v ∈ seen ∨ name w ≠ name v →
  firstAt l k w ∧ (name v ∈ seen → name w ∉ seen) →
  firstAt (v :: l) (S k) w.
Proof.
  intros Hv [[Hk Hfirst] Hw]. split; [exact Hk|].
  intros [|j] u Hj Hu.
  - simpl in Hu. injection Hu as <-.
    destruct Hv as [Hin|Hne]; [|congruence].
    intros Heq. apply (Hw Hin). rewrite <- Heq. exact Hin.
  - apply (Hfirst j); [lia|exact Hu].
Qed.

Lemma firsts_spec (seen : gset jsstring) l :
  NoDup (name <$> firsts seen l)
  ∧ (∀ n, n ∈ name <$> firsts seen l ↔ n ∈ name <$> l ∧ n ∉ seen)
  ∧ ∃ ks, StronglySorted lt ks
      ∧ Forall2 (λ k v, firstAt l k v ∧ name v ∉ seen) ks (firsts seen l).
Proof.
  revert seen. induction l as [|v l IH]; intros seen.
  - simpl. split; [constructor|]. split; [set_solver|].
    exists []. split; constructor.
  - cbn [firsts]. destruct (decide (name v ∈ seen)) as [Hin|Hnin].
    + destruct (IH seen) as (Hnd & Hmem & ks & Hsort & Hall).
      split; [exact Hnd|]. split.
      * intros n. rewrite Hmem, fmap_cons, elem_of_cons. set_solver.
      * exists (S <$> ks). split; [apply StronglySorted_lt_S; exact Hsort|].
        apply Forall2_fmap_l. eapply Forall2_impl; [exact Hall|].
        intros k w [Hf Hw]. split; [|exact Hw].
        apply (firstAt_S seen); [left; exact Hin|]. split; [exact Hf|auto].
    + destruct (IH ({[name v]} ∪ seen)) as (Hnd & Hmem & ks & Hsort & Hall).
      split; [|split].
      * rewrite fmap_cons. constructor; [|exact Hnd].
        rewrite Hmem. set_solver.
      * intros n. rewrite !fmap_cons, !elem_of_cons, Hmem.
        destruct (decide (n = name v)) as [->|Hne]; set_solver.
      * exists (0 :: (S <$> ks)). split.
        -- constructor; [apply StronglySorted_lt_S; exact Hsort|].
           apply Forall_fmap, Forall_forall. intros; simpl; lia.
        -- constructor.
           ++ split; [|exact Hnin]. split; [reflexivity|]. intros; lia.
           ++ apply Forall2_fmap_l. eapply Forall2_impl; [exact Hall|].
              intros k w [Hf Hw]. split; [|set_solver].
              apply (firstAt_S seen); [right; set_solver|].
              split; [exact Hf|]. intros; contradiction.
Qed.

End Firsts.

Lemma placeholders_text (content : jsstring) :
  content = assemble matchText (placeholders content) (trailing content)
  ∧ exec (trailing content) = None.
Proof. apply segments_text. lia. Qed.

(** ** The placeholders of a text, read off the text *)

Section Declarative.

Lemma nameChar_spec c : nameChar c = true ↔ c ≠ RBRACE ∧ c ≠ COLON.
Proof.
  unfold nameChar. rewrite andb_true_iff, !negb_true_iff, !N.eqb_neq. tauto.
Qed.

Lemma defaultChar_spec c : defaultChar c = true ↔ c ≠ RBRACE.
Proof. unfold defaultChar. rewrite negb_true_iff, N.eqb_neq. tauto. Qed.

(** The greedy run of a class is the text up to the first character outside
    of it. *)
Lemma span_run p run rest :
  Forall (λ c, p c = true) run →
  (∀ c, head rest = Some c → p c = false) →
  span p (run ++ rest) = (run, rest).
Proof.
  intros Hrun Hrest. induction Hrun as [|c run Hc _ IH]; cbn [app span].
  - destruct rest as [|c rest]; [reflexivity|].
    cbn [span]. rewrite (Hrest c eq_refl). reflexivity.
  - rewrite Hc, IH. reflexivity.
Qed.

(** The pattern matches at the head of a text exactly when a placeholder is
    written there, and then it matches that placeholder. *)
Lemma matchHere_wellFormed s m rest :
  matchHere s = Some (m, rest) ↔ wellFormed m ∧ s = matchText m ++ rest.
Proof.
  split.
  - intros H. split; [|apply matchHere_text; exact H].
    destruct (matchHere_classes _ _ _ H) as (Hne & Hname & Hdflt).
    split; [exact Hne|]. split.
    + eapply Forall_impl; [exact Hname|]. intros c. apply nameChar_spec.
    + intros d Hd. eapply Forall_impl; [exact (Hdflt d Hd)|].
      intros c. apply defaultChar_spec.
  - intros [(Hne & Hname & Hdflt) ->]. destruct m as [nm dflt].
    cbn [group1 group2] in *. unfold matchHere.
    assert (Forall (λ c, nameChar c = true) nm) as Hname'.
    { eapply Forall_impl; [exact Hname|]. intros c. apply nameChar_spec. }
    assert (lit LBRACE (matchText (RMatch nm dflt) ++ rest) ≫= lit LBRACE
            = Some (nm ++ match dflt with
                          | Some d => COLON :: d ++ RBRACE :: RBRACE :: rest
                          | None => RBRACE :: RBRACE :: rest
                          end)) as ->.
    { apply lit2_Some. unfold matchText. cbn [group1 group2].
      destruct dflt; rewrite <- !app_assoc; reflexivity. }
    cbn [mbind option_bind]. destruct dflt as [d|].
    + rewrite (span_run nameChar nm)
        by (try exact Hname'; intros c [= <-]; reflexivity).
      destruct nm as [|n0 nm]; [congruence|].
      rewrite (proj2 (lit_Some COLON _ _) eq_refl).
      assert (Forall (λ c, defaultChar c = true) d) as Hd.
      { eapply Forall_impl; [exact (Hdflt d eq_refl)|]. intros c. apply defaultChar_spec. }
      rewrite (span_run defaultChar d)
        by (try exact Hd; intros c [= <-]; reflexivity).
      rewrite (proj2 (lit2_Some RBRACE _ rest) eq_refl). reflexivity.
    + rewrite (span_run nameChar nm)
        by (try exact Hname'; intros c [= <-]; reflexivity).
      destruct nm as [|n0 nm]; [congruence|].
      replace (lit COLON (RBRACE :: RBRACE :: rest)) with (@None jsstring)
        by reflexivity.
      rewrite (proj2 (lit2_Some RBRACE _ rest) eq_refl). reflexivity.
Qed.

Lemma placeholderAt_matchHere s : placeholderAt s ↔ matchHere s ≠ None.
Proof.
  split.
  - intros (m & rest & Hm & Hs).
    rewrite (proj2 (matchHere_wellFormed s m rest) (conj Hm Hs)). discriminate.
  - destruct (matchHere s) as [[m rest]|] eqn:E; [|congruence]. intros _.
    apply matchHere_wellFormed in E as [Hm Hs]. exists m, rest. auto.
Qed.

(** [exec] finds nothing exactly when no placeholder is written anywhere in
    the text. *)
Lemma exec_None s :
  exec s = None ↔ ∀ pre post, s = pre ++ post → ¬ placeholderAt post.
Proof.
  induction s as [|c s IH].
  - split; [|reflexivity]. intros _ pre post Heq.
    symmetry in Heq. apply app_eq_nil in Heq as [_ ->].
    rewrite placeholderAt_matchHere. intros H. apply H. reflexivity.
  - cbn [exec]. rewrite matchHere_backtrack. split.
    + destruct (matchHere (c :: s)) as [[m rest]|] eqn:E; [discriminate|].
      destruct (exec s) as [[[sk m] rest]|] eqn:Es; [discriminate|]. intros _.
      intros [|x pre] post Heq.
      * cbn in Heq. subst post. rewrite placeholderAt_matchHere, E. congruence.
      * injection Heq as -> Heq. exact (proj1 IH eq_refl pre post Heq).
    + intros Hnone.
      destruct (matchHere (c :: s)) as [[m rest]|] eqn:E.
      * exfalso. apply (Hnone [] (c :: s) eq_refl).
        rewrite placeholderAt_matchHere, E. discriminate.
      * rewrite (proj2 IH); [reflexivity|].
        intros pre post Heq. apply (Hnone (c :: pre) post). rewrite Heq. reflexivity.
Qed.

(** [exec] returns the first placeholder written in the text, with the text
    before it and the text after it. *)
Lemma exec_Some s skipped m rest :
  exec s = Some (skipped, m, rest) ↔
    s = skipped ++ matchText m ++ rest
    ∧ wellFormed m
    ∧ ∀ pre post, skipped = pre ++ post → post ≠ [] →
        ¬ placeholderAt (post ++ matchText m ++ rest).
Proof.
  split.
  - revert skipped. induction s as [|c s IH]; intros skipped; [discriminate|].
    cbn [exec]. rewrite matchHere_backtrack.
    destruct (matchHere (c :: s)) as [[m' rest']|] eqn:E.
    + intros [= <- <- <-]. apply matchHere_wellFormed in E as [Hm Hs].
      split; [exact Hs|]. split; [exact Hm|].
      intros pre post Heq Hpost. symmetry in Heq.
      apply app_eq_nil in Heq as [_ ->]. congruence.
    + destruct (exec s) as [[[sk m'] rest']|] eqn:Es; [|discriminate].
      intros [= <- <- <-]. destruct (IH sk eq_refl) as (Hs & Hm & Hleft).
      split; [cbn; f_equal; exact Hs|]. split; [exact Hm|].
      intros [|x pre] post Heq Hpost.
      * cbn in Heq. subst post. cbn [app]. rewrite <- Hs.
        rewrite placeholderAt_matchHere, E. congruence.
      * injection Heq as -> Heq. exact (Hleft pre post Heq Hpost).
  - intros (-> & Hm & Hleft). induction skipped as [|c skipped IH].
    + cbn [app]. pose proof (proj2 (matchHere_wellFormed _ m rest) (conj Hm eq_refl)) as E.
      destruct (matchText m ++ rest) as [|c s] eqn:Hs; [discriminate E|].
      cbn [exec]. rewrite matchHere_backtrack, E. reflexivity.
    + cbn [app exec]. rewrite matchHere_backtrack.
      destruct (matchHere (c :: skipped ++ matchText m ++ rest)) as [[m' rest']|] eqn:E.
      * exfalso. apply (Hleft [] (c :: skipped) eq_refl); [discriminate|].
        cbn [app]. rewrite placeholderAt_matchHere, E. discriminate.
      * rewrite IH; [reflexivity|].
        intros pre post Heq Hpost. apply (Hleft (c :: pre) post); [|exact Hpost].
        rewrite Heq. reflexivity.
Qed.

(** The iteration of [exec] lists the placeholders of the text as they are
    written in it, and nothing else does. *)
Lemma scanned_segments fuel s :
  length s ≤ fuel → scanned s (segments fuel s).1 (segments fuel s).2.
Proof.
  revert s. induction fuel as [|fuel IH]; intros s Hlen.
  - destruct s; [|simpl in Hlen; lia]. cbn. apply scanned_tail.
    apply exec_None. reflexivity.
  - cbn [segments]. destruct (exec s) as [[[sk m] rest]|] eqn:E.
    + pose proof (exec_shorter _ _ _ _ E) as Hlt.
      specialize (IH rest ltac:(lia)).
      apply exec_Some in E as (-> & Hm & Hleft).
      destruct (segments fuel rest) as [segs tail]. cbn [fst snd] in *.
      apply scanned_placeholder; assumption.
    + cbn. apply scanned_tail. apply exec_None. exact E.
Qed.

Lemma scanned_unique s segs tail :
  scanned s segs tail → ∀ fuel, length s ≤ fuel → segments fuel s = (segs, tail).
Proof.
  induction 1 as [s Hnone|skipped m rest segs tail Hm Hleft Hrest IH]; intros fuel Hlen.
  - apply exec_None in Hnone. destruct fuel; cbn [segments]; rewrite Hnone; reflexivity.
  - pose proof (proj2 (exec_Some _ skipped m rest) (conj eq_refl (conj Hm Hleft))) as E.
    pose proof (exec_shorter _ _ _ _ E) as Hlt.
    destruct fuel as [|fuel]; [lia|]. cbn [segments]. rewrite E.
    rewrite (IH fuel) by lia. reflexivity.
Qed.

Lemma scanned_placeholders content : scanned content (placeholders content) (trailing content).
Proof. apply scanned_segments. lia. Qed.

Lemma scanned_is_placeholders content segs tail :
  scanned content segs tail → segs = placeholders content ∧ tail = trailing content.
Proof.
  intros H. unfold placeholders, trailing.
  rewrite (scanned_unique _ _ _ H (length content)) by lia. split; reflexivity.
Qed.

Lemma occurrences_trimOf (segs : list (jsstring * rmatch)) :
  Forall2 (λ sm v, trimOf (group1 sm.2) (name v)
                   ∧ option_Forall2 trimOf (group2 sm.2) (defaultValue v))
    segs ((λ sm, occurrence sm.2) <$> segs).
Proof.
  induction segs as [|sm segs IH]; [constructor|].
  rewrite fmap_cons. constructor; [|exact IH].
  cbn [occurrence name defaultValue]. split; [apply trim_trimOf|].
  destruct (group2 sm.2) as [d|]; cbn; constructor. apply trim_trimOf.
Qed.

Lemma interleave_fmap f (segs : list (jsstring * rmatch)) tail :
  interleave segs ((λ sm, f sm.2) <$> segs) tail = assemble f segs tail.
Proof.
  unfold interleave, assemble. f_equal. f_equal.
  induction segs as [|sm segs IH]; [reflexivity|].
  rewrite !fmap_cons. cbn [zip_with]. rewrite IH. reflexivity.
Qed.

End Declarative.

(** C1. For every content string: its placeholders can be read off it from
    left to right ([scanned]), and for their list [segs], with [occs] the
    occurrences they stand for (the name and the default of each, without the
    white space at their ends), [extractVariables] returns one entry per
    distinct trimmed placeholder name ([NoDup], and the names returned are
    exactly the names that occur), in order of first appearance (the entries
    are the occurrences at strictly increasing positions [ks], each the first
    position of its name), and the entry of a name is the occurrence at that
    first position, so its default is the trimmed default written there:
    later occurrences add no entry and change no default. *)
Theorem extractVariables_first_occurrence (content : jsstring) :
  (∃ segs tail, scanned content segs tail)
  ∧ ∀ segs tail, scanned content segs tail →
      ∃ occs : list variable,
        Forall2 (λ sm v, trimOf (group1 sm.2) (name v)
                         ∧ option_Forall2 trimOf (group2 sm.2) (defaultValue v))
          segs occs
        ∧ NoDup (name <$> extractVariables content)
        ∧ (∀ n, n ∈ name <$> extractVariables content ↔ n ∈ name <$> occs)
        ∧ ∃ ks : list nat,
            StronglySorted lt ks
            ∧ Forall2 (firstAt occs) ks (extractVariables content).
Proof.
  split; [exists (placeholders content), (trailing content); apply scanned_placeholders|].
  intros segs tail Hscan. apply scanned_is_placeholders in Hscan as [-> ->].
  exists (occurrences content). split; [apply occurrences_trimOf|].
  rewrite extractVariables_firsts.
  destruct (firsts_spec ∅ (occurrences content)) as (Hnd & Hmem & ks & Hs & Hall).
  split; [exact Hnd|]. split.
  - intros n. rewrite Hmem. set_solver.
  - exists ks. split; [exact Hs|].
    eapply Forall2_impl; [exact Hall|]. intros k v [Hf _]. exact Hf.
Qed.

(** The theorem on a text in which a name comes twice, with white space and
    another default the second time. *)
Lemma extractVariables_first_occurrence_witness :
  let content := str "{{a:1}}, {{ a :2}}" in
  scanned content
    [([], RMatch (str "a") (Some (str "1")));
     (str ", ", RMatch (str " a ") (Some (str "2")))] []
  ∧ ∃ occs : list variable,
      Forall2 (λ sm v, trimOf (group1 sm.2) (name v)
                       ∧ option_Forall2 trimOf (group2 sm.2) (defaultValue v))
        [([], RMatch (str "a") (Some (str "1")));
         (str ", ", RMatch (str " a ") (Some (str "2")))] occs
      ∧ NoDup (name <$> extractVariables content).
Proof.
  intros content.
  assert (scanned content
            [([], RMatch (str "a") (Some (str "1")));
             (str ", ", RMatch (str " a ") (Some (str "2")))] []) as Hscan.
  { exact (scanned_segments (length content) content (le_n _)). }
  split; [exact Hscan|].
  destruct (proj2 (extractVariables_first_occurrence content) _ _ Hscan)
    as (occs & Hocc & Hnd & _).
  exists occs. split; [exact Hocc|exact Hnd].
Defined.

(** The second occurrence of a name is dropped even when only it has a
    default; the first one keeps its own. *)
Example extractVariables_later_default :
  occurrences (str "{{a:1}} {{b}} {{ a :2}} {{b:3}}") =
    [Variable_ (str "a") (Some (str "1")); Variable_ (str "b") None;
     Variable_ (str "a") (Some (str "2")); Variable_ (str "b") (Some (str "3"))]
  ∧ extractVariables (str "{{a:1}} {{b}} {{ a :2}} {{b:3}}") =
    [Variable_ (str "a") (Some (str "1")); Variable_ (str "b") None].
Proof. vm_compute. split; reflexivity. Qed.

(** ** Substitution *)

(** The loop of [replaceVariables] ends because the text is used up: any
    larger bound gives the same result. *)
Lemma replaceVariables_fuel (functionText : jsstring → jsstring) (content : jsstring) values fuel :
  length content ≤ fuel →
  replaceLoop functionText fuel content values =
    replaceVariables functionText content values.
Proof. apply replaceLoop_fuel. Qed.

Lemma replaceVariables_segments (functionText : jsstring → jsstring) (content : jsstring) values :
  replaceVariables functionText content values =
    assemble (replacer functionText values) (placeholders content) (trailing content).
Proof. unfold replaceVariables. apply replaceLoop_segments. lia. Qed.

Lemma readProperty_own (functionText : jsstring → jsstring) (values : gmap jsstring jsstring) key v :
  values !! key = Some v → readProperty functionText values key = Some v.
Proof. unfold readProperty. intros ->. reflexivity. Qed.

Lemma readProperty_absent (functionText : jsstring → jsstring) (values : gmap jsstring jsstring) key :
  values !! key = None → key ≠ PROTO → key ∉ prototypeFunctions →
  readProperty functionText values key = None.
Proof.
  unfold readProperty. intros -> Hproto Hfun.
  rewrite decide_False by exact Hproto. rewrite decide_False by exact Hfun.
  reflexivity.
Qed.

(** What the replacer writes for a placeholder. *)
Lemma replacer_spec (functionText : jsstring → jsstring) (values : gmap jsstring jsstring) m :
  ∃ n, trimOf (group1 m) n
    ∧ (∀ v, values !! n = Some v → replacer functionText values m = v)
    ∧ (values !! n = None → n ≠ PROTO → n ∉ prototypeFunctions →
       replacer functionText values m = bare n).
Proof.
  exists (trim (group1 m)). split; [apply trim_trimOf|]. unfold replacer. split.
  - intros v Hv. rewrite (readProperty_own _ _ _ _ Hv). reflexivity.
  - intros Hnone Hproto Hfun.
    rewrite (readProperty_absent _ _ _ Hnone Hproto Hfun). reflexivity.
Qed.

(** A name that the values do not hold but [Object.prototype] does is not
    written as a placeholder: the text of what is inherited under it is. *)
Lemma replaceVariables_inherited :
  replaceVariables v8FunctionText (str "{{constructor}}") ∅
    = str "function Object() { [native code] }"
  ∧ replaceVariables v8FunctionText (str "{{__proto__}}") ∅ = str "[object Object]"
  ∧ replaceVariables v8FunctionText (str "{{__proto__}}") {[ PROTO := str "x" ]} = str "x".
Proof. vm_compute. repeat split. Qed.

(** C2, as amended.  The placeholders of the content can be read off it
    from left to right ([scanned]); with [segs] their list and [tail] the
    text after the last, the content is the texts before the placeholders,
    each followed by its placeholder, and the tail.  [replaceVariables] keeps
    these texts and the tail, and writes for each placeholder, whose name
    without the white space at its ends is [n]: the value recorded for [n]
    when the values have one (the empty string included); the placeholder
    [{{n}}], without default, when they have none and [n] is not the name of
    a property of [Object.prototype].  So with the empty values every such
    placeholder is written as [{{n}}]: the default is dropped, and so is the
    white space around the name. *)
Theorem replaceVariables_rewrites (functionText : jsstring → jsstring)
    (content : jsstring) (values : gmap jsstring jsstring) :
  (∃ segs tail, scanned content segs tail)
  ∧ ∀ segs tail, scanned content segs tail →
      content = interleave segs ((λ sm, matchText sm.2) <$> segs) tail
      ∧ (∃ texts,
           replaceVariables functionText content values = interleave segs texts tail
           ∧ Forall2
               (λ sm text,
                  ∃ n, trimOf (group1 sm.2) n
                    ∧ (∀ v, values !! n = Some v → text = v)
                    ∧ (values !! n = None → n ≠ PROTO → n ∉ prototypeFunctions →
                       text = bare n))
               segs texts)
      ∧ (∃ texts,
           replaceVariables functionText content ∅ = interleave segs texts tail
           ∧ Forall2
               (λ sm text,
                  ∃ n, trimOf (group1 sm.2) n
                    ∧ (n ≠ PROTO → n ∉ prototypeFunctions → text = bare n))
               segs texts).
Proof.
  split; [exists (placeholders content), (trailing content); apply scanned_placeholders|].
  intros segs tail Hscan. apply scanned_is_placeholders in Hscan as [-> ->].
  split; [|split].
  - rewrite interleave_fmap. apply placeholders_text.
  - exists ((λ sm, replacer functionText values sm.2) <$> placeholders content).
    split; [rewrite interleave_fmap; apply replaceVariables_segments|].
    apply Forall2_fmap_r, Forall_Forall2_diag, Forall_forall. intros sm _.
    apply replacer_spec.
  - exists ((λ sm, replacer functionText ∅ sm.2) <$> placeholders content).
    split; [rewrite interleave_fmap; apply replaceVariables_segments|].
    apply Forall2_fmap_r, Forall_Forall2_diag, Forall_forall. intros sm _.
    destruct (replacer_spec functionText ∅ sm.2) as (n & Hn & _ & Hnone).
    exists n. split; [exact Hn|]. apply Hnone. apply lookup_empty.
Qed.

(** The theorem on a text with a default and white space around a name. *)
Lemma replaceVariables_rewrites_witness :
  let content := str "Hi {{ name :Bob}}!" in
  ∃ texts,
    replaceVariables v8FunctionText content {[ str "name" := str "Al" ]}
      = interleave [(str "Hi ", RMatch (str " name ") (Some (str "Bob")))] texts (str "!")
    ∧ Forall2
        (λ sm text,
           ∃ n, trimOf (group1 sm.2) n
             ∧ (∀ v, ({[ str "name" := str "Al" ]} : gmap jsstring jsstring) !! n = Some v
                  → text = v)
             ∧ (({[ str "name" := str "Al" ]} : gmap jsstring jsstring) !! n = None →
                n ≠ PROTO → n ∉ prototypeFunctions → text = bare n))
        [(str "Hi ", RMatch (str " name ") (Some (str "Bob")))] texts.
Proof.
  intros content.
  assert (scanned content
            [(str "Hi ", RMatch (str " name ") (Some (str "Bob")))] (str "!")) as Hscan.
  { exact (scanned_segments (length content) content (le_n _)). }
  exact (proj1 (proj2 (proj2 (replaceVariables_rewrites v8FunctionText content
                                {[ str "name" := str "Al" ]}) _ _ Hscan))).
Defined.

(** The statement of C2 fails where a name is written with white space
    around it: this content has one placeholder, without default annotation,
    so dropping the default annotations leaves it as it is, yet the result
    of [replaceVariables] with the empty values differs from the content. *)
Lemma replaceVariables_empty_trims_names :
  placeholders (str "{{ a }}") = [([], RMatch (str " a ") None)]
  ∧ replaceVariables v8FunctionText (str "{{ a }}") ∅ = str "{{a}}"
  ∧ replaceVariables v8FunctionText (str "{{ a }}") ∅ ≠ str "{{ a }}".
Proof. vm_compute. repeat split. discriminate. Qed.

(** Where every name is written without surrounding white space and is not
    the name of a property of [Object.prototype], the empty values only drop
    the default annotations. *)
Lemma replaceVariables_empty_trimmed (functionText : jsstring → jsstring) (content : jsstring) :
  Forall (λ sm, trim (group1 sm.2) = group1 sm.2
                ∧ group1 sm.2 ≠ PROTO ∧ (group1 sm.2 ∉ prototypeFunctions))
    (placeholders content) →
  replaceVariables functionText content ∅ =
    assemble (λ m, bare (group1 m)) (placeholders content) (trailing content).
Proof.
  intros Hall. rewrite replaceVariables_segments.
  unfold assemble. f_equal. f_equal.
  apply Forall_fmap_ext_1. eapply Forall_impl; [exact Hall|].
  intros [sk m] (Hm & Hproto & Hfun). simpl in *. unfold replacer.
  rewrite Hm, readProperty_absent; [reflexivity|apply lookup_empty|assumption..].
Qed.

(** An empty string supplied as a value is substituted; an absent name is
    not. *)
Example replaceVariables_empty_value :
  replaceVariables v8FunctionText (str "Hi {{name:Bob}}!") {[ str "name" := [] ]}
    = str "Hi !"
  ∧ replaceVariables v8FunctionText (str "Hi {{name:Bob}}!") {[ str "other" := [] ]}
    = str "Hi {{name}}!".
Proof. vm_compute. split; reflexivity. Qed.

(** ** Version snapshots *)

(** C4. The versions of the result are the new snapshot, which captures the
    current title and content, followed by the previous versions, cut to at
    most 5 entries; a prompt that has 5 versions keeps exactly 5, its last
    (oldest) one being dropped; every other field is unchanged. *)
Theorem createPromptVersion_cap (now1 now2 : Z) (prompt : Prompt.t) :
  let snapshot :=
    PromptVersion.Make (numberToString now1) (Prompt.content prompt)
      (Prompt.title prompt) now2 in
  let result := createPromptVersion now1 now2 prompt in
  Prompt.versions result = take 5 (snapshot :: Prompt.versions prompt)
  ∧ Prompt.versions result !! 0 = Some snapshot
  ∧ (∀ i, S i < 5 → Prompt.versions result !! S i = Prompt.versions prompt !! i)
  ∧ length (Prompt.versions result) ≤ 5
  ∧ (length (Prompt.versions prompt) = 5 →
       length (Prompt.versions result) = 5
       ∧ ∃ oldest,
           Prompt.versions prompt = take 4 (Prompt.versions prompt) ++ [oldest]
           ∧ Prompt.versions result = snapshot :: take 4 (Prompt.versions prompt))
  ∧ Prompt.id result = Prompt.id prompt
  ∧ Prompt.title result = Prompt.title prompt
  ∧ Prompt.content result = Prompt.content prompt
  ∧ Prompt.tags result = Prompt.tags prompt
  ∧ Prompt.isFavorite result = Prompt.isFavorite prompt
  ∧ Prompt.isPinned result = Prompt.isPinned prompt
  ∧ Prompt.folderId result = Prompt.folderId prompt
  ∧ Prompt.createdAt result = Prompt.createdAt prompt
  ∧ Prompt.updatedAt result = Prompt.updatedAt prompt.
Proof.
  intros snapshot result. subst result. unfold createPromptVersion. simpl.
  fold snapshot. split; [reflexivity|]. split; [reflexivity|].
  split; [intros i Hi; apply lookup_take_lt; lia|].
  split; [rewrite length_take; lia|].
  split; [|repeat split].
  intros Hlen. split; [rewrite length_take; lia|].
  destruct (Prompt.versions prompt) as [|v1 [|v2 [|v3 [|v4 [|v5 [|v6 vs]]]]]];
    simpl in Hlen; try lia.
  exists v5. split; reflexivity.
Qed.

(** The theorem at a prompt that has 5 versions. *)
Lemma createPromptVersion_cap_witness :
  let v n := PromptVersion.Make (numberToString n) (str "c") (str "t") n in
  let prompt :=
    Prompt.Make (str "p1") (str "T") (str "C") [] false false None 1 2
      [v 50%Z; v 40%Z; v 30%Z; v 20%Z; v 10%Z] in
  Prompt.versions (createPromptVersion 60 61 prompt) =
    [PromptVersion.Make (str "60") (str "C") (str "T") 61; v 50%Z; v 40%Z; v 30%Z; v 20%Z].
Proof.
  intros v prompt.
  destruct (createPromptVersion_cap 60 61 prompt) as (_ & _ & _ & _ & H & _).
  destruct (H eq_refl) as (_ & oldest & _ & ->). reflexivity.
Defined.

Lemma createPromptVersion_length (now1 now2 : Z) (prompt : Prompt.t) :
  length (Prompt.versions (createPromptVersion now1 now2 prompt)) =
    5 `min` S (length (Prompt.versions prompt)).
Proof.
  unfold createPromptVersion. cbn [Prompt.versions].
  rewrite length_take. reflexivity.
Qed.

(** Six snapshots in a row, from any prompt, leave exactly five versions, and
    the first of the six is no longer among them when the ids differ. *)
Lemma createPromptVersion_six (t : nat → Z) (prompt : Prompt.t) :
  let step p i := createPromptVersion (t i) (t i) p in
  let result := foldl step prompt (seq 0 6) in
  length (Prompt.versions result) = 5
  ∧ PromptVersion.id <$> Prompt.versions result =
      numberToString <$> [t 5; t 4; t 3; t 2; t 1].
Proof.
  cbn [foldl seq]. split.
  - rewrite !createPromptVersion_length. lia.
  - reflexivity.
Qed.

(** ** The copy workflow *)

Section CopyWorkflow.
Import App.

Lemma copyToClipboard_clipboard pf text promptId st :
  clipboard (copyToClipboard pf text promptId st).2 =
    clipboard st ++ [platformWrite pf text]
  ∧ variableModal_open (copyToClipboard pf text promptId st).2 = variableModal_open st
  ∧ variableModal_prompt (copyToClipboard pf text promptId st).2 = variableModal_prompt st
  ∧ variableValues (copyToClipboard pf text promptId st).2 = variableValues st.
Proof.
  unfold copyToClipboard, platformWrite.
  destruct (electronAPI pf) as [copy|].
  - destruct (copy text); repeat split.
  - destruct (navigatorClipboard pf text); repeat split.
Qed.

Lemma fill_spec edits st :
  clipboard (fill edits st) = clipboard st
  ∧ variableModal_open (fill edits st) = variableModal_open st
  ∧ variableModal_prompt (fill edits st) = variableModal_prompt st
  ∧ variableValues (fill edits st) =
      foldl (λ m e, <[e.1 := e.2]> m) (variableValues st) edits.
Proof.
  revert st. induction edits as [|e edits IH]; intros st; [repeat split|].
  unfold fill in *. cbn [foldl].
  destruct (IH (changeVariable e.1 e.2 st)) as (-> & -> & -> & ->).
  repeat split.
Qed.

Lemma handleCopyWithVariables_clipboard (functionText : jsstring → jsstring)
    pf st prompt :
  variableModal_prompt st = Some prompt →
  clipboard (handleCopyWithVariables functionText pf st).2 =
    clipboard st
      ++ [platformWrite pf
            (replaceVariables functionText (Prompt.content prompt) (variableValues st))].
Proof.
  intros Hp. unfold handleCopyWithVariables. rewrite Hp.
  pose proof (copyToClipboard_clipboard pf
    (replaceVariables functionText (Prompt.content prompt) (variableValues st))
    (Prompt.id prompt) st) as (Hc & _).
  destruct (copyToClipboard _ _ _ st) as [[|] st']; simpl in *; exact Hc.
Qed.

Lemma assign_ne (key value : jsstring) (object : gmap jsstring jsstring) n :
  key ≠ n → assign key value object !! n = object !! n.
Proof.
  intros Hne. unfold assign.
  destruct (decide (key = PROTO)), (object !! key);
    try reflexivity; apply lookup_insert_ne; exact Hne.
Qed.

Lemma assign_eq (key value : jsstring) (object : gmap jsstring jsstring) :
  key ≠ PROTO → assign key value object !! key = Some value.
Proof.
  intros Hne. unfold assign.
  destruct (decide (key = PROTO)); [contradiction|].
  destruct (object !! key); apply lookup_insert_eq.
Qed.

Lemma assign_proto (key value : jsstring) (object : gmap jsstring jsstring) :
  object !! PROTO = None → assign key value object !! PROTO = None.
Proof.
  intros Hnone. unfold assign.
  destruct (decide (key = PROTO)) as [->|Hne].
  - rewrite Hnone. exact Hnone.
  - destruct (object !! key); rewrite lookup_insert_ne by exact Hne; exact Hnone.
Qed.

Lemma initialValues_other (acc : gmap jsstring jsstring)
    (variables : list variable) n :
  n ∉ name <$> variables →
  foldl (λ acc v, assign (name v) (default [] (defaultValue v)) acc) acc variables !! n
    = acc !! n.
Proof.
  revert acc. induction variables as [|v vs IH]; intros acc Hn; [reflexivity|].
  rewrite fmap_cons, not_elem_of_cons in Hn. destruct Hn as [Hne Hn].
  cbn [foldl]. rewrite IH by exact Hn. apply assign_ne. congruence.
Qed.

Lemma initialValues_entry (acc : gmap jsstring jsstring)
    (variables : list variable) v :
  NoDup (name <$> variables) → v ∈ variables → name v ≠ PROTO →
  foldl (λ acc v, assign (name v) (default [] (defaultValue v)) acc) acc variables
    !! name v = Some (default [] (defaultValue v)).
Proof.
  revert acc. induction variables as [|w vs IH]; intros acc Hnd Hv Hproto.
  - inversion Hv.
  - rewrite fmap_cons, NoDup_cons in Hnd. destruct Hnd as [Hw Hnd].
    cbn [foldl]. apply elem_of_cons in Hv as [->|Hv].
    + rewrite initialValues_other by exact Hw. apply assign_eq. exact Hproto.
    + apply IH; assumption.
Qed.

Lemma initialValues_proto (acc : gmap jsstring jsstring)
    (variables : list variable) :
  acc !! PROTO = None →
  foldl (λ acc v, assign (name v) (default [] (defaultValue v)) acc) acc variables
    !! PROTO = None.
Proof.
  revert acc. induction variables as [|v vs IH]; intros acc Hacc; [exact Hacc|].
  cbn [foldl]. apply IH, assign_proto, Hacc.
Qed.

Lemma extractVariables_NoDup content : NoDup (name <$> extractVariables content).
Proof. rewrite extractVariables_firsts. apply firsts_spec. Qed.

End CopyWorkflow.

(** The workflow for every prompt (on any platform, from any state of the
    component): when [extractVariables] finds nothing, [handleCopy] hands the
    content itself to the clipboard and leaves the dialog state untouched;
    otherwise it opens the dialog on the prompt without writing to the
    clipboard, with initial values giving each variable not named
    [__proto__] its default, or the empty string when it has none, and
    nothing for other names and for [__proto__]; whatever the user then
    types, completing the dialog hands [replaceVariables content values] to
    the clipboard, [values] being the values of the dialog at that moment,
    and closing it instead writes nothing. *)
Lemma copy_workflow_general (functionText : jsstring → jsstring)
    (pf : App.Platform) (prompt : Prompt.t) (st : App.State) :
  let variables := extractVariables (Prompt.content prompt) in
  let opened := (App.handleCopy pf prompt st).2 in
  (variables = [] →
     App.clipboard opened =
       App.clipboard st ++ [App.platformWrite pf (Prompt.content prompt)]
     ∧ App.variableModal_open opened = App.variableModal_open st
     ∧ App.variableModal_prompt opened = App.variableModal_prompt st
     ∧ App.variableValues opened = App.variableValues st)
  ∧ (variables ≠ [] →
     App.modalShown opened = true
     ∧ App.variableModal_prompt opened = Some prompt
     ∧ App.clipboard opened = App.clipboard st
     ∧ (∀ v, v ∈ variables → name v ≠ PROTO →
          App.variableValues opened !! name v = Some (default [] (defaultValue v)))
     ∧ (∀ n, n ∉ name <$> variables → App.variableValues opened !! n = None)
     ∧ App.variableValues opened !! PROTO = None
     ∧ (∀ edits,
          let filled := App.fill edits opened in
          App.variableValues filled =
            foldl (λ m e, <[e.1 := e.2]> m) (App.variableValues opened) edits
          ∧ App.clipboard (App.handleCopyWithVariables functionText pf filled).2 =
              App.clipboard st
                ++ [App.platformWrite pf
                      (replaceVariables functionText (Prompt.content prompt)
                         (App.variableValues filled))]
          ∧ App.clipboard (App.closeVariableModal filled) = App.clipboard st
          ∧ App.modalShown (App.closeVariableModal filled) = false)).
Proof.
  intros variables opened. subst opened. unfold App.handleCopy. fold variables.
  split.
  - intros ->. cbn [length]. rewrite bool_decide_eq_false_2 by lia.
    apply copyToClipboard_clipboard.
  - intros Hne. rewrite bool_decide_eq_true_2
      by (destruct variables; [congruence|simpl; lia]).
    cbn [snd]. split; [reflexivity|]. split; [reflexivity|]. split; [reflexivity|].
    split; [|split; [|split]].
    + intros v Hv Hproto.
      apply initialValues_entry; [apply extractVariables_NoDup|exact Hv|exact Hproto].
    + intros n Hn. cbn. unfold App.initialValues.
      rewrite initialValues_other by exact Hn. apply lookup_empty.
    + cbn. unfold App.initialValues. apply initialValues_proto, lookup_empty.
    + intros edits.
      match goal with |- context [App.fill edits ?s] =>
        destruct (fill_spec edits s) as (Hc & Ho & Hp & Hv) end.
      split; [exact Hv|]. split; [|split].
      * erewrite handleCopyWithVariables_clipboard; [|rewrite Hp; reflexivity].
        rewrite Hc. reflexivity.
      * cbn. rewrite Hc. reflexivity.
      * reflexivity.
Qed.

(** The workflow on a browser without the Electron bridge: a prompt without
    placeholder is copied as it is; one with a placeholder opens the dialog
    with the default, and completing it after typing a name copies the text
    with the name filled in. *)
Example copy_workflow_example :
  let pf := {| App.electronAPI := None; App.navigatorClipboard := λ _, Resolved |} in
  let st := {| App.variableModal_open := false; App.variableModal_prompt := None;
               App.variableValues := ∅; App.copiedId := None; App.clipboard := [] |} in
  let plain :=
    Prompt.Make (str "1") (str "T") (str "No placeholders here") [] false false None 1 1 [] in
  let templ :=
    Prompt.Make (str "2") (str "T") (str "Hi {{name:Bob}}") [] false false None 1 1 [] in
  App.clipboard (App.handleCopy pf plain st).2 =
    [App.NavigatorWrite (str "No placeholders here")]
  ∧ App.variableValues (App.handleCopy pf templ st).2 !! str "name" = Some (str "Bob")
  ∧ App.clipboard
      (App.handleCopyWithVariables v8FunctionText pf
         (App.fill [(str "name", str "Alice")] (App.handleCopy pf templ st).2)).2 =
    [App.NavigatorWrite (str "Hi Alice")].
Proof. vm_compute. repeat split. Qed.

(** C3 fails on a prompt with a variable named [__proto__].  [handleCopy]
    opens the dialog, but the assignment [initialValues['__proto__'] = '']
    reaches the setter of [Object.prototype] and adds no entry: the initial
    values do not map the variable to the empty string, where every other
    variable is mapped.  Completing the dialog as it stands then hands to the
    clipboard the text of what the values inherit under that name, not the
    content with the empty string filled in. *)
Theorem copy_workflow :
  let pf := {| App.electronAPI := None; App.navigatorClipboard := λ _, Resolved |} in
  let st := {| App.variableModal_open := false; App.variableModal_prompt := None;
               App.variableValues := ∅; App.copiedId := None; App.clipboard := [] |} in
  let prompt :=
    Prompt.Make (str "1") (str "T") (str "{{__proto__}} and {{a}}") [] false false None 1 1 [] in
  let opened := (App.handleCopy pf prompt st).2 in
  extractVariables (Prompt.content prompt) =
    [Variable_ (str "__proto__") None; Variable_ (str "a") None]
  ∧ App.modalShown opened = true
  ∧ App.variableValues opened !! str "a" = Some []
  ∧ App.variableValues opened !! str "__proto__" = None
  ∧ App.clipboard (App.handleCopyWithVariables v8FunctionText pf opened).2 =
      [App.NavigatorWrite (str "[object Object] and ")]
  ∧ replaceVariables v8FunctionText (Prompt.content prompt)
      {[ str "__proto__" := []; str "a" := [] ]} = str " and ".
Proof. vm_compute. repeat split. Qed.

(** ** The storage service *)

Section StoreFacts.
Import Store.

Lemma spread_id dflt p : spread dflt p = p.
Proof. destruct p. reflexivity. Qed.

Lemma spread_all dflt (l : list Prompt.t) : spread dflt <$> l = l.
Proof.
  induction l as [|p l IH]; [reflexivity|].
  rewrite fmap_cons, spread_id, IH. reflexivity.
Qed.

(** Reading the cache changes at most the console.  What is read is the
    array that the cache holds, unless the stored text is that of a value
    that is not an array. *)
Lemma getCachedPrompts_array w :
  promptsCache w ≠ Some JsonOther →
  ∃ log, getCachedPrompts w =
    (inr (Array (cached w)),
     {| promptsCache := promptsCache w; quota := quota w;
        console := console w ++ log |}).
Proof.
  intros Hc.
  unfold cached, getCachedPrompts, tryCatch, getItem, mbind, M_bind, bind.
  destruct w as [[[ps| | | |]|] q c]; cbn in Hc; simpl; [| congruence | | | |].
  - exists []. rewrite app_nil_r. reflexivity.
  - exists []. rewrite app_nil_r. reflexivity.
  - exists [FailedToReadPromptsCache]. reflexivity.
  - exists [FailedToReadPromptsCache]. reflexivity.
  - exists []. rewrite app_nil_r. reflexivity.
Qed.

Lemma notArray_dec w :
  {promptsCache w = Some JsonOther} + {promptsCache w ≠ Some JsonOther}.
Proof.
  destruct (promptsCache w) as [[| | | |]|];
    first [left; reflexivity | right; discriminate].
Qed.

Lemma getCachedPrompts_other w :
  promptsCache w = Some JsonOther → getCachedPrompts w = (inr NotArray, w).
Proof. destruct w as [c q l]. cbn. intros ->. reflexivity. Qed.

Lemma cached_console w log :
  cached {| promptsCache := promptsCache w; quota := quota w;
            console := log |} = cached w.
Proof. reflexivity. Qed.

Lemma cached_promptsCache w1 w2 :
  promptsCache w1 = promptsCache w2 → cached w1 = cached w2.
Proof. unfold cached. intros ->. reflexivity. Qed.

(** Writing the cache: the text is replaced when the storage takes it,
    and otherwise only the console changes. *)
Lemma setCachedPrompts_spec ps w :
  (setCachedPrompts ps w).1 = inr ()
  ∧ quota (setCachedPrompts ps w).2 = quota w
  ∧ (quota w ps = true →
       promptsCache (setCachedPrompts ps w).2 = Some (Json ps)
       ∧ cached (setCachedPrompts ps w).2 = ps)
  ∧ (quota w ps = false →
       promptsCache (setCachedPrompts ps w).2 = promptsCache w
       ∧ console (setCachedPrompts ps w).2 =
           console w ++ [FailedToWritePromptsCache]).
Proof.
  unfold setCachedPrompts, tryCatch, setItem.
  destruct (quota w ps) eqn:Hq; simpl; repeat split; try discriminate.
Qed.



End StoreFacts.

Section LoadFacts.
Import Store.

Lemma loadPromptsAsync_up d api w fetched :
  fetchPrompts api = inr fetched →
  (loadPromptsAsync d api w).1 = inr fetched
  ∧ (quota w fetched = true →
       promptsCache (loadPromptsAsync d api w).2 = Some (Json fetched)
       ∧ cached (loadPromptsAsync d api w).2 = fetched)
  ∧ (quota w fetched = false →
       promptsCache (loadPromptsAsync d api w).2 = promptsCache w
       ∧ console (loadPromptsAsync d api w).2 =
           console w ++ [FailedToWritePromptsCache]).
Proof.
  intros Hf.
  unfold loadPromptsAsync, tryCatch, await, mbind, M_bind, bind, mret, M_ret, ret.
  rewrite Hf.
  destruct (setCachedPrompts_spec fetched w) as (Hr & _ & Hyes & Hno).
  destruct (setCachedPrompts fetched w) as [[e|[]] w']; [discriminate|].
  simpl in *. rewrite spread_all. auto.
Qed.

Lemma loadPromptsAsync_down d api w e :
  fetchPrompts api = inl e →
  promptsCache w ≠ Some JsonOther →
  (loadPromptsAsync d api w).1 = inr (cached w)
  ∧ promptsCache (loadPromptsAsync d api w).2 = promptsCache w
  ∧ FailedToFetchPrompts ∈ console (loadPromptsAsync d api w).2.
Proof.
  intros Hf Hc.
  unfold loadPromptsAsync, tryCatch, await, mbind, M_bind, bind, mret, M_ret, ret,
    consoleError.
  rewrite Hf.
  match goal with |- context [getCachedPrompts ?w1] =>
    destruct (getCachedPrompts_array w1 Hc) as [log ->] end.
  simpl. rewrite spread_all.
  split; [reflexivity|]. split; [reflexivity|]. set_solver.
Qed.

(** With the text of a value that is not an array in the cache, the fall
    back itself throws: the promise rejects. *)
Lemma loadPromptsAsync_not_array d api w e :
  fetchPrompts api = inl e →
  promptsCache w = Some JsonOther →
  (loadPromptsAsync d api w).1 = inl TypeError
  ∧ promptsCache (loadPromptsAsync d api w).2 = promptsCache w.
Proof.
  intros Hf Hc.
  unfold loadPromptsAsync, tryCatch, await, mbind, M_bind, bind, mret, M_ret, ret,
    consoleError.
  rewrite Hf.
  match goal with |- context [getCachedPrompts ?w1] =>
    rewrite (getCachedPrompts_other w1 Hc) end.
  simpl. split; reflexivity.
Qed.

End LoadFacts.

(** C5, as amended.  When the remote fetch succeeds, [loadPromptsAsync]
    returns the fetched set and writes it to the cache: the cache then holds
    the fetched set when [localStorage] takes the write, and is as before
    when it refuses it (the refusal is logged, not raised).  When the remote
    fetch fails and the cache does not hold the text of a value that is not
    an array, the call does not reject: it logs the failure, returns the
    array that the cache holds (no prompt when the key is absent, empty,
    unparsable or unreadable) and leaves the cache as it was. *)
Theorem loadPromptsAsync_fallback (createDefaultPrompt : Prompt.t)
    (api : Store.Api) (w : Store.World) :
  let r := Store.loadPromptsAsync createDefaultPrompt api w in
  (∀ fetched, Store.fetchPrompts api = inr fetched →
     r.1 = inr fetched
     ∧ (Store.quota w fetched = true →
          Store.promptsCache r.2 = Some (Store.Json fetched)
          ∧ Store.cached r.2 = fetched)
     ∧ (Store.quota w fetched = false →
          Store.promptsCache r.2 = Store.promptsCache w
          ∧ Store.console r.2 =
              Store.console w ++ [Store.FailedToWritePromptsCache]))
  ∧ (∀ e, Store.fetchPrompts api = inl e →
     Store.promptsCache w ≠ Some Store.JsonOther →
     r.1 = inr (match Store.promptsCache w with
                | Some (Store.Json prompts) => prompts
                | _ => []
                end)
     ∧ Store.promptsCache r.2 = Store.promptsCache w
     ∧ Store.FailedToFetchPrompts ∈ Store.console r.2).
Proof.
  intros r. subst r. split.
  - intros fetched Hf. apply loadPromptsAsync_up. exact Hf.
  - intros e Hf Hc. apply (loadPromptsAsync_down _ _ _ e Hf Hc).
Qed.

(** The amended statement at work: a fetch that fails falls back to the
    cached set, and a fetch that succeeds replaces it. *)
Lemma loadPromptsAsync_fallback_witness :
  let w := {| Store.promptsCache := Some (Store.Json [samplePrompt "1"]);
              Store.quota := λ _, true; Store.console := [] |} in
  let down := {| Store.fetchPrompts := inl Store.NetworkError;
                 Store.createPromptApi := λ _, inl Store.NetworkError;
                 Store.updatePromptApi := λ _ _, inl Store.NetworkError;
                 Store.deletePromptApi := λ _, inl Store.NetworkError |} in
  let up := {| Store.fetchPrompts := inr [samplePrompt "2"];
               Store.createPromptApi := λ p, inr p;
               Store.updatePromptApi := λ _ p, inr p;
               Store.deletePromptApi := λ _, inr () |} in
  (Store.loadPromptsAsync (samplePrompt "0") down w).1 = inr [samplePrompt "1"]
  ∧ Store.cached (Store.loadPromptsAsync (samplePrompt "0") up w).2 = [samplePrompt "2"].
Proof.
  intros w down up. split.
  - destruct (loadPromptsAsync_fallback (samplePrompt "0") down w) as [_ H].
    destruct (H Store.NetworkError eq_refl ltac:(discriminate)) as (-> & _).
    reflexivity.
  - destruct (loadPromptsAsync_fallback (samplePrompt "0") up w) as [H _].
    destruct (H [samplePrompt "2"] eq_refl) as (_ & Hyes & _).
    destruct (Hyes eq_refl) as [_ ->]. reflexivity.
Defined.

(** The statement of C5 fails when [localStorage] refuses the write: the
    fetch succeeds and its set is returned, but the cache is not overwritten
    with it. *)
Lemma loadPromptsAsync_write_dropped :
  let w := {| Store.promptsCache := Some (Store.Json [samplePrompt "1"]);
              Store.quota := λ _, false; Store.console := [] |} in
  let api := {| Store.fetchPrompts := inr [samplePrompt "2"];
                Store.createPromptApi := λ p, inr p;
                Store.updatePromptApi := λ _ p, inr p;
                Store.deletePromptApi := λ _, inr () |} in
  let r := Store.loadPromptsAsync (samplePrompt "0") api w in
  r.1 = inr [samplePrompt "2"]
  ∧ Store.cached r.2 = [samplePrompt "1"]
  ∧ Store.cached r.2 ≠ [samplePrompt "2"]
  ∧ Store.console r.2 = [Store.FailedToWritePromptsCache].
Proof. vm_compute. repeat split. discriminate. Qed.

Section WriteFacts.
Import Store.

Lemma savePromptAsync_failure api prompt w e :
  promptsCache w ≠ Some JsonOther →
  saveCall api prompt w = inl e →
  (savePromptAsync api prompt w).1 = inl e
  ∧ promptsCache (savePromptAsync api prompt w).2 = promptsCache w
  ∧ FailedToSavePrompt ∈ console (savePromptAsync api prompt w).2.
Proof.
  unfold saveCall, savePromptAsync, tryCatch, await, mbind, M_bind, bind,
    mret, M_ret, ret, consoleError, throw.
  intros Hc Hcall. destruct (getCachedPrompts_array w Hc) as [log ->].
  cbn [array ret]. rewrite Hcall. simpl.
  split; [reflexivity|]. split; [reflexivity|]. set_solver.
Qed.

Lemma savePromptAsync_success api prompt w saved :
  promptsCache w ≠ Some JsonOther →
  saveCall api prompt w = inr saved →
  (savePromptAsync api prompt w).1 = inr saved
  ∧ (quota w (upsert saved (cached w)) = true →
       promptsCache (savePromptAsync api prompt w).2
         = Some (Json (upsert saved (cached w)))
       ∧ cached (savePromptAsync api prompt w).2 = upsert saved (cached w))
  ∧ (quota w (upsert saved (cached w)) = false →
       promptsCache (savePromptAsync api prompt w).2 = promptsCache w
       ∧ FailedToWritePromptsCache ∈ console (savePromptAsync api prompt w).2).
Proof.
  unfold saveCall, savePromptAsync, tryCatch, await, mbind, M_bind, bind,
    mret, M_ret, ret, consoleError, throw.
  intros Hc Hcall. destruct (getCachedPrompts_array w Hc) as [log ->].
  cbn [array ret]. rewrite Hcall.
  match goal with |- context [getCachedPrompts ?w1] =>
    destruct (getCachedPrompts_array w1 Hc) as [log' ->] end.
  cbn [array ret promptsCache quota console cached].
  match goal with |- context [setCachedPrompts ?ps ?w2] =>
    destruct (setCachedPrompts_spec ps w2) as (Hr & _ & Hyes & Hno);
    destruct (setCachedPrompts ps w2) as [[e|[]] w'] end; [discriminate|].
  simpl in *. split; [reflexivity|]. split.
  - intros Hq. apply Hyes. exact Hq.
  - intros Hq. destruct (Hno Hq) as [-> ->]. split; [reflexivity|]. set_solver.
Qed.

(** With the text of a value that is not an array in the cache, the look-up
    of the prompt throws before any remote call. *)
Lemma savePromptAsync_not_array api prompt w :
  promptsCache w = Some JsonOther →
  (savePromptAsync api prompt w).1 = inl TypeError
  ∧ promptsCache (savePromptAsync api prompt w).2 = promptsCache w
  ∧ FailedToSavePrompt ∈ console (savePromptAsync api prompt w).2.
Proof.
  unfold savePromptAsync, tryCatch, await, mbind, M_bind, bind,
    mret, M_ret, ret, consoleError, throw.
  intros Hc. rewrite (getCachedPrompts_other w Hc). simpl.
  split; [reflexivity|]. split; [reflexivity|]. set_solver.
Qed.

Lemma deletePromptAsync_failure api id w e :
  deletePromptApi api id = inl e →
  (deletePromptAsync api id w).1 = inl e
  ∧ promptsCache (deletePromptAsync api id w).2 = promptsCache w
  ∧ FailedToDeletePrompt ∈ console (deletePromptAsync api id w).2.
Proof.
  unfold deletePromptAsync, tryCatch, await, mbind, M_bind, bind,
    mret, M_ret, ret, consoleError, throw.
  intros ->. simpl. split; [reflexivity|]. split; [reflexivity|]. set_solver.
Qed.

Lemma deletePromptAsync_success api id w :
  promptsCache w ≠ Some JsonOther →
  deletePromptApi api id = inr () →
  let kept := filter (λ p, Prompt.id p ≠ id) (cached w) in
  (deletePromptAsync api id w).1 = inr ()
  ∧ (quota w kept = true →
       promptsCache (deletePromptAsync api id w).2 = Some (Json kept)
       ∧ cached (deletePromptAsync api id w).2 = kept)
  ∧ (quota w kept = false →
       promptsCache (deletePromptAsync api id w).2 = promptsCache w
       ∧ FailedToWritePromptsCache ∈ console (deletePromptAsync api id w).2).
Proof.
  unfold deletePromptAsync, tryCatch, await, mbind, M_bind, bind,
    mret, M_ret, ret, consoleError, throw.
  intros Hc ->. destruct (getCachedPrompts_array w Hc) as [log ->].
  cbn [array ret].
  match goal with |- context [setCachedPrompts ?ps ?w2] =>
    destruct (setCachedPrompts_spec ps w2) as (Hr & _ & Hyes & Hno);
    destruct (setCachedPrompts ps w2) as [[e|[]] w'] end; [discriminate|].
  simpl in *. split; [reflexivity|]. split.
  - intros Hq. apply Hyes. exact Hq.
  - intros Hq. destruct (Hno Hq) as [-> ->]. split; [reflexivity|]. set_solver.
Qed.

(** With the text of a value that is not an array in the cache, the update
    of the cache throws after the remote delete. *)
Lemma deletePromptAsync_not_array api id w :
  promptsCache w = Some JsonOther →
  deletePromptApi api id = inr () →
  (deletePromptAsync api id w).1 = inl TypeError
  ∧ promptsCache (deletePromptAsync api id w).2 = promptsCache w
  ∧ FailedToDeletePrompt ∈ console (deletePromptAsync api id w).2.
Proof.
  unfold deletePromptAsync, tryCatch, await, mbind, M_bind, bind,
    mret, M_ret, ret, consoleError, throw.
  intros Hc ->. rewrite (getCachedPrompts_other w Hc). simpl.
  split; [reflexivity|]. split; [reflexivity|]. set_solver.
Qed.

End WriteFacts.




(** C8, as amended.  [exportData] takes the prompts and the folders as
    arguments and returns (as JSON text) the envelope made of version 2, the
    current time in epoch milliseconds, and these two arrays; it reads
    neither the local cache nor the remote store, so the cache has no
    influence on the result. *)
Theorem exportData_envelope (now : Z) (prompts : list Prompt.t)
    (folders : list Folder.t) :
  Store.version (Store.exportData now prompts folders) = 2%Z
  ∧ Store.exportedAt (Store.exportData now prompts folders) = now
  ∧ Store.prompts (Store.exportData now prompts folders) = prompts
  ∧ Store.folders (Store.exportData now prompts folders) = folders.
Proof. repeat split. Qed.

(** The statement of C8 fails: with a prompt in the cache and the empty
    arrays as arguments, the envelope holds the arguments, not what the
    cache reads as. *)
Lemma exportData_ignores_cache :
  let w := {| Store.promptsCache := Some (Store.Json [samplePrompt "1"]);
              Store.quota := λ _, true; Store.console := [] |} in
  Store.cached w = [samplePrompt "1"]
  ∧ Store.prompts (Store.exportData 1700000000000 [] []) = []
  ∧ Store.prompts (Store.exportData 1700000000000 [] []) ≠ Store.cached w.
Proof. vm_compute. repeat split. discriminate. Qed.

(** ** Connection status *)

Section MonitorFacts.
Import Monitor.

(** Every change of status is broadcast: each registered listener is
    called once with the new status, in order of registration. *)
Lemma setConnectionStatus_broadcast status st :
  connectionStatus st ≠ status →
  connectionStatus (setConnectionStatus status st) = status
  ∧ calls (setConnectionStatus status st) =
      calls st ++ ((λ l, (l, status)) <$> listeners st).
Proof.
  intros Hne. unfold setConnectionStatus.
  destruct (decide (connectionStatus st ≠ status)); [split; reflexivity|contradiction].
Qed.

Lemma setConnectionStatus_same st :
  setConnectionStatus (connectionStatus st) st = st.
Proof.
  unfold setConnectionStatus.
  destruct (decide (connectionStatus st ≠ connectionStatus st)); congruence.
Qed.

(** The bubble's client replays the current status to a new listener. *)
Lemma ApiClient_replay callback st :
  calls (ApiClient.onConnectionStatusChange callback st) =
    calls st ++ [(callback, connectionStatus st)]
  ∧ callback ∈ listeners (ApiClient.onConnectionStatusChange callback st).
Proof. split; [reflexivity|]. simpl. set_solver. Qed.

(** After subscription through either function, the listener is among
    those called on the next change. *)
Lemma subscribed_then_notified listener status st :
  connectionStatus st ≠ status →
  (listener, status) ∈
    calls (setConnectionStatus status (ApiService.onConnectionStatusChange listener st))
  ∧ (listener, status) ∈
    calls (setConnectionStatus status (ApiClient.onConnectionStatusChange listener st)).
Proof.
  intros Hne. split.
  - destruct (setConnectionStatus_broadcast status
      (ApiService.onConnectionStatusChange listener st) Hne) as [_ ->].
    simpl. rewrite fmap_app. set_solver.
  - destruct (setConnectionStatus_broadcast status
      (ApiClient.onConnectionStatusChange listener st) Hne) as [_ ->].
    simpl. rewrite fmap_app. set_solver.
Qed.

End MonitorFacts.

(** C7 on the web API service: subscription stores the listener and calls
    nothing, in any state; in the initial state a new listener has received
    nothing, where the bubble's client has called it with ['checking']. *)
Theorem ApiService_subscription_no_replay :
  (∀ listener st,
     Monitor.calls (ApiService.onConnectionStatusChange listener st) = Monitor.calls st)
  ∧ Monitor.calls (ApiService.onConnectionStatusChange 0 Monitor.initial) = []
  ∧ Monitor.calls (ApiClient.onConnectionStatusChange 0 Monitor.initial) = [(0, checking)].
Proof. repeat split. Qed.

(** ** The route [POST /prompts] *)

Section RouteDefaults.
Import Server.




End RouteDefaults.


(** The route at the empty body [{}] and at a body with a title and an
    empty id. *)
Example postPrompts_examples :
  let row title :=
    {| Server.id := Server.JString (str "1700000000000");
       Server.title := Server.JString title;
       Server.content := Server.JString [];
       Server.tags := Server.JArray [];
       Server.isFavorite := Server.JBool false;
       Server.isPinned := Server.JBool false;
       Server.folderId := Server.JNull;
       Server.createdAt := Server.JNumber 1700000000000;
       Server.updatedAt := Server.JNumber 1700000000000;
       Server.versions := Server.JArray [] |} in
  Server.postPrompts _ Database.createPrompt 1700000000000 ∅ [] =
    ({| Server.status := 201;
        Server.payload := Server.PromptJson (row (str "New Prompt")) |},
     [row (str "New Prompt")])
  ∧ Server.postPrompts _ Database.createPrompt 1700000000000
      {[ str "title" := Server.JString (str "T"); str "id" := Server.JString [] ]} [] =
    ({| Server.status := 201; Server.payload := Server.PromptJson (row (str "T")) |},
     [row (str "T")]).
Proof. split; vm_compute; reflexivity. Qed.

(** ** The clipboard utility *)

(** C10. With the empty string [copyToClipboard] returns false and attempts
    no write in either tier; with a non-empty text it returns true exactly
    when one of the attempts it makes succeeds, that is when the async write
    resolves, or, the async write being absent or rejecting, the selection
    copy reports success. *)
Theorem copyToClipboard_tiers (env : Clipboard.Env) :
  Clipboard.copyToClipboard env [] = (false, [])
  ∧ ∀ text, text ≠ [] →
      let r := Clipboard.copyToClipboard env text in
      (r.1 = true ↔ ∃ a, a ∈ r.2 ∧ Clipboard.succeeded a = true)
      ∧ (r.1 = true ↔
           (∃ write, Clipboard.writeText env = Some write ∧ write text = Resolved)
           ∨ ((Clipboard.writeText env = None
               ∨ ∃ write, Clipboard.writeText env = Some write ∧ write text = Rejected)
              ∧ Clipboard.execCommandCopy env text = Some true)).
Proof.
  split; [reflexivity|]. intros text Hne r. subst r.
  destruct text as [|c text]; [congruence|].
  unfold Clipboard.copyToClipboard, Clipboard.fallback.
  destruct (Clipboard.writeText env) as [write|].
  - destruct (write (c :: text)) eqn:Hw.
    + split; split; intros _; [| reflexivity | | reflexivity].
      * exists (Clipboard.AsyncWrite (c :: text) true). split; [set_solver|reflexivity].
      * left. exists write. auto.
    + destruct (Clipboard.execCommandCopy env (c :: text)) as [[|]|] eqn:He;
        cbn [fst snd app]; split; split.
      * intros _. eexists. split; [apply list_elem_of_further, list_elem_of_here|reflexivity].
      * reflexivity.
      * intros _. right. split; [right; exists write; auto|reflexivity].
      * reflexivity.
      * discriminate.
      * intros (a & Ha & Hs). set_solver.
      * discriminate.
      * intros [(w' & [= <-] & Hw')|[_ [=]]]. congruence.
      * discriminate.
      * intros (a & Ha & Hs). set_solver.
      * discriminate.
      * intros [(w' & [= <-] & Hw')|[_ [=]]]. congruence.
  - destruct (Clipboard.execCommandCopy env (c :: text)) as [[|]|] eqn:He;
      cbn [fst snd app]; split; split.
    + intros _. eexists. split; [apply list_elem_of_here|reflexivity].
    + reflexivity.
    + intros _. right. split; [left; reflexivity|reflexivity].
    + reflexivity.
    + discriminate.
    + intros (a & Ha & Hs). set_solver.
    + discriminate.
    + intros [(w' & [=] & _)|[_ [=]]].
    + discriminate.
    + intros (a & Ha & Hs). set_solver.
    + discriminate.
    + intros [(w' & [=] & _)|[_ [=]]].
Qed.

(** The theorem on a page without the async clipboard API, where the
    selection copy succeeds. *)
Lemma copyToClipboard_tiers_witness :
  let env := {| Clipboard.writeText := None;
                Clipboard.execCommandCopy := λ _, Some true |} in
  (Clipboard.copyToClipboard env (str "Hi Alice")).1 = true.
Proof.
  intros env.
  destruct (copyToClipboard_tiers env) as [_ H].
  destruct (H (str "Hi Alice") ltac:(vm_compute; discriminate)) as [_ [_ Hr]].
  apply Hr. right. split; [left|]; reflexivity.
Defined.

(** * Further properties *)

(** ** The template engine *)

Section TemplateFacts.

Lemma firsts_elem (seen : gset jsstring) l v : v ∈ firsts seen l → v ∈ l.
Proof.
  revert seen. induction l as [|w l IH]; intros seen; [inversion 1|].
  cbn [firsts]. destruct (decide (name w ∈ seen)).
  - intros H. right. eapply IH. exact H.
  - intros H. apply elem_of_cons in H as [->|H]; [left|right; eapply IH; exact H].
Qed.

(** Every name that occurs is among the names extracted. *)
Lemma placeholder_name_extracted content sm :
  sm ∈ placeholders content →
  trim (group1 sm.2) ∈ name <$> extractVariables content.
Proof.
  intros Hsm. rewrite extractVariables_firsts.
  destruct (firsts_spec ∅ (occurrences content)) as (_ & Hmem & _).
  rewrite Hmem. split; [|set_solver].
  unfold occurrences. rewrite <- list_fmap_compose.
  apply (list_elem_of_fmap_2 (name ∘ (λ sm, occurrence sm.2))) in Hsm. exact Hsm.
Qed.

Lemma replacer_lookup (functionText : jsstring → jsstring)
    (values : gmap jsstring jsstring) m v :
  values !! trim (group1 m) = Some v → replacer functionText values m = v.
Proof. unfold replacer, readProperty. intros ->. reflexivity. Qed.

Lemma replaceVariables_covering (functionText : jsstring → jsstring)
    (content : jsstring) (values : gmap jsstring jsstring) :
  (∀ v, v ∈ extractVariables content → is_Some (values !! name v)) →
  replaceVariables functionText content values =
    assemble (λ m, default [] (values !! trim (group1 m)))
      (placeholders content) (trailing content).
Proof.
  intros Hall. rewrite replaceVariables_segments.
  unfold assemble. f_equal. f_equal.
  apply Forall_fmap_ext_1, Forall_forall. intros sm Hsm.
  apply placeholder_name_extracted, list_elem_of_fmap in Hsm as (v & Hn & Hv).
  destruct (Hall v Hv) as [x Hx]. rewrite <- Hn in Hx.
  rewrite (replacer_lookup _ _ _ _ Hx), Hx. reflexivity.
Qed.

Lemma edits_keep_entries (values : gmap jsstring jsstring)
    (edits : list (jsstring * jsstring)) n :
  is_Some (values !! n) →
  is_Some (foldl (λ m e, <[e.1 := e.2]> m) values edits !! n).
Proof.
  revert values. induction edits as [|e edits IH]; intros values H; [exact H|].
  cbn [foldl]. apply IH. rewrite lookup_insert.
  destruct (decide (e.1 = n)); [eauto|exact H].
Qed.

End TemplateFacts.

(** X1. Every variable that [extractVariables] returns has a name made of
    characters other than the closing brace and the colon, with no white
    space at either end, and a default (if any) without closing brace and
    with no white space at either end. *)
Theorem extractVariables_wellformed (content : jsstring) (v : variable) :
  v ∈ extractVariables content →
  Forall (λ c, nameChar c = true) (name v)
  ∧ trimmed (name v)
  ∧ ∀ d, defaultValue v = Some d →
      Forall (λ c, defaultChar c = true) d ∧ trimmed d.
Proof.
  rewrite extractVariables_firsts. intros Hv. apply firsts_elem in Hv.
  unfold occurrences in Hv. apply list_elem_of_fmap in Hv as (sm & -> & Hsm).
  pose proof (segments_Forall
    (λ m, Forall (λ c, nameChar c = true) (group1 m)
          ∧ ∀ d, group2 m = Some d → Forall (λ c, defaultChar c = true) d)
    (length content) content) as Hall.
  rewrite Forall_forall in Hall.
  destruct (Hall ltac:(intros s sk m rest E; eapply exec_classes; exact E) sm Hsm)
    as [Hname Hdflt].
  cbn [occurrence name defaultValue].
  split; [apply trim_Forall; exact Hname|]. split; [apply trim_trimmed|].
  intros d Hd. apply fmap_Some in Hd as (d0 & Hd0 & ->).
  split; [apply trim_Forall, Hdflt; exact Hd0|apply trim_trimmed].
Qed.

Lemma extractVariables_wellformed_witness :
  trimmed (str "name") ∧ trimmed (str "Bob").
Proof.
  destruct (extractVariables_wellformed (str "Hi {{ name : Bob }}")
              (Variable_ (str "name") (Some (str "Bob")))
              ltac:(vm_compute; apply list_elem_of_here)) as (_ & Hn & Hd).
  split; [exact Hn|]. destruct (Hd (str "Bob") eq_refl) as [_ H]. exact H.
Defined.

(** X2. A content in which [extractVariables] finds nothing is returned
    unchanged by [replaceVariables], whatever the values. *)
Theorem replaceVariables_no_placeholder (functionText : jsstring → jsstring)
    (content : jsstring) (values : gmap jsstring jsstring) :
  extractVariables content = [] →
  replaceVariables functionText content values = content.
Proof.
  intros Hnone. rewrite replaceVariables_segments.
  destruct (placeholders_text content) as [Htext _].
  assert (placeholders content = []) as Hp.
  { rewrite extractVariables_firsts in Hnone. unfold occurrences in Hnone.
    destruct (placeholders content) as [|sm l]; [reflexivity|].
    rewrite fmap_cons in Hnone. cbn [firsts] in Hnone.
    destruct (decide _) as [Hin|_]; [set_solver|discriminate]. }
  rewrite Hp in *. exact (eq_sym Htext).
Qed.

Lemma replaceVariables_no_placeholder_witness :
  replaceVariables v8FunctionText (str "a {b} {{}} c") {[ str "b" := str "x" ]}
    = str "a {b} {{}} c".
Proof.
  apply replaceVariables_no_placeholder. vm_compute. reflexivity.
Defined.

(** X3. When the values map has an entry for every name that
    [extractVariables] returns, [replaceVariables] writes a value in place
    of every placeholder: no placeholder of the content is emitted again. *)
Theorem replaceVariables_all_filled (functionText : jsstring → jsstring)
    (content : jsstring) (values : gmap jsstring jsstring) :
  (∀ v, v ∈ extractVariables content → is_Some (values !! name v)) →
  replaceVariables functionText content values =
    assemble (λ m, default [] (values !! trim (group1 m)))
      (placeholders content) (trailing content).
Proof. apply replaceVariables_covering. Qed.

Lemma replaceVariables_all_filled_witness :
  replaceVariables v8FunctionText (str "{{a}}-{{b:1}}-{{ a :2}}")
    {[ str "a" := str "x"; str "b" := [] ]} = str "x--x".
Proof.
  rewrite replaceVariables_all_filled.
  - vm_compute. reflexivity.
  - vm_compute. intros v Hv. apply list_elem_of_In in Hv.
    destruct Hv as [<-|[<-|[]]]; vm_compute; eauto.
Defined.

(** X4. For a prompt none of whose variables is named [__proto__]:
    whatever the user types in the dialog that [handleCopy] opened, its
    values have an entry for every placeholder of the prompt, so that
    completing the dialog copies the content with every placeholder replaced
    by the dialog's value for its name: a field left untouched stands for the
    default of the first occurrence of the name, or for the empty text, and
    no placeholder reaches the clipboard as written in the prompt. *)
Theorem dialog_fills_every_placeholder (functionText : jsstring → jsstring)
    (pf : App.Platform) (prompt : Prompt.t)
    (st : App.State) (edits : list (jsstring * jsstring)) :
  extractVariables (Prompt.content prompt) ≠ [] →
  (PROTO ∉ name <$> extractVariables (Prompt.content prompt)) →
  let filled := App.fill edits (App.handleCopy pf prompt st).2 in
  (∀ sm, sm ∈ placeholders (Prompt.content prompt) →
     is_Some (App.variableValues filled !! trim (group1 sm.2)))
  ∧ App.clipboard (App.handleCopyWithVariables functionText pf filled).2 =
      App.clipboard st
        ++ [App.platformWrite pf
              (assemble
                 (λ m, default [] (App.variableValues filled !! trim (group1 m)))
                 (placeholders (Prompt.content prompt))
                 (trailing (Prompt.content prompt)))].
Proof.
  intros Hne Hproto filled. subst filled. unfold App.handleCopy.
  rewrite bool_decide_eq_true_2
    by (destruct (extractVariables (Prompt.content prompt)); [congruence|simpl; lia]).
  cbn [snd].
  match goal with |- context [App.fill edits ?s] =>
    destruct (fill_spec edits s) as (Hc & Ho & Hp & Hv); set (opened := s) in * end.
  assert (∀ v, v ∈ extractVariables (Prompt.content prompt) →
            is_Some (App.variableValues (App.fill edits opened) !! name v)) as Hcover.
  { intros v Hin. rewrite Hv. apply edits_keep_entries.
    subst opened. cbn. unfold App.initialValues.
    rewrite initialValues_entry; [eauto|apply extractVariables_NoDup|exact Hin|].
    intros Heq. apply Hproto. rewrite <- Heq.
    apply list_elem_of_fmap. exists v. split; [reflexivity|exact Hin]. }
  split.
  - intros sm Hsm.
    apply placeholder_name_extracted, list_elem_of_fmap in Hsm as (v & -> & Hin).
    apply Hcover. exact Hin.
  - erewrite handleCopyWithVariables_clipboard; [|rewrite Hp; reflexivity].
    rewrite Hc, (replaceVariables_covering _ _ _ Hcover). reflexivity.
Qed.

(** With nothing typed, the later default of a name is not used. *)
Lemma dialog_fills_every_placeholder_witness :
  let pf := {| App.electronAPI := None; App.navigatorClipboard := λ _, Resolved |} in
  let st := {| App.variableModal_open := false; App.variableModal_prompt := None;
               App.variableValues := ∅; App.copiedId := None; App.clipboard := [] |} in
  let prompt :=
    Prompt.Make (str "1") (str "T") (str "{{a}}, {{b:1}}, {{a:2}}") [] false false None 1 1 [] in
  App.clipboard
    (App.handleCopyWithVariables v8FunctionText pf
       (App.fill [] (App.handleCopy pf prompt st).2)).2 =
  [App.NavigatorWrite (str ", 1, ")].
Proof.
  intros pf st prompt.
  destruct (dialog_fills_every_placeholder v8FunctionText pf prompt st []
              ltac:(vm_compute; discriminate)) as [_ ->].
  { vm_compute. intros H. apply list_elem_of_In in H.
    destruct H as [H|[H|[]]]; discriminate H. }
  vm_compute. reflexivity.
Defined.

(** ** The prompt list *)

Section ListingFacts.
Import Listing.

Lemma compare_listedBefore a b : (compare a b <=? 0)%Z = true ↔ listedBefore a b.
Proof.
  unfold compare, listedBefore. rewrite Z.leb_le.
  destruct (Prompt.isPinned a), (Prompt.isPinned b); cbn; naive_solver lia.
Qed.

Lemma listedBefore_total a b : listedBefore a b ∨ listedBefore b a.
Proof.
  unfold listedBefore.
  destruct (Prompt.isPinned a), (Prompt.isPinned b);
    destruct (Z.le_ge_cases (Prompt.updatedAt a) (Prompt.updatedAt b)); auto.
Qed.

Lemma listedBefore_trans a b c :
  listedBefore a b → listedBefore b c → listedBefore a c.
Proof.
  unfold listedBefore.
  destruct (Prompt.isPinned a), (Prompt.isPinned b), (Prompt.isPinned c);
    naive_solver lia.
Qed.

Lemma insert_Permutation x l : insert x l ≡ₚ x :: l.
Proof.
  induction l as [|y l IH]; [reflexivity|].
  cbn [insert]. destruct (compare x y <=? 0)%Z; [reflexivity|].
  rewrite IH. apply Permutation_swap.
Qed.

Lemma sort_Permutation l : sort l ≡ₚ l.
Proof.
  induction l as [|x l IH]; [reflexivity|].
  cbn [sort]. rewrite insert_Permutation, IH. reflexivity.
Qed.

Lemma insert_sorted x l :
  StronglySorted listedBefore l → StronglySorted listedBefore (insert x l).
Proof.
  induction 1 as [|y l Hs IH Hall]; [repeat constructor|].
  cbn [insert]. destruct (compare x y <=? 0)%Z eqn:Hc.
  - apply compare_listedBefore in Hc. constructor; [constructor; assumption|].
    constructor; [exact Hc|].
    eapply Forall_impl; [exact Hall|]. intros z Hz.
    eapply listedBefore_trans; eassumption.
  - assert (listedBefore y x) as Hyx.
    { destruct (listedBefore_total x y) as [H|H]; [|exact H].
      apply compare_listedBefore in H. congruence. }
    constructor; [exact IH|].
    rewrite insert_Permutation. constructor; assumption.
Qed.

Lemma sort_sorted l : StronglySorted listedBefore (sort l).
Proof.
  induction l as [|x l IH]; [constructor|]. apply insert_sorted. exact IH.
Qed.

Lemma insert_filter (P : Prompt.t → Prop) `{∀ p, Decision (P p)} x l :
  (∀ y, P x → P y → (compare x y <=? 0)%Z = true) →
  filter P (insert x l) = filter P (x :: l).
Proof.
  intros Htie. induction l as [|y l IH]; [reflexivity|].
  cbn [insert]. destruct (compare x y <=? 0)%Z eqn:Hc; [reflexivity|].
  rewrite filter_cons, IH, !filter_cons.
  destruct (decide (P y)) as [Hy|Hy]; [|reflexivity].
  destruct (decide (P x)) as [Hx|Hx]; [|reflexivity].
  rewrite (Htie y Hx Hy) in Hc. discriminate.
Qed.

Lemma sort_filter (P : Prompt.t → Prop) `{∀ p, Decision (P p)} l :
  (∀ x y, P x → P y → (compare x y <=? 0)%Z = true) →
  filter P (sort l) = filter P l.
Proof.
  intros Htie. induction l as [|x l IH]; [reflexivity|].
  cbn [sort]. rewrite insert_filter by (apply Htie).
  rewrite !filter_cons, IH. reflexivity.
Qed.

Lemma filter_all {A} (P : A → Prop) `{∀ x, Decision (P x)} (l : list A) :
  Forall P l → filter P l = l.
Proof.
  induction 1 as [|x l Hx Hl IH]; [reflexivity|].
  rewrite filter_cons. destruct (decide (P x)); [|contradiction].
  f_equal. exact IH.
Qed.

Lemma filter_none {A} (P : A → Prop) `{∀ x, Decision (P x)} (l : list A) :
  Forall (λ x, ¬ P x) l → filter P l = [].
Proof.
  induction 1 as [|x l Hx Hl IH]; [reflexivity|].
  rewrite filter_cons. destruct (decide (P x)); [contradiction|exact IH].
Qed.

Lemma sorted_pinned_first l :
  StronglySorted listedBefore l →
  l = filter (λ p, Prompt.isPinned p = true) l
        ++ filter (λ p, Prompt.isPinned p ≠ true) l.
Proof.
  induction 1 as [|a l Hs IH Hall]; [reflexivity|].
  rewrite !filter_cons. destruct (Prompt.isPinned a) eqn:Ha.
  - destruct (decide (true = true)); [|congruence].
    destruct (decide (true ≠ true)); [congruence|].
    cbn. f_equal. exact IH.
  - destruct (decide (false = true)); [congruence|].
    destruct (decide (false ≠ true)) as [_|Hn]; [|exfalso; apply Hn; discriminate].
    assert (Forall (λ p, Prompt.isPinned p ≠ true) l) as Hun.
    { eapply Forall_impl; [exact Hall|]. intros b [[H1 _]|[H1 _]]; congruence. }
    rewrite (filter_none (λ p, Prompt.isPinned p = true) l Hun).
    rewrite (filter_all (λ p, Prompt.isPinned p ≠ true) l Hun). reflexivity.
Qed.

Lemma filter_sorted (P : Prompt.t → Prop) `{∀ p, Decision (P p)} l :
  StronglySorted listedBefore l → StronglySorted listedBefore (filter P l).
Proof.
  induction 1 as [|a l Hs IH Hall]; [constructor|].
  rewrite filter_cons. destruct (decide (P a)); [|exact IH].
  constructor; [exact IH|]. apply Forall_forall. intros b Hb.
  apply list_elem_of_filter in Hb as [_ Hb].
  rewrite Forall_forall in Hall. auto.
Qed.

End ListingFacts.

(** The prompts that the search keeps, before they are sorted. *)
Lemma filteredPrompts_sort toLowerCase prompts searchQuery :
  Listing.filteredPrompts toLowerCase prompts searchQuery =
    Listing.sort
      match searchQuery with
      | [] => prompts
      | _ :: _ =>
          filter (λ p, Listing.matches toLowerCase (toLowerCase searchQuery) p = true)
            prompts
      end.
Proof. reflexivity. Qed.

(** X5. The list of the bubble is ordered: of two prompts listed, the one
    listed first is pinned while the other is not, or both have the same pin
    state and the first was updated no earlier than the second. *)
Theorem filteredPrompts_ordered (toLowerCase : jsstring → jsstring)
    (prompts : list Prompt.t) (searchQuery : jsstring) :
  StronglySorted listedBefore (Listing.filteredPrompts toLowerCase prompts searchQuery).
Proof. rewrite filteredPrompts_sort. apply sort_sorted. Qed.

(** X6. The list shows each prompt that the search keeps exactly once: with
    an empty query it is a rearrangement of all prompts, otherwise of the
    prompts whose lower-cased title, content or one of whose lower-cased tags
    contains the lower-cased query. *)
Theorem filteredPrompts_complete (toLowerCase : jsstring → jsstring)
    (prompts : list Prompt.t) (searchQuery : jsstring) :
  Listing.filteredPrompts toLowerCase prompts [] ≡ₚ prompts
  ∧ (searchQuery ≠ [] →
     Listing.filteredPrompts toLowerCase prompts searchQuery ≡ₚ
       filter
         (λ p, Listing.includes (toLowerCase (Prompt.title p)) (toLowerCase searchQuery)
               || Listing.includes (toLowerCase (Prompt.content p)) (toLowerCase searchQuery)
               || existsb (λ t, Listing.includes (toLowerCase t) (toLowerCase searchQuery))
                    (Prompt.tags p) = true)
         prompts).
Proof.
  split.
  - rewrite filteredPrompts_sort. apply sort_Permutation.
  - intros Hq. rewrite filteredPrompts_sort.
    destruct searchQuery as [|c q]; [congruence|]. apply sort_Permutation.
Qed.

(** A search with the identity as lower-casing: the prompt whose tag
    contains the query is kept, the other is not. *)
Lemma filteredPrompts_complete_witness :
  let tagged :=
    Prompt.Make (str "1") (str "A") (str "text") [str "mail"] false false None 1 1 [] in
  let other :=
    Prompt.Make (str "2") (str "B") (str "text") [] false true None 1 2 [] in
  Listing.filteredPrompts (λ s, s) [other; tagged] (str "ai") ≡ₚ [tagged].
Proof.
  intros tagged other.
  destruct (filteredPrompts_complete (λ s, s) [other; tagged] (str "ai")) as [_ H].
  rewrite (H ltac:(vm_compute; discriminate)). vm_compute. reflexivity.
Defined.

(** X7. Sorting keeps ties in place: the prompts that have the same pin
    state and the same update time appear in the list in the order they have
    in the array of prompts (among those the search keeps). *)
Theorem filteredPrompts_stable (toLowerCase : jsstring → jsstring)
    (prompts : list Prompt.t) (searchQuery : jsstring)
    (pinned : bool) (updated : Z) :
  filter (λ p, Prompt.isPinned p = pinned ∧ Prompt.updatedAt p = updated)
    (Listing.filteredPrompts toLowerCase prompts searchQuery)
  = filter (λ p, Prompt.isPinned p = pinned ∧ Prompt.updatedAt p = updated)
      match searchQuery with
      | [] => prompts
      | _ :: _ =>
          filter (λ p, Listing.matches toLowerCase (toLowerCase searchQuery) p = true)
            prompts
      end.
Proof.
  rewrite filteredPrompts_sort. apply sort_filter.
  intros x y [Hx1 Hx2] [Hy1 Hy2]. apply compare_listedBefore.
  right. split; [congruence|lia].
Qed.

(** X8. The two sections of the panel split the list: the pinned section
    followed by the unpinned prompts is the whole list; the recent section
    is the first 10 unpinned prompts, so it has at most 10 entries and every
    unpinned prompt it leaves out was updated no later than each one it
    shows. *)
Theorem sections_split (toLowerCase : jsstring → jsstring)
    (prompts : list Prompt.t) (searchQuery : jsstring) :
  let filtered := Listing.filteredPrompts toLowerCase prompts searchQuery in
  let unpinned := filter (λ p, Prompt.isPinned p ≠ true) filtered in
  filtered = Listing.pinnedPrompts toLowerCase prompts searchQuery ++ unpinned
  ∧ Listing.recentPrompts toLowerCase prompts searchQuery = take 10 unpinned
  ∧ length (Listing.recentPrompts toLowerCase prompts searchQuery) ≤ 10
  ∧ ∀ shown hidden,
      shown ∈ Listing.recentPrompts toLowerCase prompts searchQuery →
      hidden ∈ drop 10 unpinned →
      (Prompt.updatedAt hidden ≤ Prompt.updatedAt shown)%Z.
Proof.
  intros filtered unpinned.
  pose proof (sort_sorted
    match searchQuery with
    | [] => prompts
    | _ :: _ =>
        filter (λ p, Listing.matches toLowerCase (toLowerCase searchQuery) p = true)
          prompts
    end) as Hsorted.
  rewrite <- filteredPrompts_sort in Hsorted. fold filtered in Hsorted.
  split; [apply sorted_pinned_first; exact Hsorted|].
  split; [reflexivity|].
  split; [unfold Listing.recentPrompts; rewrite length_take; lia|].
  intros shown hidden Hshown Hhidden.
  unfold Listing.recentPrompts in Hshown. fold filtered in Hshown. fold unpinned in Hshown.
  pose proof (filter_sorted (λ p, Prompt.isPinned p ≠ true) filtered Hsorted) as Hun.
  fold unpinned in Hun. rewrite <- (take_drop 10 unpinned) in Hun.
  pose proof (StronglySorted_app_1_elem_of _ _ _ _ _ Hun Hshown Hhidden) as Hb.
  assert (Prompt.isPinned shown ≠ true) as Hs.
  { assert (shown ∈ unpinned) as Hin.
    { rewrite <- (take_drop 10 unpinned). apply elem_of_app. left. exact Hshown. }
    apply list_elem_of_filter in Hin as [Hin _]. exact Hin. }
  destruct Hb as [[H1 _]|[_ H2]]; [congruence|exact H2].
Qed.

Lemma sections_split_witness :
  let item (i : nat) (pin : bool) :=
    Prompt.Make (numberToString (Z.of_nat i)) (str "T") (str "c") [] false pin None 1
      (Z.of_nat i) [] in
  let prompts := item 0 true :: ((λ i, item i false) <$> seq 1 12) in
  (Prompt.updatedAt (item 1%nat false) ≤ Prompt.updatedAt (item 12%nat false))%Z.
Proof.
  intros item prompts.
  destruct (sections_split (λ s, s) prompts []) as (_ & _ & _ & H).
  apply H.
  - vm_compute. apply list_elem_of_here.
  - vm_compute. apply list_elem_of_further, list_elem_of_here.
Defined.

(** ** The storage service: reading, writing and composing *)

Section SyncFacts.
Import Store Sync.

Lemma loadPrompts_array d w :
  promptsCache w ≠ Some JsonOther → (loadPrompts d w).1 = inr (cached w).
Proof.
  intros Hc. unfold loadPrompts, mbind, M_bind, bind, mret, M_ret, ret.
  destruct (getCachedPrompts_array w Hc) as [log ->].
  cbn [array ret fst]. rewrite spread_all. reflexivity.
Qed.

Lemma loadPrompts_not_array d w :
  promptsCache w = Some JsonOther → (loadPrompts d w).1 = inl TypeError.
Proof.
  intros Hc. unfold loadPrompts, mbind, M_bind, bind, mret, M_ret, ret.
  rewrite (getCachedPrompts_other w Hc). reflexivity.
Qed.

Lemma loadPrompts_promptsCache d w1 w2 :
  promptsCache w1 = promptsCache w2 → (loadPrompts d w1).1 = (loadPrompts d w2).1.
Proof.
  intros Heq. destruct (notArray_dec w2) as [Hc|Hc].
  - rewrite !loadPrompts_not_array by congruence. reflexivity.
  - rewrite !loadPrompts_array by congruence. f_equal.
    apply cached_promptsCache. exact Heq.
Qed.

Lemma loadPromptsAsync_down_promptsCache d api w1 w2 e :
  fetchPrompts api = inl e →
  promptsCache w1 = promptsCache w2 →
  (loadPromptsAsync d api w1).1 = (loadPromptsAsync d api w2).1.
Proof.
  intros Hf Heq. destruct (notArray_dec w2) as [Hc|Hc].
  - rewrite (proj1 (loadPromptsAsync_not_array d api w1 e Hf ltac:(congruence))).
    rewrite (proj1 (loadPromptsAsync_not_array d api w2 e Hf Hc)). reflexivity.
  - rewrite (proj1 (loadPromptsAsync_down d api w1 e Hf ltac:(congruence))).
    rewrite (proj1 (loadPromptsAsync_down d api w2 e Hf Hc)). f_equal.
    apply cached_promptsCache. exact Heq.
Qed.

Lemma upsert_elem saved (l : list Prompt.t) : saved ∈ upsert saved l.
Proof.
  unfold upsert. destruct (list_find _ l) as [[i p]|] eqn:E.
  - apply list_find_Some in E as (Hi & _ & _).
    apply list_elem_of_lookup. exists i.
    apply list_lookup_insert_eq. eapply lookup_lt_Some. exact Hi.
  - set_solver.
Qed.

Lemma upsert_ids saved (l : list Prompt.t) :
  Prompt.id <$> upsert saved l =
    if decide (Prompt.id saved ∈ Prompt.id <$> l) then Prompt.id <$> l
    else (Prompt.id <$> l) ++ [Prompt.id saved].
Proof.
  unfold upsert. destruct (list_find _ l) as [[i p]|] eqn:E.
  - apply list_find_Some in E as (Hi & Hp & _).
    rewrite decide_True.
    + rewrite list_fmap_insert, <- Hp. apply list_insert_id.
      rewrite list_lookup_fmap, Hi. reflexivity.
    + rewrite <- Hp. apply list_elem_of_fmap. exists p. split; [reflexivity|].
      eapply list_elem_of_lookup_2. exact Hi.
  - apply list_find_None in E. rewrite decide_False.
    + rewrite fmap_app. reflexivity.
    + intros Hin. apply list_elem_of_fmap in Hin as (p & Hp & Hin).
      rewrite Forall_forall in E. apply (E p Hin). congruence.
Qed.

Lemma upsert_NoDup saved (l : list Prompt.t) :
  NoDup (Prompt.id <$> l) → NoDup (Prompt.id <$> upsert saved l).
Proof.
  intros Hnd. rewrite upsert_ids. destruct (decide _) as [Hin|Hnin]; [exact Hnd|].
  apply NoDup_app. split; [exact Hnd|]. split; [|apply NoDup_singleton].
  intros x Hx Hx'. apply list_elem_of_singleton in Hx'. congruence.
Qed.

Lemma filter_ids_NoDup (P : Prompt.t → Prop) `{∀ p, Decision (P p)} (l : list Prompt.t) :
  NoDup (Prompt.id <$> l) → NoDup (Prompt.id <$> filter P l).
Proof.
  intros Hnd. eapply sublist_NoDup; [exact Hnd|].
  apply fmap_sublist, sublist_filter.
Qed.

Lemma stripMd_reverse (s : jsstring) dot m d :
  reverse (s ++ [dot; m; d]) = d :: m :: dot :: reverse s.
Proof. rewrite reverse_app. reflexivity. Qed.

End SyncFacts.

(** X9.  [savePrompts] followed by [loadPrompts]: when [localStorage] takes
    the write, the load returns exactly the saved array, whatever the cache
    held before (nothing, the empty text, an unparsable text, another
    array, a value that is not an array); when it refuses the write,
    [savePrompts] still returns normally and the load does what it would
    have done before the save, which is to return the cached array unless
    the cache holds the text of a value that is not an array. *)
Theorem savePrompts_loadPrompts (createDefaultPrompt : Prompt.t)
    (prompts : list Prompt.t) (w : Store.World) :
  let saved := Sync.savePrompts prompts w in
  saved.1 = inr ()
  ∧ (Sync.loadPrompts createDefaultPrompt saved.2).1 =
      (if Store.quota w prompts then inr prompts
       else (Sync.loadPrompts createDefaultPrompt w).1)
  ∧ (Store.promptsCache w ≠ Some Store.JsonOther →
     (Sync.loadPrompts createDefaultPrompt saved.2).1 =
       inr (if Store.quota w prompts then prompts else Store.cached w)).
Proof.
  intros saved. subst saved. unfold Sync.savePrompts.
  destruct (setCachedPrompts_spec prompts w) as (Hr & _ & Hyes & Hno).
  split; [exact Hr|].
  assert ((Sync.loadPrompts createDefaultPrompt (Store.setCachedPrompts prompts w).2).1 =
            (if Store.quota w prompts then inr prompts
             else (Sync.loadPrompts createDefaultPrompt w).1)) as Hload.
  { destruct (Store.quota w prompts).
    - destruct (Hyes eq_refl) as [Hc Hcached].
      rewrite loadPrompts_array by (rewrite Hc; discriminate).
      rewrite Hcached. reflexivity.
    - apply loadPrompts_promptsCache. apply Hno. reflexivity. }
  split; [exact Hload|].
  intros Hc. rewrite Hload. destruct (Store.quota w prompts); [reflexivity|].
  apply loadPrompts_array. exact Hc.
Qed.

(** With the text [null] in the cache and a storage that refuses the
    write, the load after the save throws, as the load before it does. *)
Example loadPrompts_not_array_example :
  let w := {| Store.promptsCache := Some Store.JsonOther;
              Store.quota := λ _, false; Store.console := [] |} in
  (Sync.loadPrompts (samplePrompt "0") w).1 = inl Store.TypeError
  ∧ (Sync.loadPrompts (samplePrompt "0")
       (Sync.savePrompts [samplePrompt "1"] w).2).1 = inl Store.TypeError.
Proof. vm_compute. split; reflexivity. Qed.

(** X10.  [getCachedPrompts] never throws and never writes to the storage:
    it returns a value and leaves the stored text and the quota alone.  It
    logs at most once, the failure to read, and then returns the empty
    array: that is the case exactly when reading the key throws or the
    stored text does not parse.  Otherwise it returns what the text parses
    to, which is not an array exactly when the text is that of a value that
    is not an array, and the empty array when nothing or the empty text is
    stored. *)
Theorem getCachedPrompts_never_throws (w : Store.World) :
  ∃ value log,
    Store.getCachedPrompts w =
      (inr value, {| Store.promptsCache := Store.promptsCache w;
                     Store.quota := Store.quota w;
                     Store.console := Store.console w ++ log |})
    ∧ (log = [Store.FailedToReadPromptsCache] ∧ value = Store.Array []
       ∨ log = [])
    ∧ (log ≠ [] ↔ Store.promptsCache w = Some Store.Unparsable
                  ∨ Store.promptsCache w = Some Store.Unreadable)
    ∧ (value = Store.NotArray ↔ Store.promptsCache w = Some Store.JsonOther)
    ∧ (∀ prompts, Store.promptsCache w = Some (Store.Json prompts) →
         value = Store.Array prompts)
    ∧ (Store.promptsCache w = None ∨ Store.promptsCache w = Some Store.EmptyText →
         value = Store.Array []).
Proof.
  destruct w as [[[ps| | | |]|] q c]; cbn.
  - exists (Store.Array ps), []. rewrite app_nil_r.
    split; [reflexivity|]. split; [right; reflexivity|].
    split; [split; [congruence|intros [?|?]; discriminate]|].
    split; [split; discriminate|]. split; [congruence|].
    intros [?|?]; discriminate.
  - exists Store.NotArray, []. rewrite app_nil_r.
    split; [reflexivity|]. split; [right; reflexivity|].
    split; [split; [congruence|intros [?|?]; discriminate]|].
    split; [split; reflexivity|]. split; [discriminate|].
    intros [?|?]; discriminate.
  - exists (Store.Array []), []. rewrite app_nil_r.
    split; [reflexivity|]. split; [right; reflexivity|].
    split; [split; [congruence|intros [?|?]; discriminate]|].
    split; [split; discriminate|]. split; [discriminate|]. reflexivity.
  - exists (Store.Array []), [Store.FailedToReadPromptsCache].
    split; [reflexivity|]. split; [left; split; reflexivity|].
    split; [split; [left; reflexivity|discriminate]|].
    split; [split; discriminate|]. split; [discriminate|].
    intros [?|?]; discriminate.
  - exists (Store.Array []), [Store.FailedToReadPromptsCache].
    split; [reflexivity|]. split; [left; split; reflexivity|].
    split; [split; [right; reflexivity|discriminate]|].
    split; [split; discriminate|]. split; [discriminate|].
    intros [?|?]; discriminate.
  - exists (Store.Array []), []. rewrite app_nil_r.
    split; [reflexivity|]. split; [right; reflexivity|].
    split; [split; [congruence|intros [?|?]; discriminate]|].
    split; [split; discriminate|]. split; [discriminate|]. reflexivity.
Qed.

(** X11.  A load while the server is unreachable, after a load that reached
    it: the second load resolves with the set the first one fetched when
    [localStorage] took the write of that set; when the write was refused it
    settles as a load from the state before the first load would, which is
    to resolve with the set cached then, unless the cache holds the text of
    a value that is not an array: then it rejects with a [TypeError]. *)
Theorem offline_after_sync (createDefaultPrompt : Prompt.t)
    (up down : Store.Api) (w : Store.World) (fetched : list Prompt.t)
    (e : Store.Exn) :
  Store.fetchPrompts up = inr fetched →
  Store.fetchPrompts down = inl e →
  let w1 := (Store.loadPromptsAsync createDefaultPrompt up w).2 in
  (Store.loadPromptsAsync createDefaultPrompt down w1).1 =
    (if Store.quota w fetched then inr fetched
     else match Store.promptsCache w with
          | Some Store.JsonOther => inl Store.TypeError
          | _ => inr (Store.cached w)
          end)
  ∧ (Store.quota w fetched = false →
     (Store.loadPromptsAsync createDefaultPrompt down w1).1 =
       (Store.loadPromptsAsync createDefaultPrompt down w).1).
Proof.
  intros Hup Hdown w1. subst w1.
  destruct (loadPromptsAsync_up createDefaultPrompt up w fetched Hup)
    as (_ & Hyes & Hno).
  assert (Store.quota w fetched = false →
          (Store.loadPromptsAsync createDefaultPrompt down
             (Store.loadPromptsAsync createDefaultPrompt up w).2).1 =
            (Store.loadPromptsAsync createDefaultPrompt down w).1) as Hsame.
  { intros Hq. apply (loadPromptsAsync_down_promptsCache _ _ _ _ e Hdown).
    apply Hno. exact Hq. }
  split; [|exact Hsame].
  destruct (Store.quota w fetched) eqn:Hq.
  - destruct (Hyes eq_refl) as [Hc Hcached].
    rewrite (proj1 (loadPromptsAsync_down createDefaultPrompt down _ e Hdown
                      ltac:(rewrite Hc; discriminate))).
    rewrite Hcached. reflexivity.
  - rewrite (Hsame eq_refl). destruct (notArray_dec w) as [Hc|Hc].
    + rewrite Hc.
      apply (loadPromptsAsync_not_array createDefaultPrompt down w e Hdown Hc).
    + rewrite (proj1 (loadPromptsAsync_down createDefaultPrompt down w e Hdown Hc)).
      destruct (Store.promptsCache w) as [[| | | |]|]; congruence.
Qed.

Lemma offline_after_sync_witness :
  let w := {| Store.promptsCache := Some Store.Unparsable;
              Store.quota := λ _, true; Store.console := [] |} in
  let down := {| Store.fetchPrompts := inl Store.NetworkError;
                 Store.createPromptApi := λ _, inl Store.NetworkError;
                 Store.updatePromptApi := λ _ _, inl Store.NetworkError;
                 Store.deletePromptApi := λ _, inl Store.NetworkError |} in
  let up := {| Store.fetchPrompts := inr [samplePrompt "2"];
               Store.createPromptApi := λ p, inr p;
               Store.updatePromptApi := λ _ p, inr p;
               Store.deletePromptApi := λ _, inr () |} in
  (Store.loadPromptsAsync (samplePrompt "0") down
     (Store.loadPromptsAsync (samplePrompt "0") up w).2).1
  = inr [samplePrompt "2"].
Proof.
  intros w down up.
  exact (proj1 (offline_after_sync (samplePrompt "0") up down w [samplePrompt "2"]
                  Store.NetworkError eq_refl eq_refl)).
Defined.

(** X12.  A load while the server is unreachable, after a write that
    reached it and whose cache write [localStorage] took, the cache not
    holding the text of a value that is not an array: after a save the
    load resolves with the cached list with the saved entity upserted, which
    contains that entity; after a delete it resolves with the cached list
    without the entries of that id, which has no entry of that id. *)
Theorem offline_after_write (createDefaultPrompt : Prompt.t)
    (api down : Store.Api) (w : Store.World) (e : Store.Exn) :
  Store.promptsCache w ≠ Some Store.JsonOther →
  Store.fetchPrompts down = inl e →
  (∀ prompt saved,
     saveCall api prompt w = inr saved →
     Store.quota w (Store.upsert saved (Store.cached w)) = true →
     (Store.loadPromptsAsync createDefaultPrompt down
        (Store.savePromptAsync api prompt w).2).1
       = inr (Store.upsert saved (Store.cached w))
     ∧ saved ∈ Store.upsert saved (Store.cached w))
  ∧ (∀ id,
     Store.deletePromptApi api id = inr () →
     let kept := filter (λ p, Prompt.id p ≠ id) (Store.cached w) in
     Store.quota w kept = true →
     (Store.loadPromptsAsync createDefaultPrompt down
        (Store.deletePromptAsync api id w).2).1 = inr kept
     ∧ (id ∉ Prompt.id <$> kept)).
Proof.
  intros Hc Hdown. split.
  - intros prompt saved Hcall Hq.
    destruct (savePromptAsync_success api prompt w saved Hc Hcall) as (_ & Hyes & _).
    destruct (Hyes Hq) as [Hc' Hcached].
    destruct (loadPromptsAsync_down createDefaultPrompt down
                (Store.savePromptAsync api prompt w).2 e Hdown
                ltac:(rewrite Hc'; discriminate)) as [-> _].
    rewrite Hcached. split; [reflexivity|apply upsert_elem].
  - intros id Hcall kept Hq.
    destruct (deletePromptAsync_success api id w Hc Hcall) as (_ & Hyes & _).
    destruct (Hyes Hq) as [Hc' Hcached].
    destruct (loadPromptsAsync_down createDefaultPrompt down
                (Store.deletePromptAsync api id w).2 e Hdown
                ltac:(rewrite Hc'; discriminate)) as [-> _].
    rewrite Hcached. split; [reflexivity|].
    intros Hin. apply list_elem_of_fmap in Hin as (p & Hp & Hin).
    apply list_elem_of_filter in Hin as [Hne _]. congruence.
Qed.

Lemma offline_after_write_witness :
  let w := {| Store.promptsCache := Some (Store.Json [samplePrompt "1"]);
              Store.quota := λ _, true; Store.console := [] |} in
  let down := {| Store.fetchPrompts := inl Store.NetworkError;
                 Store.createPromptApi := λ _, inl Store.NetworkError;
                 Store.updatePromptApi := λ _ _, inl Store.NetworkError;
                 Store.deletePromptApi := λ _, inl Store.NetworkError |} in
  let api := {| Store.fetchPrompts := inr [];
                Store.createPromptApi := λ p, inr p;
                Store.updatePromptApi := λ _ p, inr p;
                Store.deletePromptApi := λ _, inr () |} in
  (Store.loadPromptsAsync (samplePrompt "0") down
     (Store.savePromptAsync api (samplePrompt "2") w).2).1
    = inr [samplePrompt "1"; samplePrompt "2"]
  ∧ (Store.loadPromptsAsync (samplePrompt "0") down
       (Store.deletePromptAsync api (str "1") w).2).1 = inr [].
Proof.
  intros w down api.
  destruct (offline_after_write (samplePrompt "0") api down w Store.NetworkError
              ltac:(discriminate) eq_refl) as [Hsave Hdelete].
  split.
  - exact (proj1 (Hsave (samplePrompt "2") (samplePrompt "2") eq_refl eq_refl)).
  - exact (proj1 (Hdelete (str "1") eq_refl eq_refl)).
Defined.

(** With the text [null] in the cache no write reaches the cache: the save
    rejects before its remote call, the delete after it, and the load made
    offline afterwards rejects as well. *)
Example offline_after_write_not_array :
  let w := {| Store.promptsCache := Some Store.JsonOther;
              Store.quota := λ _, true; Store.console := [] |} in
  let down := {| Store.fetchPrompts := inl Store.NetworkError;
                 Store.createPromptApi := λ _, inl Store.NetworkError;
                 Store.updatePromptApi := λ _ _, inl Store.NetworkError;
                 Store.deletePromptApi := λ _, inl Store.NetworkError |} in
  let api := {| Store.fetchPrompts := inr [];
                Store.createPromptApi := λ p, inr p;
                Store.updatePromptApi := λ _ p, inr p;
                Store.deletePromptApi := λ _, inr () |} in
  (Store.savePromptAsync api (samplePrompt "2") w).1 = inl Store.TypeError
  ∧ (Store.deletePromptAsync api (str "1") w).1 = inl Store.TypeError
  ∧ (Store.loadPromptsAsync (samplePrompt "0") down
       (Store.savePromptAsync api (samplePrompt "2") w).2).1 = inl Store.TypeError
  ∧ (Store.loadPromptsAsync (samplePrompt "0") down
       (Store.deletePromptAsync api (str "1") w).2).1 = inl Store.TypeError.
Proof. vm_compute. repeat split. Qed.



(** X14.  The cache keeps its ids unique: when no two cached prompts share
    an id, the same holds after [savePromptAsync] and after
    [deletePromptAsync], whether the remote call or the cache write succeeds
    or fails, and whatever entity the server returns. *)
Theorem cache_ids_stay_unique (api : Store.Api) (w : Store.World) :
  NoDup (Prompt.id <$> Store.cached w) →
  (∀ prompt,
     NoDup (Prompt.id <$> Store.cached (Store.savePromptAsync api prompt w).2))
  ∧ (∀ id,
     NoDup (Prompt.id <$> Store.cached (Store.deletePromptAsync api id w).2)).
Proof.
  intros Hnd. split.
  - intros prompt. destruct (notArray_dec w) as [Hother|Harray].
    { destruct (savePromptAsync_not_array api prompt w Hother) as (_ & Hc & _).
      rewrite (cached_promptsCache _ _ Hc). exact Hnd. }
    destruct (saveCall api prompt w) as [err|saved] eqn:Hcall.
    + destruct (savePromptAsync_failure api prompt w err Harray Hcall) as (_ & Hc & _).
      rewrite (cached_promptsCache _ _ Hc). exact Hnd.
    + destruct (savePromptAsync_success api prompt w saved Harray Hcall)
        as (_ & Hyes & Hno).
      destruct (Store.quota w (Store.upsert saved (Store.cached w))) eqn:Hq.
      * rewrite (proj2 (Hyes eq_refl)). apply upsert_NoDup. exact Hnd.
      * destruct (Hno eq_refl) as [Hc _].
        rewrite (cached_promptsCache _ _ Hc). exact Hnd.
  - intros id. destruct (Store.deletePromptApi api id) as [err|[]] eqn:Hcall.
    + destruct (deletePromptAsync_failure api id w err Hcall) as (_ & Hc & _).
      rewrite (cached_promptsCache _ _ Hc). exact Hnd.
    + destruct (notArray_dec w) as [Hother|Harray].
      { destruct (deletePromptAsync_not_array api id w Hother Hcall) as (_ & Hc & _).
        rewrite (cached_promptsCache _ _ Hc). exact Hnd. }
      destruct (deletePromptAsync_success api id w Harray Hcall) as (_ & Hyes & Hno).
      destruct (Store.quota w (filter (λ p, Prompt.id p ≠ id) (Store.cached w)))
        eqn:Hq.
      * rewrite (proj2 (Hyes eq_refl)). apply filter_ids_NoDup. exact Hnd.
      * destruct (Hno eq_refl) as [Hc _].
        rewrite (cached_promptsCache _ _ Hc). exact Hnd.
Qed.

Lemma cache_ids_stay_unique_witness :
  let w := {| Store.promptsCache := Some (Store.Json [samplePrompt "1"; samplePrompt "2"]);
              Store.quota := λ _, true; Store.console := [] |} in
  let api := {| Store.fetchPrompts := inr [];
                Store.createPromptApi := λ p, inr p;
                Store.updatePromptApi := λ _ p, inr p;
                Store.deletePromptApi := λ _, inr () |} in
  NoDup (Prompt.id <$>
           Store.cached (Store.savePromptAsync api (samplePrompt "2") w).2).
Proof.
  intros w api.
  refine (proj1 (cache_ids_stay_unique api w _) (samplePrompt "2")).
  vm_compute. repeat constructor; set_solver.
Defined.

(** X15.  [importFromMarkdown] takes off the file name one final [.md], in
    any letter case, and nothing else: either the file name is the title
    followed by such an extension, or the title is the whole file name and
    the file name does not end with such an extension. *)
Theorem importFromMarkdown_title (now : Z) (filename content : jsstring) :
  let extensions := [str ".md"; str ".MD"; str ".Md"; str ".mD"] in
  let title := Prompt.title (Sync.importFromMarkdown now filename content) in
  (∃ ext, ext ∈ extensions ∧ filename = title ++ ext)
  ∨ (title = filename ∧ ∀ base ext, ext ∈ extensions → filename ≠ base ++ ext).
Proof.
  intros extensions title. subst extensions title.
  unfold Sync.importFromMarkdown. cbn [Prompt.title].
  destruct (Sync.endsWithMd filename) eqn:E.
  - left. unfold Sync.endsWithMd in E.
    destruct (reverse filename) as [|d [|m [|dot r]]] eqn:Hrev; try discriminate.
    assert (filename = reverse r ++ [dot; m; d]) as Hf.
    { rewrite <- (reverse_involutive filename), Hrev.
      rewrite !reverse_cons, <- !app_assoc. reflexivity. }
    clear Hrev. subst filename. rewrite length_app. cbn [length].
    replace (length (reverse r) + 3 - 3) with (length (reverse r)) by lia.
    rewrite take_app_length.
    apply andb_prop in E as [E Ed]. apply andb_prop in E as [Edot Em].
    apply N.eqb_eq in Edot. subst dot.
    apply orb_prop in Em. apply orb_prop in Ed.
    exists [46%N; m; d]. split; [|reflexivity].
    destruct Em as [Em|Em], Ed as [Ed|Ed];
      apply N.eqb_eq in Em; apply N.eqb_eq in Ed; subst m d;
      change (str ".md") with [46%N; 109%N; 100%N];
      change (str ".MD") with [46%N; 77%N; 68%N];
      change (str ".Md") with [46%N; 77%N; 100%N];
      change (str ".mD") with [46%N; 109%N; 68%N]; set_solver.
  - right. split; [reflexivity|]. intros base ext Hext Hf.
    assert (∃ dot m d, ext = [dot; m; d]
              ∧ ((dot =? 46)%N && ((m =? 109)%N || (m =? 77)%N)
                 && ((d =? 100)%N || (d =? 68)%N)) = true) as (dot & m & d & -> & Ht).
    { rewrite !elem_of_cons, elem_of_nil in Hext.
      destruct Hext as [->|[->|[->|[->|[]]]]];
        eexists _, _, _; (split; [reflexivity|reflexivity]). }
    unfold Sync.endsWithMd in E. rewrite Hf, stripMd_reverse in E. congruence.
Qed.

(** ** Connection status: checks and unsubscription *)

Section MonitorMoreFacts.
Import Monitor.

Lemma setConnectionStatus_listeners status st :
  listeners (setConnectionStatus status st) = listeners st.
Proof.
  unfold setConnectionStatus. destruct (decide _); reflexivity.
Qed.

Lemma setConnectionStatus_calls status st :
  calls (setConnectionStatus status st) =
    calls st ++ (if decide (connectionStatus st = status) then []
                 else (λ l, (l, status)) <$> listeners st).
Proof.
  unfold setConnectionStatus.
  destruct (decide (connectionStatus st ≠ status)) as [Hne|Heq].
  - rewrite decide_False by exact Hne. reflexivity.
  - rewrite decide_True; [rewrite app_nil_r; reflexivity|].
    destruct (decide (connectionStatus st = status)); [assumption|contradiction].
Qed.

Lemma setConnectionStatus_status status st :
  connectionStatus (setConnectionStatus status st) = status.
Proof.
  unfold setConnectionStatus.
  destruct (decide (connectionStatus st ≠ status)) as [Hne|Heq]; [reflexivity|].
  destruct (decide (connectionStatus st = status)); [assumption|contradiction].
Qed.

Lemma silent_after listener statuses st :
  (listener ∉ listeners st) →
  let st' := foldl (λ s status, setConnectionStatus status s) st statuses in
  filter (λ c, c.1 = listener) (calls st') = filter (λ c, c.1 = listener) (calls st)
  ∧ listeners st' = listeners st.
Proof.
  revert st. induction statuses as [|status statuses IH]; intros st Hnot;
    [split; reflexivity|].
  cbn [foldl]; cbv zeta. cbv zeta in IH.
  destruct (IH (setConnectionStatus status st)) as [Hc Hl].
  { rewrite setConnectionStatus_listeners. exact Hnot. }
  rewrite Hc, Hl, setConnectionStatus_listeners, setConnectionStatus_calls.
  split; [|reflexivity].
  rewrite filter_app. destruct (decide _); [apply app_nil_r|].
  rewrite (filter_none _ (_ <$> _)); [apply app_nil_r|].
  apply Forall_forall. intros [l s] Hin Hl'. cbn in Hl'. subst l.
  apply list_elem_of_fmap in Hin as (l & [= -> _] & Hin). contradiction.
Qed.

End MonitorMoreFacts.

(** X16.  [checkConnection] (in both modules) returns whether the health
    request succeeded and leaves the status at ['connected'] or
    ['disconnected'] accordingly.  The listeners stay registered and every
    one of them is called with ['checking'], unless that was the status
    already, and then with the final status: so a check made while connected
    tells every listener ['checking'] and ['connected'] again. *)
Theorem checkConnection_settles (healthy : bool) (st : Monitor.State) :
  let final := if healthy then connected else disconnected in
  let r := Monitor.checkConnection healthy st in
  r.1 = healthy
  ∧ Monitor.connectionStatus r.2 = final
  ∧ Monitor.listeners r.2 = Monitor.listeners st
  ∧ Monitor.calls r.2 =
      Monitor.calls st
      ++ (if decide (Monitor.connectionStatus st = checking) then []
          else (λ l, (l, checking)) <$> Monitor.listeners st)
      ++ ((λ l, (l, final)) <$> Monitor.listeners st).
Proof.
  intros final r. subst final r. unfold Monitor.checkConnection.
  destruct healthy; cbn [fst snd];
    rewrite !setConnectionStatus_status, !setConnectionStatus_listeners,
      !setConnectionStatus_calls, setConnectionStatus_status,
      setConnectionStatus_listeners, <- app_assoc;
    repeat split.
Qed.

(** X17.  The function returned by a subscription (in both modules) removes
    every registration of the listener: through any sequence of status
    changes that follows, that listener is not called again, and the other
    listeners stay registered in their order. *)
Theorem unsubscribe_silences (listener : nat) (st : Monitor.State)
    (statuses : list ConnectionStatus) :
  let st' := foldl (λ s status, Monitor.setConnectionStatus status s)
               (Monitor.unsubscribe listener st) statuses in
  filter (λ c, c.1 = listener) (Monitor.calls st')
    = filter (λ c, c.1 = listener) (Monitor.calls st)
  ∧ Monitor.listeners st' = filter (λ l, l ≠ listener) (Monitor.listeners st).
Proof.
  apply (silent_after listener statuses (Monitor.unsubscribe listener st)).
  cbn. intros Hin. apply list_elem_of_filter in Hin as [Hne _]. congruence.
Qed.

(** ** Import *)

Section ImportFacts.
Import Server Importing.

Lemma getProp_setProp key value fields :
  getProp key (setProp key value fields) = Some value.
Proof.
  induction fields as [|[k v] rest IH]; cbn.
  - rewrite decide_True by reflexivity. reflexivity.
  - destruct (decide (k = key)) as [->|Hne]; cbn.
    + rewrite decide_True by reflexivity. reflexivity.
    + rewrite decide_False by exact Hne. exact IH.
Qed.

Lemma getProp_setProp_ne key key' value fields :
  key ≠ key' → getProp key' (setProp key value fields) = getProp key' fields.
Proof.
  intros Hne. induction fields as [|[k v] rest IH]; cbn.
  - rewrite decide_False by exact Hne. reflexivity.
  - destruct (decide (k = key)) as [->|Hk]; cbn.
    + rewrite !decide_False by exact Hne. reflexivity.
    + destruct (decide (k = key')); [reflexivity|exact IH].
Qed.

Lemma getProp_None key fields : getProp key fields = None ↔ key ∉ fields.*1.
Proof.
  induction fields as [|[k v] rest IH]; cbn.
  - split; [intros _; apply not_elem_of_nil|reflexivity].
  - rewrite not_elem_of_cons. destruct (decide (k = key)) as [->|Hne].
    + split; [discriminate|intros [H _]; congruence].
    + rewrite IH. split; [intros H; split; [congruence|exact H]|intros [_ H]; exact H].
Qed.

Lemma json_array_ind (P : json → Prop) :
  P JNull → (∀ b, P (JBool b)) → (∀ n, P (JNumber n)) → (∀ s, P (JString s)) →
  (∀ items, Forall P items → P (JArray items)) →
  (∀ fields, P (JObject fields)) →
  ∀ v, P v.
Proof.
  intros HN HB Hn HS HA HO. fix IH 1.
  intros [|b|n|s|items|fields]; [exact HN|apply HB|apply Hn|apply HS| |apply HO].
  apply HA.
  exact ((fix go (l : list json) : Forall P l :=
            match l with
            | [] => Forall_nil_2 P
            | item :: rest => Forall_cons_2 P item rest (IH item) (go rest)
            end) items).
Qed.

(** The conversion to a text throws exactly on the values that have no
    primitive. *)
Lemma toText_None v : toText v = None ↔ unconvertible v.
Proof.
  induction v as [|b|n|s|items IH|fields] using json_array_ind;
    try (split; [discriminate|inversion 1]).
  - cbn [toText].
    set (f := λ item, match item with JNull => Some [] | _ => toText item end).
    assert (mapM f items = None ↔ ∃ item, item ∈ items ∧ unconvertible item) as Hmap.
    { rewrite eq_None_not_Some, mapM_is_Some.
      split.
      - intros Hnot. apply not_Forall_Exists in Hnot; [|intros x; apply _].
        apply Exists_exists in Hnot as (item & Hin & Hitem).
        exists item. split; [exact Hin|].
        rewrite Forall_forall in IH. apply (IH item Hin).
        unfold compose, f in Hitem. rewrite <- eq_None_not_Some in Hitem.
        destruct item; try exact Hitem. discriminate.
      - intros (item & Hin & Hitem) Hall.
        rewrite Forall_forall in Hall, IH. specialize (Hall item Hin).
        apply (IH item Hin) in Hitem. unfold compose, f in Hall.
        destruct item; try (rewrite Hitem in Hall; destruct Hall; discriminate).
        inversion Hitem. }
    destruct (mapM f items) as [texts|] eqn:E; cbn.
    + split; [discriminate|]. inversion 1 as [|items' item Hin Hitem]; subst.
      discriminate (proj2 Hmap (ex_intro _ item (conj Hin Hitem))).
    + split; [|reflexivity]. intros _.
      destruct (proj1 Hmap eq_refl) as (item & Hin & Hitem).
      econstructor; eassumption.
  - cbn [toText]. destruct (getProp (str "toString") fields) as [v|] eqn:E.
    + split; [intros _|reflexivity]. constructor.
      destruct (decide (str "toString" ∈ fields.*1)) as [Hin|Hnin]; [exact Hin|].
      apply getProp_None in Hnin. congruence.
    + split; [discriminate|]. inversion 1 as [fs Hin|]; subst.
      apply getProp_None in E. contradiction.
Qed.

Lemma toNumber_None stringToNumber v :
  toNumber stringToNumber v = None ↔ toText v = None.
Proof.
  destruct v as [|b|n|s|items|fields]; try (split; discriminate);
    unfold toNumber; destruct (toText _); split; (discriminate || reflexivity).
Qed.

Lemma lessThan_None stringToNumber value n :
  lessThan stringToNumber value n = None
  ↔ ∃ v, value = Some v ∧ unconvertible v.
Proof.
  unfold lessThan. destruct value as [v|].
  - pose proof (toNumber_None stringToNumber v) as Hn.
    pose proof (toText_None v) as Ht. split.
    + intros H. exists v. split; [reflexivity|]. apply Ht, Hn.
      destruct (toNumber stringToNumber v); [discriminate|reflexivity].
    + intros (v' & [= <-] & Hv). apply Ht, Hn in Hv. rewrite Hv. reflexivity.
  - split; [discriminate|]. intros (v & [=] & _).
Qed.

End ImportFacts.

(** X18.  An export imports as it is: [importData] on the text that
    [exportData] produces returns, without logging, the exported prompts and
    folders (as the JSON values they serialise to); no prompt is migrated,
    so pins, folders and versions are kept. *)
Theorem import_of_export (stringToNumber : jsstring → option Z) (now : Z)
    (prompts : list Prompt.t) (folders : list Folder.t) :
  Importing.importData stringToNumber
    (Some (Encode.exportData (Store.exportData now prompts folders)))
  = (Some {| Importing.prompts := Encode.prompt <$> prompts;
             Importing.folders := Server.JArray (Encode.folder <$> folders) |}, []).
Proof. reflexivity. Qed.

(** X19.  Importing a bare array (the legacy format) migrates every element,
    whatever it holds: the result has as many prompts, each an object with
    [isPinned] false, [folderId] null and [versions] empty and with every
    other property of the element unchanged, and no folders.  So the pins,
    folders and versions of prompts that had them are lost on this path. *)
Theorem importData_legacy_array (stringToNumber : jsstring → option Z)
    (items : list Server.json) :
  ∃ imported,
    Importing.importData stringToNumber (Some (Server.JArray items))
      = (Some imported, [])
    ∧ Importing.folders imported = Server.JArray []
    ∧ length (Importing.prompts imported) = length items
    ∧ ∀ i item, items !! i = Some item →
        ∃ fields,
          Importing.prompts imported !! i = Some (Server.JObject fields)
          ∧ Importing.getProp (str "isPinned") fields = Some (Server.JBool false)
          ∧ Importing.getProp (str "folderId") fields = Some Server.JNull
          ∧ Importing.getProp (str "versions") fields = Some (Server.JArray [])
          ∧ ∀ key, key ∉ [str "isPinned"; str "folderId"; str "versions"] →
              Importing.getProp key fields
                = Importing.getProp key (Importing.ownProperties item).
Proof.
  eexists. split; [reflexivity|]. split; [reflexivity|].
  cbn [Importing.prompts]. unfold Importing.migrateToV2. split; [apply length_fmap|].
  intros i item Hi. eexists. split.
  { rewrite list_lookup_fmap, Hi. reflexivity. }
  split.
  { rewrite !getProp_setProp_ne by (vm_compute; discriminate).
    apply getProp_setProp. }
  split.
  { rewrite getProp_setProp_ne by (vm_compute; discriminate).
    apply getProp_setProp. }
  split; [apply getProp_setProp|].
  intros key Hkey. rewrite !elem_of_cons, elem_of_nil in Hkey.
  rewrite !getProp_setProp_ne; [reflexivity| | |]; intros <-; tauto.
Qed.

Lemma importData_legacy_array_witness :
  ∃ imported,
    Importing.importData (λ _, None)
      (Some (Server.JArray [Encode.prompt
               (Prompt.Make (str "1") (str "T") [] [] true true (Some (str "f")) 1 1 [])]))
      = (Some imported, [])
    ∧ ∃ fields,
        Importing.prompts imported !! 0%nat = Some (Server.JObject fields)
        ∧ Importing.getProp (str "isPinned") fields = Some (Server.JBool false)
        ∧ Importing.getProp (str "isFavorite") fields = Some (Server.JBool true).
Proof.
  destruct (importData_legacy_array (λ _, None)
              [Encode.prompt
                 (Prompt.Make (str "1") (str "T") [] [] true true (Some (str "f")) 1 1 [])])
    as (imported & Hr & _ & _ & Hitems).
  exists imported. split; [exact Hr|].
  destruct (Hitems 0%nat _ eq_refl) as (fields & Hf & Hpin & _ & _ & Hother).
  exists fields. split; [exact Hf|]. split; [exact Hpin|].
  rewrite Hother; [reflexivity|].
  rewrite !elem_of_cons, elem_of_nil. vm_compute.
  intros [H|[H|[H|[]]]]; discriminate.
Defined.

(** X20.  An envelope whose [prompts] is an array is imported without
    logging, with its [folders] (the empty array when they are absent or
    falsy), unless the comparison of its [version] with 2 throws: that is
    when the version is an object with an own property [toString], or an
    array that holds such a value; [importData] then logs the failure and
    returns null.  The prompts of an imported envelope are migrated when its
    version is a number below 2 or is null, and are taken as they are when
    the version is a number from 2 on, when it is an object without an own
    [toString], and when the envelope has no [version] at all. *)
Theorem importData_envelope (stringToNumber : jsstring → option Z)
    (fields : list (jsstring * Server.json)) (items : list Server.json) :
  Importing.getProp (str "prompts") fields = Some (Server.JArray items) →
  let version := Importing.getProp (str "version") fields in
  let r := Importing.importData stringToNumber (Some (Server.JObject fields)) in
  let taken prompts :=
    r = (Some {| Importing.prompts := prompts;
                 Importing.folders :=
                   Server.orElse (Importing.getProp (str "folders") fields)
                     (Server.JArray []) |}, []) in
  ((∃ v, version = Some v ∧ unconvertible v) → r = (None, [Importing.ImportFailed]))
  ∧ ((∀ v, version = Some v → ¬ unconvertible v) →
       taken items ∨ taken (Importing.migrateToV2 items))
  ∧ (version = None → taken items)
  ∧ (∀ n, version = Some (Server.JNumber n) →
       taken (if (n <? 2)%Z then Importing.migrateToV2 items else items))
  ∧ (version = Some Server.JNull → taken (Importing.migrateToV2 items))
  ∧ (∀ fs, version = Some (Server.JObject fs) → str "toString" ∉ fs.*1 →
       taken items).
Proof.
  intros Hprompts version r taken. subst version r taken.
  unfold Importing.importData. rewrite Hprompts. cbv beta.
  split; [|split; [|split; [|split; [|split]]]].
  - intros Hv. apply (lessThan_None stringToNumber _ 2) in Hv. rewrite Hv.
    reflexivity.
  - intros Hv.
    destruct (Importing.lessThan stringToNumber _ 2) as [[|]|] eqn:E;
      [right; reflexivity|left; reflexivity|].
    apply lessThan_None in E as (v & Hversion & Hun).
    exfalso. exact (Hv v Hversion Hun).
  - intros ->. reflexivity.
  - intros n ->. cbn. destruct (n <? 2)%Z; reflexivity.
  - intros ->. reflexivity.
  - intros fs -> Hfs. apply getProp_None in Hfs.
    unfold Importing.lessThan, Importing.toNumber. cbn [Importing.toText].
    rewrite Hfs. reflexivity.
Qed.

Lemma importData_envelope_witness :
  Importing.importData (λ _, None)
    (Some (Server.JObject [(str "prompts", Server.JArray [Server.JObject []])]))
    = (Some {| Importing.prompts := [Server.JObject []];
               Importing.folders := Server.JArray [] |}, [])
  ∧ Importing.importData (λ _, None)
      (Some (Server.JObject
               [(str "prompts", Server.JArray []);
                (str "version",
                 Server.JObject [(str "toString", Server.JNumber 0)])]))
    = (None, [Importing.ImportFailed]).
Proof.
  split.
  - destruct (importData_envelope (λ _, None)
                [(str "prompts", Server.JArray [Server.JObject []])]
                [Server.JObject []] eq_refl) as (_ & _ & Hnone & _).
    exact (Hnone eq_refl).
  - destruct (importData_envelope (λ _, None)
                [(str "prompts", Server.JArray []);
                 (str "version",
                  Server.JObject [(str "toString", Server.JNumber 0)])]
                [] eq_refl) as (Hthrows & _).
    apply Hthrows. eexists. split; [reflexivity|].
    constructor. vm_compute. apply list_elem_of_here.
Defined.

(** X21.  [importData] never throws.  It returns a result exactly when the
    text parses to an array, or to an object whose [prompts] is an array and
    whose [version], if it has one, can be converted to a primitive; in
    every other case it returns null.  It logs exactly when the text does
    not parse, when it parses to [null], and when it parses to an object
    whose [prompts] is an array and whose [version] cannot be converted: an
    object with an own property [toString], or an array that holds such a
    value. *)
Theorem importData_accepts (stringToNumber : jsstring → option Z)
    (data : option Server.json) :
  let r := Importing.importData stringToNumber data in
  let envelope fields :=
    data = Some (Server.JObject fields)
    ∧ ∃ items, Importing.getProp (str "prompts") fields = Some (Server.JArray items) in
  let throwing fields :=
    ∃ v, Importing.getProp (str "version") fields = Some v ∧ unconvertible v in
  (r.1 ≠ None ↔
     (∃ items, data = Some (Server.JArray items))
     ∨ (∃ fields, envelope fields ∧ ¬ throwing fields))
  ∧ (r.2 = [Importing.ImportFailed] ↔
       data = None ∨ data = Some Server.JNull
       ∨ ∃ fields, envelope fields ∧ throwing fields)
  ∧ (r.2 = [] ∨ r.2 = [Importing.ImportFailed]).
Proof.
  intros r envelope throwing. subst r envelope throwing.
  unfold Importing.importData.
  destruct data as [[| | | |items|fields]|]; cbv beta iota;
    [| | | | |destruct (Importing.getProp (str "prompts") fields)
                 as [[| | | |items|fs]|] eqn:E; cbv beta iota;
               [| | | |pose proof (lessThan_None stringToNumber
                                     (Importing.getProp (str "version") fields) 2)
                         as Hthrow;
                       destruct (Importing.lessThan stringToNumber _ 2)
                         as [legacy|]| |]|];
    cbn [fst snd]; repeat split; intros;
    repeat match goal with
           | H : _ ∨ _ |- _ => destruct H
           | H : ∃ _, _ |- _ => destruct H
           | H : _ ∧ _ |- _ => destruct H
           end;
    simplify_eq; try congruence; eauto 8.
  - right. exists fields. split; [eauto|].
    intros Hv. apply Hthrow in Hv. discriminate.
  - exfalso. assert (Some legacy = None) as Hn by (apply Hthrow; eauto).
    discriminate.
  - exfalso. match goal with H : ¬ _ |- _ => apply H end.
    apply Hthrow. reflexivity.
  - right. right. exists fields. split; [eauto|]. apply Hthrow. reflexivity.
Qed.

(** ** The server routes and the requests of the clients *)

(** X22.  What [POST /prompts] stores for a prompt sent by
    [createPromptApi]: the prompt itself, except that an empty id becomes
    the current time as text, an empty title becomes ['New Prompt'], an
    empty folder id becomes null, and a [createdAt] or [updatedAt] of 0
    becomes the current time.  Every other field, and every non-empty id,
    title and folder id and non-zero time, is stored as sent. *)
Theorem postPrompts_stores_prompt (now : Z) (p : Prompt.t) :
  Server.newPrompt now (Request.createPrompt p) =
    Row.prompt
      (Prompt.Make
         (match Prompt.id p with [] => numberToString now | _ :: _ => Prompt.id p end)
         (match Prompt.title p with [] => str "New Prompt" | _ :: _ => Prompt.title p end)
         (Prompt.content p) (Prompt.tags p) (Prompt.isFavorite p)
         (Prompt.isPinned p)
         (match Prompt.folderId p with Some [] => None | folderId => folderId end)
         (if (Prompt.createdAt p =? 0)%Z then now else Prompt.createdAt p)
         (if (Prompt.updatedAt p =? 0)%Z then now else Prompt.updatedAt p)
         (Prompt.versions p)).
Proof.
  destruct p as [id title content tags fav pin folder created updated versions].
  unfold Server.newPrompt, Request.createPrompt, Row.prompt.
  cbn [Prompt.id Prompt.title Prompt.content Prompt.tags Prompt.isFavorite
       Prompt.isPinned Prompt.folderId Prompt.createdAt Prompt.updatedAt
       Prompt.versions Encode.prompt Importing.ownProperties].
  repeat match goal with |- context [Server.orElse ?l _] =>
    match l with
    | Some _ => fail 1
    | _ => let v := eval vm_compute in l in change l with v
    end
  end.
  cbn [Server.orElse Server.truthy].
  destruct id, title, content, fav, pin, folder as [[|c f]|],
    (created =? 0)%Z, (updated =? 0)%Z; reflexivity.
Qed.

(** X23.  What [POST /folders] builds for a folder sent by
    [createFolderApi]: the folder itself, except that an empty id becomes
    the current time as text, an empty name ['New Folder'], an empty icon
    the folder emoji, an empty color ['#3B82F6'] and a [createdAt] of 0 the
    current time. *)
Theorem postFolders_stores_folder (now : Z) (f : Folder.t) :
  ServerRoutes.newFolder now (Request.createFolder f) =
    Row.folder
      (Folder.Make
         (match Folder.id f with [] => numberToString now | _ :: _ => Folder.id f end)
         (match Folder.name f with [] => str "New Folder" | _ :: _ => Folder.name f end)
         (match Folder.icon f with
          | [] => ServerRoutes.FOLDER_ICON | _ :: _ => Folder.icon f end)
         (match Folder.color f with [] => str "#3B82F6" | _ :: _ => Folder.color f end)
         (if (Folder.createdAt f =? 0)%Z then now else Folder.createdAt f)).
Proof.
  destruct f as [id name icon color created].
  unfold ServerRoutes.newFolder, Request.createFolder, Row.folder.
  cbn [Folder.id Folder.name Folder.icon Folder.color Folder.createdAt
       Encode.folder Importing.ownProperties].
  repeat match goal with |- context [Server.orElse ?l _] =>
    match l with
    | Some _ => fail 1
    | _ => let v := eval vm_compute in l in change l with v
    end
  end.
  cbn [Server.orElse Server.truthy].
  destruct id, name, icon, color, (created =? 0)%Z; reflexivity.
Qed.

Section RouteFacts.
Import Server.

Lemma importData_folders_truthy stringToNumber data imported :
  (Importing.importData stringToNumber data).1 = Some imported →
  truthy (Importing.folders imported) = true.
Proof.
  unfold Importing.importData.
  destruct data as [[| | | |items|fields]|]; cbv beta iota; cbn [fst];
    try discriminate.
  - intros [= <-]. reflexivity.
  - destruct (Importing.getProp (str "prompts") fields) as [[| | | |items|fs]|];
      cbv beta iota; cbn [fst]; try discriminate.
    destruct (Importing.lessThan stringToNumber _ 2); cbn [fst]; [|discriminate].
    intros [= <-]. cbn [Importing.folders]. unfold orElse.
    destruct (Importing.getProp (str "folders") fields) as [v|]; [|reflexivity].
    destruct (truthy v) eqn:E; [exact E|reflexivity].
Qed.

Lemma request_importData_prompts prompts folders :
  Request.importData prompts folders !! str "prompts" = Some (JArray prompts).
Proof. reflexivity. Qed.

Lemma request_importData_folders prompts folders :
  Request.importData prompts folders !! str "folders" = Some folders.
Proof. reflexivity. Qed.

End RouteFacts.

(** X24.  Whatever [importData] accepts, the validation of [POST /import]
    accepts: for the request that [importDataApi] sends with an imported
    result, the route does not answer 400, it hands the database exactly the
    imported prompts and folders, and it answers 200 with their counts, or
    500 when the database call throws. *)
Theorem imported_passes_validation (stringToNumber : jsstring → option Z)
    (data : option Server.json)
    (imported : Importing.Imported) (Db : Type)
    (dbImportData : list Server.json → Server.json → Db → bool * Db) (db : Db) :
  (Importing.importData stringToNumber data).1 = Some imported →
  let prompts := Importing.prompts imported in
  let folders := Importing.folders imported in
  ServerRoutes.postImport Db dbImportData (Request.importData prompts folders) db
  = match dbImportData prompts folders db with
    | (true, db') =>
        ({| ServerRoutes.status := 200;
            ServerRoutes.payload :=
              ServerRoutes.ImportedJson (Z.of_nat (length prompts))
                (ServerRoutes.lengthOf folders) |}, db')
    | (false, db') =>
        ({| ServerRoutes.status := 500;
            ServerRoutes.payload :=
              ServerRoutes.ImportErrorJson (str "Failed to import data") |}, db')
    end.
Proof.
  intros Himp prompts folders. subst prompts folders.
  unfold ServerRoutes.postImport.
  rewrite request_importData_prompts, request_importData_folders.
  unfold Server.orElse.
  rewrite (importData_folders_truthy _ _ _ Himp). reflexivity.
Qed.

Lemma imported_passes_validation_witness :
  let dbImportData (prompts : list Server.json) (folders : Server.json)
        (db : list (list Server.json)) := (true, db ++ [prompts]) in
  (ServerRoutes.postImport _ dbImportData
     (Request.importData
        (Importing.migrateToV2 [Server.JObject [(str "id", Server.JString (str "1"))]])
        (Server.JArray [])) []).1
  = {| ServerRoutes.status := 200;
       ServerRoutes.payload :=
         ServerRoutes.ImportedJson 1 (Some (Server.JNumber 0)) |}.
Proof.
  intros dbImportData.
  pose proof (imported_passes_validation (λ _, None)
                (Some (Server.JArray [Server.JObject [(str "id", Server.JString (str "1"))]]))
                _ _ dbImportData [] eq_refl) as H.
  cbn [Importing.prompts Importing.folders] in H. cbv zeta in H.
  rewrite H. reflexivity.
Defined.

(** X25.  [POST /import] answers 400 exactly when the [prompts] of the body
    are not an array (absent, null, an object, a string, ...); it then
    leaves the database as it is, whatever the database module does.  With
    an array the answer is 200 or 500. *)
Theorem postImport_validates (Db : Type)
    (dbImportData : list Server.json → Server.json → Db → bool * Db)
    (body : gmap jsstring Server.json) (db : Db) :
  let r := ServerRoutes.postImport Db dbImportData body db in
  (ServerRoutes.status r.1 = 400%Z
     ↔ ∀ items, body !! str "prompts" ≠ Some (Server.JArray items))
  ∧ (ServerRoutes.status r.1 = 400%Z → r.2 = db)
  ∧ (ServerRoutes.status r.1 = 400%Z ∨ ServerRoutes.status r.1 = 200%Z
     ∨ ServerRoutes.status r.1 = 500%Z).
Proof.
  intros r. subst r. unfold ServerRoutes.postImport.
  destruct (body !! str "prompts") as [[| | | |items|fields]|];
    cbv beta iota zeta;
    try (split; [split; [intros _ items; discriminate|reflexivity]
                |split; [reflexivity|left; reflexivity]]).
  destruct (dbImportData items _ db) as [[|] db']; cbn [fst snd ServerRoutes.status].
  - split; [split; [discriminate|intros H; exfalso; exact (H items eq_refl)]|].
    split; [discriminate|right; left; reflexivity].
  - split; [split; [discriminate|intros H; exfalso; exact (H items eq_refl)]|].
    split; [discriminate|right; right; reflexivity].
Qed.

Lemma postImport_validates_witness :
  let dbImportData (prompts : list Server.json) (folders : Server.json)
        (db : list (list Server.json)) := (true, db ++ [prompts]) in
  (ServerRoutes.postImport _ dbImportData
     {[ str "prompts" := Server.JObject [] ]} []).2 = [].
Proof.
  intros dbImportData.
  apply (proj1 (proj2 (postImport_validates _ dbImportData
                         {[ str "prompts" := Server.JObject [] ]} []))).
  apply (proj2 (proj1 (postImport_validates _ dbImportData
                         {[ str "prompts" := Server.JObject [] ]} []))).
  intros items. vm_compute. discriminate.
Defined.

(** ** Migration of old local data *)

Section MigrationFacts.
Import Server Migration.
Variable parse : jsstring → option json.
Variable stringify : json → jsstring.
Variable stringToNumber : jsstring → option Z.
Variable importDataApi : json → json → bool.
Variable accepts : gmap jsstring jsstring → jsstring → jsstring → bool.

Lemma keys_distinct :
  OLD_PROMPTS_KEY ≠ OLD_FOLDERS_KEY
  ∧ PROMPTS_BACKUP_KEY ≠ OLD_PROMPTS_KEY
  ∧ PROMPTS_BACKUP_KEY ≠ OLD_FOLDERS_KEY
  ∧ FOLDERS_BACKUP_KEY ≠ OLD_PROMPTS_KEY
  ∧ FOLDERS_BACKUP_KEY ≠ OLD_FOLDERS_KEY
  ∧ FOLDERS_BACKUP_KEY ≠ PROMPTS_BACKUP_KEY.
Proof. repeat split; intros H; vm_compute in H; discriminate. Qed.

Lemma setItem_Some key value w w' :
  setItem accepts key value w = Some w' →
  w' = {| localStorage := <[key := value]> (localStorage w);
          requests := requests w; console := console w |}.
Proof. unfold setItem. destruct (accepts _ _ _); congruence. Qed.

(** The run that reports success. *)
Lemma migrate_true w :
  (migrateLocalStorageToApi parse stringToNumber importDataApi accepts w).1 = true →
  let rawPrompts := localStorage w !! OLD_PROMPTS_KEY in
  let rawFolders := localStorage w !! OLD_FOLDERS_KEY in
  ∃ prompts folders,
    importDataApi prompts folders = true
    ∧ (migrateLocalStorageToApi parse stringToNumber importDataApi accepts w).2
      = {| localStorage :=
             delete OLD_FOLDERS_KEY
               (delete OLD_PROMPTS_KEY
                  (<[FOLDERS_BACKUP_KEY := rawOr rawFolders]>
                     (<[PROMPTS_BACKUP_KEY := rawOr rawPrompts]> (localStorage w))));
           requests := requests w ++ [(prompts, folders)];
           console := console w ++ [Migrated] |}.
Proof.
  unfold migrateLocalStorageToApi. cbv zeta.
  repeat case_match; cbn [fst snd]; try discriminate. intros _.
  repeat match goal with
         | H : setItem _ _ _ _ = Some _ |- _ => apply setItem_Some in H; subst
         end.
  eexists _, _. split; [eassumption|]. reflexivity.
Qed.

(** The length of a value that was compared with 0 has a text. *)
Lemma greaterThan0_lengthText value len positive :
  lengthOf value = Some len →
  greaterThan0 stringToNumber len = Some positive →
  is_Some (lengthText value).
Proof.
  unfold lengthText, greaterThan0. intros -> Hpos. cbn.
  destruct len as [v|]; [|eauto].
  destruct (Importing.toText v) eqn:E; [eauto|].
  apply (toNumber_None stringToNumber) in E. rewrite E in Hpos. discriminate.
Qed.

Lemma lengthText_None value :
  lengthText value = None
  ↔ value = JNull ∨ ∃ len, ServerRoutes.lengthOf value = Some len ∧ unconvertible len.
Proof.
  unfold lengthText.
  assert (value = JNull ∨ (value ≠ JNull
            ∧ lengthOf value = Some (ServerRoutes.lengthOf value))) as [->|[Hv Hl]]
    by (destruct value;
        first [left; reflexivity | right; split; [discriminate|reflexivity]]).
  - split; [auto|reflexivity].
  - rewrite Hl. unfold mbind, option_bind.
    destruct (ServerRoutes.lengthOf value) as [len|].
    + rewrite toText_None. split; [eauto|].
      intros [?|(len' & [= <-] & H)]; [contradiction|exact H].
    + split; [discriminate|]. intros [?|(len' & [=] & _)]. contradiction.
Qed.

(** The runs that report failure: either the old keys are left alone, or
    everything is done but the last log. *)
Lemma migrate_false w :
  (migrateLocalStorageToApi parse stringToNumber importDataApi accepts w).1 = false →
  let w' := (migrateLocalStorageToApi parse stringToNumber importDataApi accepts w).2 in
  let rawPrompts := localStorage w !! OLD_PROMPTS_KEY in
  let rawFolders := localStorage w !! OLD_FOLDERS_KEY in
  (localStorage w' !! OLD_PROMPTS_KEY = rawPrompts
   ∧ localStorage w' !! OLD_FOLDERS_KEY = rawFolders)
  ∨ ∃ prompts folders,
      importDataApi prompts folders = true
      ∧ lengthText folders = None
      ∧ w' = {| localStorage :=
                  delete OLD_FOLDERS_KEY
                    (delete OLD_PROMPTS_KEY
                       (<[FOLDERS_BACKUP_KEY := rawOr rawFolders]>
                          (<[PROMPTS_BACKUP_KEY := rawOr rawPrompts]>
                             (localStorage w))));
                requests := requests w ++ [(prompts, folders)];
                console := console w ++ [MigrationFailed] |}.
Proof.
  destruct keys_distinct as (_ & Hpp & Hpf & Hfp & Hff & _).
  unfold migrateLocalStorageToApi. cbv zeta.
  destruct (negb _ && negb _); [intros _; left; split; reflexivity|].
  destruct (readPrompts parse stringToNumber _) as [prompts|];
    [|intros _; left; split; reflexivity].
  destruct (readFolders parse _) as [folders|];
    [|intros _; left; split; reflexivity].
  destruct (nonEmpty stringToNumber prompts folders) as [[|]|] eqn:Hne;
    [|intros _; left; split; reflexivity..].
  destruct (importDataApi prompts folders) eqn:Hapi;
    [|intros _; left; split; reflexivity].
  destruct (setItem accepts PROMPTS_BACKUP_KEY _ _) as [w2|] eqn:H2;
    [|intros _; left; split; reflexivity].
  destruct (setItem accepts FOLDERS_BACKUP_KEY _ _) as [w3|] eqn:H3.
  2:{ intros _. left. apply setItem_Some in H2. subst.
      cbn [fst snd localStorage log request]. rewrite !lookup_insert_ne by assumption.
      split; reflexivity. }
  apply setItem_Some in H2. subst w2. apply setItem_Some in H3. subst w3.
  assert (is_Some (lengthText prompts)) as [text Htext].
  { unfold nonEmpty in Hne. destruct (lengthOf prompts) as [lp|] eqn:Hlp; [|discriminate].
    unfold mbind, option_bind in Hne.
    destruct (greaterThan0 stringToNumber lp) as [positive|] eqn:Hpos; [|discriminate].
    exact (greaterThan0_lengthText prompts lp positive Hlp Hpos). }
  rewrite Htext. destruct (lengthText folders) as [text'|] eqn:Hfolders;
    [discriminate|].
  intros _. right. exists prompts, folders. split; [exact Hapi|].
  split; [exact Hfolders|reflexivity].
Qed.

End MigrationFacts.

(** X26.  The migration happens at most once: when
    [migrateLocalStorageToApi] returns true, it has sent one import request,
    the two old keys are gone from [localStorage] and the backup keys hold
    the old texts (['[]'] for a missing or empty one); a second run then
    returns false and changes nothing: no request, no write, no log. *)
Theorem migration_happens_once (parse : jsstring → option Server.json)
    (stringToNumber : jsstring → option Z)
    (importDataApi : Server.json → Server.json → bool)
    (accepts : gmap jsstring jsstring → jsstring → jsstring → bool)
    (w : Migration.World) :
  let migrate := Migration.migrateLocalStorageToApi parse stringToNumber
                   importDataApi accepts in
  (migrate w).1 = true →
  let w' := (migrate w).2 in
  Migration.localStorage w' !! Migration.OLD_PROMPTS_KEY = None
  ∧ Migration.localStorage w' !! Migration.OLD_FOLDERS_KEY = None
  ∧ Migration.localStorage w' !! Migration.PROMPTS_BACKUP_KEY
      = Some (Migration.rawOr (Migration.localStorage w !! Migration.OLD_PROMPTS_KEY))
  ∧ Migration.localStorage w' !! Migration.FOLDERS_BACKUP_KEY
      = Some (Migration.rawOr (Migration.localStorage w !! Migration.OLD_FOLDERS_KEY))
  ∧ length (Migration.requests w') = S (length (Migration.requests w))
  ∧ migrate w' = (false, w').
Proof.
  intros migrate Htrue w'. subst migrate w'.
  destruct keys_distinct as (Hpf & Hpp & Hpf' & Hfp & Hff & Hfb).
  destruct (migrate_true parse stringToNumber importDataApi accepts w Htrue)
    as (prompts & folders & _ & ->).
  cbn [Migration.localStorage Migration.requests].
  assert (delete Migration.OLD_FOLDERS_KEY
            (delete Migration.OLD_PROMPTS_KEY
               (<[Migration.FOLDERS_BACKUP_KEY :=
                    Migration.rawOr (Migration.localStorage w !! Migration.OLD_FOLDERS_KEY)]>
                  (<[Migration.PROMPTS_BACKUP_KEY :=
                       Migration.rawOr (Migration.localStorage w !! Migration.OLD_PROMPTS_KEY)]>
                     (Migration.localStorage w)))) !! Migration.OLD_PROMPTS_KEY = None)
    as Hp.
  { rewrite lookup_delete_ne by congruence. apply lookup_delete_eq. }
  split; [exact Hp|].
  split; [apply lookup_delete_eq|].
  split.
  { rewrite !lookup_delete_ne by congruence.
    rewrite lookup_insert_ne by exact Hfb. apply lookup_insert_eq. }
  split.
  { rewrite !lookup_delete_ne by congruence. apply lookup_insert_eq. }
  split.
  { rewrite length_app. cbn. lia. }
  unfold Migration.migrateLocalStorageToApi. cbn [Migration.localStorage].
  rewrite Hp, lookup_delete_eq. reflexivity.
Qed.

(** X27.  A migration that returns false has removed nothing, with one
    exception: the two old keys hold in [localStorage] what they held before,
    so the old data are still there for a later run (also when the API
    refused the import, and when a backup could not be written), unless
    everything was done but the final log.  That is the case when the text
    of the length of the folders cannot be formed, the folders being [null],
    or their [length] an object with an own property [toString] or an array
    that holds one: the import was sent and taken, the backups are written
    and the two old keys are removed, and then the failure is logged and
    false returned. *)
Theorem migration_failure_keeps_data (parse : jsstring → option Server.json)
    (stringToNumber : jsstring → option Z)
    (importDataApi : Server.json → Server.json → bool)
    (accepts : gmap jsstring jsstring → jsstring → jsstring → bool)
    (w : Migration.World) :
  let migrate := Migration.migrateLocalStorageToApi parse stringToNumber
                   importDataApi accepts in
  let rawPrompts := Migration.localStorage w !! Migration.OLD_PROMPTS_KEY in
  let rawFolders := Migration.localStorage w !! Migration.OLD_FOLDERS_KEY in
  (migrate w).1 = false →
  (Migration.localStorage (migrate w).2 !! Migration.OLD_PROMPTS_KEY = rawPrompts
   ∧ Migration.localStorage (migrate w).2 !! Migration.OLD_FOLDERS_KEY = rawFolders)
  ∨ ∃ prompts folders,
      importDataApi prompts folders = true
      ∧ (folders = Server.JNull
         ∨ ∃ len, ServerRoutes.lengthOf folders = Some len ∧ unconvertible len)
      ∧ (migrate w).2 =
          {| Migration.localStorage :=
               delete Migration.OLD_FOLDERS_KEY
                 (delete Migration.OLD_PROMPTS_KEY
                    (<[Migration.FOLDERS_BACKUP_KEY := Migration.rawOr rawFolders]>
                       (<[Migration.PROMPTS_BACKUP_KEY := Migration.rawOr rawPrompts]>
                          (Migration.localStorage w))));
             Migration.requests := Migration.requests w ++ [(prompts, folders)];
             Migration.console :=
               Migration.console w ++ [Migration.MigrationFailed] |}.
Proof.
  intros migrate rawPrompts rawFolders Hfalse. subst migrate rawPrompts rawFolders.
  destruct (migrate_false parse stringToNumber importDataApi accepts w Hfalse)
    as [Hkept|(prompts & folders & Hapi & Htext & Hw)].
  - left. exact Hkept.
  - right. exists prompts, folders. split; [exact Hapi|].
    split; [apply lengthText_None; exact Htext|exact Hw].
Qed.

Lemma migration_happens_once_witness :
  let parse (s : jsstring) :=
    if decide (s = str "[{}]") then Some (Server.JArray [Server.JObject []])
    else None in
  let migrate := Migration.migrateLocalStorageToApi parse (λ _, None)
                   (λ _ _, true) (λ _ _ _, true) in
  let w := {| Migration.localStorage := {[ Migration.OLD_PROMPTS_KEY := str "[{}]" ]};
              Migration.requests := []; Migration.console := [] |} in
  Migration.localStorage (migrate w).2 !! Migration.PROMPTS_BACKUP_KEY
    = Some (str "[{}]")
  ∧ migrate (migrate w).2 = (false, (migrate w).2).
Proof.
  intros parse migrate w.
  destruct (migration_happens_once parse (λ _, None) (λ _ _, true)
              (λ _ _ _, true) w) as (_ & _ & Hb & _ & _ & Hagain).
  { vm_compute. reflexivity. }
  split; [|exact Hagain].
  etransitivity; [exact Hb|]. vm_compute. reflexivity.
Defined.

Lemma migration_failure_keeps_data_witness :
  let parse (s : jsstring) :=
    if decide (s = str "[{}]") then Some (Server.JArray [Server.JObject []])
    else None in
  let migrate := Migration.migrateLocalStorageToApi parse (λ _, None)
                   (λ _ _, false) (λ _ _ _, true) in
  let w := {| Migration.localStorage := {[ Migration.OLD_PROMPTS_KEY := str "[{}]" ]};
              Migration.requests := []; Migration.console := [] |} in
  Migration.localStorage (migrate w).2 !! Migration.OLD_PROMPTS_KEY
    = Some (str "[{}]").
Proof.
  intros parse migrate w.
  destruct (migration_failure_keeps_data parse (λ _, None) (λ _ _, false)
              (λ _ _ _, true) w) as [[Hp _]|(prompts & folders & Hapi & _)].
  { vm_compute. reflexivity. }
  - etransitivity; [exact Hp|]. vm_compute. reflexivity.
  - discriminate Hapi.
Defined.

(** The exception of X27 at work: old prompts [[{}]] next to old folders
    [null], with an API that takes the import.  The length of the prompts
    is positive, so that of the folders is first read for the final log:
    the migration returns false with the import sent and the old keys
    removed. *)
Example migration_failure_after_removal :
  let parse (s : jsstring) :=
    if decide (s = str "[{}]") then Some (Server.JArray [Server.JObject []])
    else if decide (s = str "null") then Some Server.JNull
    else None in
  let migrate := Migration.migrateLocalStorageToApi parse (λ _, None)
                   (λ _ _, true) (λ _ _ _, true) in
  let w := {| Migration.localStorage :=
                {[ Migration.OLD_PROMPTS_KEY := str "[{}]";
                   Migration.OLD_FOLDERS_KEY := str "null" ]};
              Migration.requests := []; Migration.console := [] |} in
  (migrate w).1 = false
  ∧ Migration.localStorage (migrate w).2 !! Migration.OLD_PROMPTS_KEY = None
  ∧ Migration.localStorage (migrate w).2 !! Migration.OLD_FOLDERS_KEY = None
  ∧ Migration.requests (migrate w).2 =
      [(Server.JArray (Importing.migrateToV2 [Server.JObject []]), Server.JNull)]
  ∧ Migration.console (migrate w).2 = [Migration.MigrationFailed].
Proof. vm_compute. repeat split. Qed.

(** X28.  [importDataToApi] returns true exactly when [importData] accepts
    the text and the API takes the import.  When it returns false,
    [localStorage] is as it was, and when [importData] rejects the text no
    request is sent.  When it returns true and [localStorage] takes every
    write, the two caches hold the texts of the imported prompts and
    folders. *)
Theorem importDataToApi_outcome (stringify : Server.json → jsstring)
    (stringToNumber : jsstring → option Z)
    (importDataApi : Server.json → Server.json → bool)
    (accepts : gmap jsstring jsstring → jsstring → jsstring → bool)
    (data : option Server.json) (w : Migration.World) :
  let parsed := (Importing.importData stringToNumber data).1 in
  let r := Migration.importDataToApi stringify stringToNumber
             importDataApi accepts data w in
  (r.1 = true ↔
     ∃ imported, parsed = Some imported
       ∧ importDataApi (Server.JArray (Importing.prompts imported))
           (Importing.folders imported) = true)
  ∧ (r.1 = false → Migration.localStorage r.2 = Migration.localStorage w)
  ∧ (parsed = None → Migration.requests r.2 = Migration.requests w)
  ∧ (∀ imported, parsed = Some imported → r.1 = true →
     (∀ ls key value, accepts ls key value = true) →
     Migration.localStorage r.2 !! Migration.PROMPTS_CACHE_KEY
       = Some (stringify (Server.JArray (Importing.prompts imported)))
     ∧ Migration.localStorage r.2 !! Migration.FOLDERS_CACHE_KEY
       = Some (stringify (Importing.folders imported))).
Proof.
  intros parsed r. subst parsed r. unfold Migration.importDataToApi.
  destruct (Importing.importData stringToNumber data)
    as [[imported|] entries]; cbn [fst].
  - destruct (importDataApi (Server.JArray (Importing.prompts imported))
                (Importing.folders imported)) eqn:Hapi; cbn [fst snd].
    + split; [split; [eauto|reflexivity]|]. split; [discriminate|].
      split; [discriminate|].
      intros ? [= <-] _ Hacc.
      unfold Migration.setCached, Migration.setItem. rewrite !Hacc.
      cbn [Migration.localStorage Migration.request]. split.
      * rewrite lookup_insert_ne by (intros H; vm_compute in H; discriminate).
        apply lookup_insert_eq.
      * apply lookup_insert_eq.
    + split; [split; [discriminate|intros (? & [= <-] & ?); congruence]|].
      split; [reflexivity|]. split; [discriminate|]. discriminate.
  - cbn [fst snd Migration.localStorage Migration.requests].
    split; [split; [discriminate|intros (? & [=] & _)]|].
    split; [reflexivity|]. split; [reflexivity|]. discriminate.
Qed.

Lemma importDataToApi_outcome_witness :
  let r := Migration.importDataToApi (λ _, str "[]") (λ _, None)
             (λ _ _, true) (λ _ _ _, true) (Some (Server.JArray []))
             {| Migration.localStorage := ∅; Migration.requests := [];
                Migration.console := [] |} in
  r.1 = true
  ∧ Migration.localStorage r.2 !! Migration.PROMPTS_CACHE_KEY = Some (str "[]").
Proof.
  intros r. subst r.
  destruct (importDataToApi_outcome (λ _, str "[]") (λ _, None)
              (λ _ _, true) (λ _ _ _, true) (Some (Server.JArray []))
              {| Migration.localStorage := ∅; Migration.requests := [];
                 Migration.console := [] |}) as (Hiff & _ & _ & Hcache).
  assert (Htrue := proj2 Hiff (ex_intro _ _ (conj eq_refl eq_refl))).
  split; [exact Htrue|].
  exact (proj1 (Hcache _ eq_refl Htrue (λ _ _ _, eq_refl))).
Defined.

(** ** The base URL of the API and connection monitoring *)

Section ApiConfigFacts.
Import ApiConfig.

Lemma startsWith_spec (s q : jsstring) :
  Listing.startsWith s q = true ↔ ∃ post, s = q ++ post.
Proof.
  revert s. induction q as [|c q IH]; intros s.
  - destruct s; cbn; split; eauto.
  - destruct s as [|x s]; cbn.
    + split; [discriminate|intros [post [=]]].
    + rewrite andb_true_iff, N.eqb_eq, IH. split.
      * intros [-> [post ->]]. eauto.
      * intros [post [= -> ->]]. eauto.
Qed.

Lemma replace_spec (s pattern replacement : jsstring) :
  pattern ≠ [] →
  ((∀ pre post, s ≠ pre ++ pattern ++ post) ∧ replace s pattern replacement = s)
  ∨ (∃ pre post,
       s = pre ++ pattern ++ post
       ∧ replace s pattern replacement = pre ++ replacement ++ post
       ∧ ∀ pre' post', s = pre' ++ pattern ++ post' → length pre ≤ length pre').
Proof.
  intros Hne. induction s as [|c s IH].
  - left. destruct pattern as [|p pattern]; [congruence|]. split; [|reflexivity].
    intros [|x pre] post; discriminate.
  - cbn [replace]. destruct (Listing.startsWith (c :: s) pattern) eqn:Hs.
    + right. apply startsWith_spec in Hs as [post Hs]. exists [], post.
      split; [exact Hs|]. split.
      * rewrite Hs, drop_app_length. reflexivity.
      * intros pre' post' _. cbn. lia.
    + assert (∀ post, c :: s ≠ pattern ++ post) as Hnot.
      { intros post Heq.
        assert (Listing.startsWith (c :: s) pattern = true) as Ht
          by (apply startsWith_spec; eauto).
        congruence. }
      destruct IH as [[Hno ->]|(pre & post & Heq & -> & Hmin)].
      * left. split; [|reflexivity]. intros [|x pre] post Heq.
        -- exact (Hnot post Heq).
        -- injection Heq as -> Heq. exact (Hno pre post Heq).
      * right. exists (c :: pre), post. split; [rewrite Heq; reflexivity|].
        split; [reflexivity|]. intros [|x pre'] post' Heq'.
        -- exfalso. exact (Hnot post' Heq').
        -- injection Heq' as -> Heq'. cbn. apply le_n_S. exact (Hmin pre' post' Heq').
Qed.

Lemma monitoring_inv_call t m c :
  monitoring_inv t m → monitoring_inv t (call m c).
Proof.
  unfold monitoring_inv. intros [Hfresh Hlive]. destruct c as [intervalMs|]; cbn [call].
  - unfold startConnectionMonitoring.
    destruct (connectionCheckInterval m) as [handle|] eqn:E.
    + split; [exact Hfresh|]. rewrite E. exact Hlive.
    + cbn. split.
      * apply Forall_app. split.
        -- eapply Forall_impl; [exact Hfresh|]. cbn. intros timer Hlt. lia.
        -- repeat constructor. cbn. lia.
      * exists intervalMs. rewrite Hlive. split; [reflexivity|].
        rewrite <- Hlive. eapply Forall_impl; [exact Hfresh|].
        cbn. intros timer Hlt. lia.
  - unfold stopConnectionMonitoring.
    destruct (connectionCheckInterval m) as [handle|] eqn:E.
    + destruct Hlive as (intervalMs & Hlive & Hother). cbn. split.
      * apply Forall_forall. intros timer Hin.
        apply list_elem_of_filter in Hin as [_ Hin].
        rewrite Forall_forall in Hfresh. exact (Hfresh timer Hin).
      * rewrite Hlive, filter_app, filter_all by exact Hother.
        rewrite filter_cons_False by (cbn; tauto). apply app_nil_r.
    + split; [exact Hfresh|]. rewrite E. exact Hlive.
Qed.

Lemma monitoring_inv_calls t m calls :
  monitoring_inv t m → monitoring_inv t (foldl call m calls).
Proof.
  revert m. induction calls as [|c calls IH]; intros m Hinv; [exact Hinv|].
  cbn [foldl]. apply IH, monitoring_inv_call, Hinv.
Qed.

End ApiConfigFacts.

(** X29.  [getApiBaseUrl] returns the configured URL when one is set and is
    not empty.  Otherwise it returns the origin of the page with the first
    [:2528] in it replaced by [:2529] (what stands before that first
    occurrence and after it is kept), and the origin itself when [:2528]
    does not occur in it. *)
Theorem getApiBaseUrl_port (window : ApiConfig.Window) :
  (∀ c url, ApiConfig.PROMPTVAULT_API_URL window = Some (c :: url) →
     ApiConfig.getApiBaseUrl (Some window) = c :: url)
  ∧ (ApiConfig.PROMPTVAULT_API_URL window = None
     ∨ ApiConfig.PROMPTVAULT_API_URL window = Some [] →
     let origin := ApiConfig.origin window in
     let url := ApiConfig.getApiBaseUrl (Some window) in
     ((∀ pre post, origin ≠ pre ++ str ":2528" ++ post) ∧ url = origin)
     ∨ (∃ pre post,
          origin = pre ++ str ":2528" ++ post
          ∧ url = pre ++ str ":2529" ++ post
          ∧ ∀ pre' post', origin = pre' ++ str ":2528" ++ post' →
              length pre ≤ length pre')).
Proof.
  split.
  - intros c url Hset. unfold ApiConfig.getApiBaseUrl. rewrite Hset. reflexivity.
  - intros Hunset origin url. subst origin url. unfold ApiConfig.getApiBaseUrl.
    assert (match ApiConfig.PROMPTVAULT_API_URL window with
            | Some (c :: url) => c :: url
            | _ => ApiConfig.replace (ApiConfig.origin window) (str ":2528") (str ":2529")
            end
            = ApiConfig.replace (ApiConfig.origin window) (str ":2528") (str ":2529"))
      as -> by (destruct Hunset as [-> | ->]; reflexivity).
    apply replace_spec. discriminate.
Qed.

Lemma getApiBaseUrl_port_witness :
  ApiConfig.getApiBaseUrl
    (Some {| ApiConfig.PROMPTVAULT_API_URL := Some (str "http://api:9000");
             ApiConfig.origin := str "http://10.33.10.109:2528" |})
    = str "http://api:9000"
  ∧ ApiConfig.getApiBaseUrl
      (Some {| ApiConfig.PROMPTVAULT_API_URL := None;
               ApiConfig.origin := str "http://10.33.10.109:2528" |})
    = str "http://10.33.10.109:2529".
Proof.
  split.
  - apply (proj1 (getApiBaseUrl_port
                    {| ApiConfig.PROMPTVAULT_API_URL := Some (str "http://api:9000");
                       ApiConfig.origin := str "http://10.33.10.109:2528" |})).
    vm_compute. reflexivity.
  - destruct (proj2 (getApiBaseUrl_port
                       {| ApiConfig.PROMPTVAULT_API_URL := None;
                          ApiConfig.origin := str "http://10.33.10.109:2528" |})
                (or_introl eq_refl)) as [[_ H]|(pre & post & _ & _ & _)];
      vm_compute; reflexivity.
Defined.

(** X30.  Through any sequence of calls of [startConnectionMonitoring] and
    [stopConnectionMonitoring] after the module is loaded, the monitoring
    has at most one interval timer running: the timers of the page are those
    it had at load, followed, exactly when monitoring is on, by one timer,
    the one whose handle the module holds.  (The handles of the timers at
    load are below the next handle, as [setInterval] hands them out.) *)
Theorem monitoring_single_timer (t : ApiConfig.Timers)
    (calls : list ApiConfig.Call) :
  Forall (λ timer, (timer.1 < ApiConfig.next t)%positive) (ApiConfig.live t) →
  let m := foldl ApiConfig.call (ApiConfig.loaded t) calls in
  ∃ extra,
    ApiConfig.live (ApiConfig.timers m) = ApiConfig.live t ++ extra
    ∧ length extra ≤ 1
    ∧ (extra = [] ↔ ApiConfig.connectionCheckInterval m = None)
    ∧ (∀ timer, timer ∈ extra →
         ApiConfig.connectionCheckInterval m = Some timer.1).
Proof.
  intros Hfresh m.
  assert (monitoring_inv t m) as [_ Hlive].
  { apply monitoring_inv_calls. split; [exact Hfresh|reflexivity]. }
  destruct (ApiConfig.connectionCheckInterval m) as [handle|].
  - destruct Hlive as (intervalMs & Hlive & _). exists [(handle, intervalMs)].
    split; [exact Hlive|]. split; [cbn; lia|]. split; [split; discriminate|].
    intros timer Hin. apply list_elem_of_singleton in Hin as ->. reflexivity.
  - exists []. split; [rewrite app_nil_r; exact Hlive|]. split; [cbn; lia|].
    split; [split; reflexivity|]. intros timer Hin. set_solver.
Qed.

Lemma monitoring_single_timer_witness :
  let t := {| ApiConfig.live := [(1%positive, 1000%Z)]; ApiConfig.next := 2 |} in
  let m := foldl ApiConfig.call (ApiConfig.loaded t)
             [ApiConfig.Start 30000; ApiConfig.Start 5000; ApiConfig.Stop;
              ApiConfig.Start 5000] in
  ∃ extra,
    ApiConfig.live (ApiConfig.timers m) = ApiConfig.live t ++ extra
    ∧ length extra ≤ 1.
Proof.
  intros t m.
  destruct (monitoring_single_timer t
              [ApiConfig.Start 30000; ApiConfig.Start 5000; ApiConfig.Stop;
               ApiConfig.Start 5000]) as (extra & Hlive & Hlen & _).
  { repeat constructor. }
  exists extra. split; [exact Hlive|exact Hlen].
Defined.
